(** * ProSLAM back end: pose alignment (UVDAligner) and relocalization (Relocalizer)

    Shallow embedding of [src/aligners/uvd_aligner.cpp] and
    [src/relocalization/relocalizer.cpp].

    Conventions of the embedding.
    - [real] (a C++ [double]) is an exact rational [Q]: rounding is not
      modelled.  [detectClosures] divides by the number of query
      descriptors, which can be zero; that quotient is a [Quotient], which
      besides the rationals has the IEEE 754 results of a division by zero
      (not-a-number for 0/0, infinity otherwise), and it compares as in
      IEEE 754.  Every other division of the modelled code has a non-zero
      divisor where it is reached, provided the outlier threshold is not
      negative.
    - [Count], [Index] and [Identifier] (64-bit unsigned) are [N]; none of
      the modelled operations can reach 2^64.
    - Pointers to landmarks and local maps are the pointed-to records; a
      landmark is identified by its [identifier].
    - Assertions, log output (std::cerr) and the chronometer macros are not
      modelled; calls into the place database and the read from standard
      input are recorded in an event trace.
    - The place database (srrg_hbst), the linear solver and transform
      inverse (Eigen) and [v2t] (srrg_core) are interfaces: the classes
      [PlaceMatcher] and [Kernels]. *)

From Stdlib Require Import QArith Qabs Sorted Lqa.
From stdpp Require Import base gmap gmultiset list.

Abbreviation Identifier := N (only parsing).
Abbreviation Count := N (only parsing).
Abbreviation real := Q (only parsing).

(** [a < b] on [real]. *)
Definition real_ltb (a b : real) : bool := negb (Qle_bool b a).

(** [static_cast<real>(n)] for a [Count]. *)
Definition real_of_count (n : Count) : real := inject_Z (Z.of_N n).

(** [static_cast<real>(n) / d] for two counts, as a [double] has it: the
    rational quotient when [d] is not zero; not-a-number for 0/0 and
    infinity for a positive count over zero. *)
Inductive Quotient :=
| Finite (q : real)
| Infinity
| NotANumber.

Definition count_quotient (n d : Count) : Quotient :=
  if (d =? 0)%N
  then if (n =? 0)%N then NotANumber else Infinity
  else Finite (real_of_count n / real_of_count d)%Q.

(** [x < y] for a quotient [x] and a [real] [y]: false when [x] is infinity
    or not-a-number. *)
Definition quotient_ltb (x : Quotient) (y : real) : bool :=
  match x with
  | Finite q => real_ltb q y
  | Infinity => false
  | NotANumber => false
  end.

(** ** Dense vectors and matrices, row major *)

Abbreviation Vector := (list real) (only parsing).
Abbreviation Matrix := (list (list real)) (only parsing).

Definition vx (v : Vector) : real := nth 0 v 0%Q.
Definition vy (v : Vector) : real := nth 1 v 0%Q.
Definition vz (v : Vector) : real := nth 2 v 0%Q.

(** ** Map entities *)

Record Landmark := {
  identifier : Identifier;
  coordinates : Vector;
  areCoordinatesValidated : bool
}.

(** One appearance of a landmark: a binary descriptor and the landmark that
    owns it. *)
Record HBSTMatchable := {
  descriptor : N;
  object : Landmark
}.

Record LocalMap := {
  local_map_identifier : Identifier;
  appearances : list HBSTMatchable
}.

(** ** Linear algebra (Eigen) *)

Definition vadd (a b : Vector) : Vector := zip_with Qplus a b.
Definition vsub (a b : Vector) : Vector := zip_with Qminus a b.
Definition vneg (a : Vector) : Vector := map Qopp a.
(** [v * k] and [v / k], entry by entry. *)
Definition vscale (v : Vector) (k : real) : Vector := map (fun e => (e * k)%Q) v.
Definition vdiv (v : Vector) (k : real) : Vector := map (fun e => (e / k)%Q) v.
Definition dot (a b : Vector) : real := fold_right Qplus 0%Q (zip_with Qmult a b).

Definition mzero (rows cols : nat) : Matrix := replicate rows (replicate cols 0%Q).
Definition midentity (n : nat) : Matrix :=
  map (fun i => map (fun j => if (i =? j)%nat then 1%Q else 0%Q) (seq 0 n)) (seq 0 n).
Definition mget (i j : nat) (m : Matrix) : real := nth j (nth i m []) 0%Q.
Definition mset (i j : nat) (v : real) (m : Matrix) : Matrix :=
  <[i := <[j := v]> (nth i m [])]> m.
Definition mcolumn (j : nat) (m : Matrix) : Vector := map (fun row => nth j row 0%Q) m.
Definition mtranspose (m : Matrix) : Matrix :=
  map (fun j => mcolumn j m) (seq 0 (length (nth 0 m []))).
Definition mmul (a b : Matrix) : Matrix :=
  map (fun row => map (fun j => dot row (mcolumn j b)) (seq 0 (length (nth 0 b [])))) a.
Definition mvmul (a : Matrix) (v : Vector) : Vector := map (fun row => dot row v) a.
Definition madd (a b : Matrix) : Matrix := zip_with vadd a b.
Definition msub (a b : Matrix) : Matrix := zip_with vsub a b.
(** [m * k] (as in [_omega *= k]) and [k * m]. *)
Definition mscale (m : Matrix) (k : real) : Matrix := map (fun row => vscale row k) m.
Definition mscale_left (k : real) (m : Matrix) : Matrix :=
  map (map (fun e => (k * e)%Q)) m.

(** [m.block<rows,cols>(i,j)], read and assigned. *)
Definition block (i j rows cols : nat) (m : Matrix) : Matrix :=
  map (fun row => take cols (drop j row)) (take rows (drop i m)).
Definition set_row_segment (j : nat) (segment row : Vector) : Vector :=
  take j row ++ segment ++ drop (j + length segment) row.
Fixpoint set_block (i j : nat) (b m : Matrix) : Matrix :=
  match i, m with
  | _, [] => []
  | S i', row :: rest => row :: set_block i' j b rest
  | O, row :: rest =>
      match b with
      | [] => m
      | segment :: b' => set_row_segment j segment row :: set_block O j b' rest
      end
  end.

(** [m.diagonal().array() -= k]. *)
Definition diagonal_minus (k : real) (m : Matrix) : Matrix :=
  imap (fun i row => imap (fun j e => if (i =? j)%nat then (e - k)%Q else e) row) m.

(** Modelled from the spec: [skew], the skew-symmetric (cross-product) matrix
    of a point, an srrg_core helper. *)
Definition skew (p : Vector) : Matrix :=
  [ [ 0%Q;        (- vz p)%Q; vy p       ];
    [ vz p;       0%Q;        (- vx p)%Q ];
    [ (- vy p)%Q; vx p;       0%Q        ] ].

(** [TransformMatrix3D], a rigid transform: rotation block and translation. *)
Record TransformMatrix3D := {
  linear : Matrix;
  translation : Vector
}.

Definition set_linear (v : Matrix) (t : TransformMatrix3D) : TransformMatrix3D :=
  {| linear := v; translation := translation t |}.

(** [T * p] and [A * B]. *)
Definition transform_point (t : TransformMatrix3D) (p : Vector) : Vector :=
  vadd (mvmul (linear t) p) (translation t).
Definition transform_compose (a b : TransformMatrix3D) : TransformMatrix3D :=
  {| linear := mmul (linear a) (linear b);
     translation := vadd (mvmul (linear a) (translation b)) (translation a) |}.

(** The numerical kernels the aligner takes from Eigen and srrg_core: the
    inverse of a transform, the LDLT solve of [H x = rhs], and [v2t], the
    retraction of a 6-vector to a transform. *)
Class Kernels := {
  transform_inverse : TransformMatrix3D -> TransformMatrix3D;
  ldlt_solve : Matrix -> Vector -> Vector;
  v2t : Vector -> TransformMatrix3D
}.

(** ** Frames *)

Record FramePoint := {
  imageCoordinatesLeft : Vector;
  cameraCoordinatesLeft : Vector;
  (** [previous()->worldCoordinates()]; the link is asserted to be present *)
  previous_worldCoordinates : Vector;
  landmark : option Landmark;
  reprojectionCoordinatesLeft : Vector
}.

Definition setReprojectionCoordinatesLeft (v : Vector) (p : FramePoint) : FramePoint :=
  {| imageCoordinatesLeft := imageCoordinatesLeft p;
     cameraCoordinatesLeft := cameraCoordinatesLeft p;
     previous_worldCoordinates := previous_worldCoordinates p;
     landmark := landmark p;
     reprojectionCoordinatesLeft := v |}.

Record Camera := {
  cameraMatrix : Matrix;
  imageRows : Count;
  imageCols : Count;
  cameraToRobot : TransformMatrix3D;
  robotToCamera : TransformMatrix3D
}.

Record Frame := {
  activePoints : list FramePoint;
  cameraLeft : Camera
}.

Definition set_activePoints (v : list FramePoint) (f : Frame) : Frame :=
  {| activePoints := v; cameraLeft := cameraLeft f |}.

(** ** UVDAligner *)

Record AlignerParameters := {
  _maximum_number_of_iterations : Count;
  _error_delta_for_convergence : real;
  _damping : real;
  _maximum_error_kernel : real;
  _maximum_depth_near_meters : real;
  _maximum_depth_far_meters : real;
  _weight_framepoint : real
}.

Record UVDAligner := {
  parameters : AlignerParameters;
  _frame : Frame;
  _errors : list real;
  _inliers : list bool;
  _robot_to_world : TransformMatrix3D;
  _world_to_robot : TransformMatrix3D;
  _camera_to_world : TransformMatrix3D;
  _world_to_camera : TransformMatrix3D;
  _camera_matrix : Matrix;
  _number_of_rows_image : Count;
  _number_of_cols_image : Count;
  _H : Matrix;
  _b : Vector;
  _omega : Matrix;
  _jacobian : Matrix;
  _number_of_inliers : Count;
  _number_of_outliers : Count;
  _total_error : real;
  _information_matrix : Matrix;
  _has_system_converged : bool
}.

(** Assignments to one member; every other member keeps its value. *)
Definition set_frame (v : Frame) (a : UVDAligner) : UVDAligner :=
  {| parameters := parameters a; _frame := v; _errors := _errors a; _inliers := _inliers a;
     _robot_to_world := _robot_to_world a; _world_to_robot := _world_to_robot a;
     _camera_to_world := _camera_to_world a; _world_to_camera := _world_to_camera a;
     _camera_matrix := _camera_matrix a; _number_of_rows_image := _number_of_rows_image a;
     _number_of_cols_image := _number_of_cols_image a; _H := _H a; _b := _b a;
     _omega := _omega a; _jacobian := _jacobian a; _number_of_inliers := _number_of_inliers a;
     _number_of_outliers := _number_of_outliers a; _total_error := _total_error a;
     _information_matrix := _information_matrix a;
     _has_system_converged := _has_system_converged a |}.

Definition set_errors (v : list real) (a : UVDAligner) : UVDAligner :=
  {| parameters := parameters a; _frame := _frame a; _errors := v; _inliers := _inliers a;
     _robot_to_world := _robot_to_world a; _world_to_robot := _world_to_robot a;
     _camera_to_world := _camera_to_world a; _world_to_camera := _world_to_camera a;
     _camera_matrix := _camera_matrix a; _number_of_rows_image := _number_of_rows_image a;
     _number_of_cols_image := _number_of_cols_image a; _H := _H a; _b := _b a;
     _omega := _omega a; _jacobian := _jacobian a; _number_of_inliers := _number_of_inliers a;
     _number_of_outliers := _number_of_outliers a; _total_error := _total_error a;
     _information_matrix := _information_matrix a;
     _has_system_converged := _has_system_converged a |}.

Definition set_inliers (v : list bool) (a : UVDAligner) : UVDAligner :=
  {| parameters := parameters a; _frame := _frame a; _errors := _errors a; _inliers := v;
     _robot_to_world := _robot_to_world a; _world_to_robot := _world_to_robot a;
     _camera_to_world := _camera_to_world a; _world_to_camera := _world_to_camera a;
     _camera_matrix := _camera_matrix a; _number_of_rows_image := _number_of_rows_image a;
     _number_of_cols_image := _number_of_cols_image a; _H := _H a; _b := _b a;
     _omega := _omega a; _jacobian := _jacobian a; _number_of_inliers := _number_of_inliers a;
     _number_of_outliers := _number_of_outliers a; _total_error := _total_error a;
     _information_matrix := _information_matrix a;
     _has_system_converged := _has_system_converged a |}.

Definition set_robot_to_world (v : TransformMatrix3D) (a : UVDAligner) : UVDAligner :=
  {| parameters := parameters a; _frame := _frame a; _errors := _errors a;
     _inliers := _inliers a; _robot_to_world := v; _world_to_robot := _world_to_robot a;
     _camera_to_world := _camera_to_world a; _world_to_camera := _world_to_camera a;
     _camera_matrix := _camera_matrix a; _number_of_rows_image := _number_of_rows_image a;
     _number_of_cols_image := _number_of_cols_image a; _H := _H a; _b := _b a;
     _omega := _omega a; _jacobian := _jacobian a; _number_of_inliers := _number_of_inliers a;
     _number_of_outliers := _number_of_outliers a; _total_error := _total_error a;
     _information_matrix := _information_matrix a;
     _has_system_converged := _has_system_converged a |}.

Definition set_world_to_robot (v : TransformMatrix3D) (a : UVDAligner) : UVDAligner :=
  {| parameters := parameters a; _frame := _frame a; _errors := _errors a;
     _inliers := _inliers a; _robot_to_world := _robot_to_world a; _world_to_robot := v;
     _camera_to_world := _camera_to_world a; _world_to_camera := _world_to_camera a;
     _camera_matrix := _camera_matrix a; _number_of_rows_image := _number_of_rows_image a;
     _number_of_cols_image := _number_of_cols_image a; _H := _H a; _b := _b a;
     _omega := _omega a; _jacobian := _jacobian a; _number_of_inliers := _number_of_inliers a;
     _number_of_outliers := _number_of_outliers a; _total_error := _total_error a;
     _information_matrix := _information_matrix a;
     _has_system_converged := _has_system_converged a |}.

Definition set_camera_to_world (v : TransformMatrix3D) (a : UVDAligner) : UVDAligner :=
  {| parameters := parameters a; _frame := _frame a; _errors := _errors a;
     _inliers := _inliers a; _robot_to_world := _robot_to_world a;
     _world_to_robot := _world_to_robot a; _camera_to_world := v;
     _world_to_camera := _world_to_camera a; _camera_matrix := _camera_matrix a;
     _number_of_rows_image := _number_of_rows_image a;
     _number_of_cols_image := _number_of_cols_image a; _H := _H a; _b := _b a;
     _omega := _omega a; _jacobian := _jacobian a; _number_of_inliers := _number_of_inliers a;
     _number_of_outliers := _number_of_outliers a; _total_error := _total_error a;
     _information_matrix := _information_matrix a;
     _has_system_converged := _has_system_converged a |}.

Definition set_world_to_camera (v : TransformMatrix3D) (a : UVDAligner) : UVDAligner :=
  {| parameters := parameters a; _frame := _frame a; _errors := _errors a;
     _inliers := _inliers a; _robot_to_world := _robot_to_world a;
     _world_to_robot := _world_to_robot a; _camera_to_world := _camera_to_world a;
     _world_to_camera := v; _camera_matrix := _camera_matrix a;
     _number_of_rows_image := _number_of_rows_image a;
     _number_of_cols_image := _number_of_cols_image a; _H := _H a; _b := _b a;
     _omega := _omega a; _jacobian := _jacobian a; _number_of_inliers := _number_of_inliers a;
     _number_of_outliers := _number_of_outliers a; _total_error := _total_error a;
     _information_matrix := _information_matrix a;
     _has_system_converged := _has_system_converged a |}.

Definition set_H (v : Matrix) (a : UVDAligner) : UVDAligner :=
  {| parameters := parameters a; _frame := _frame a; _errors := _errors a;
     _inliers := _inliers a; _robot_to_world := _robot_to_world a;
     _world_to_robot := _world_to_robot a; _camera_to_world := _camera_to_world a;
     _world_to_camera := _world_to_camera a; _camera_matrix := _camera_matrix a;
     _number_of_rows_image := _number_of_rows_image a;
     _number_of_cols_image := _number_of_cols_image a; _H := v; _b := _b a; _omega := _omega a;
     _jacobian := _jacobian a; _number_of_inliers := _number_of_inliers a;
     _number_of_outliers := _number_of_outliers a; _total_error := _total_error a;
     _information_matrix := _information_matrix a;
     _has_system_converged := _has_system_converged a |}.

Definition set_b (v : Vector) (a : UVDAligner) : UVDAligner :=
  {| parameters := parameters a; _frame := _frame a; _errors := _errors a;
     _inliers := _inliers a; _robot_to_world := _robot_to_world a;
     _world_to_robot := _world_to_robot a; _camera_to_world := _camera_to_world a;
     _world_to_camera := _world_to_camera a; _camera_matrix := _camera_matrix a;
     _number_of_rows_image := _number_of_rows_image a;
     _number_of_cols_image := _number_of_cols_image a; _H := _H a; _b := v; _omega := _omega a;
     _jacobian := _jacobian a; _number_of_inliers := _number_of_inliers a;
     _number_of_outliers := _number_of_outliers a; _total_error := _total_error a;
     _information_matrix := _information_matrix a;
     _has_system_converged := _has_system_converged a |}.

Definition set_omega (v : Matrix) (a : UVDAligner) : UVDAligner :=
  {| parameters := parameters a; _frame := _frame a; _errors := _errors a;
     _inliers := _inliers a; _robot_to_world := _robot_to_world a;
     _world_to_robot := _world_to_robot a; _camera_to_world := _camera_to_world a;
     _world_to_camera := _world_to_camera a; _camera_matrix := _camera_matrix a;
     _number_of_rows_image := _number_of_rows_image a;
     _number_of_cols_image := _number_of_cols_image a; _H := _H a; _b := _b a; _omega := v;
     _jacobian := _jacobian a; _number_of_inliers := _number_of_inliers a;
     _number_of_outliers := _number_of_outliers a; _total_error := _total_error a;
     _information_matrix := _information_matrix a;
     _has_system_converged := _has_system_converged a |}.

Definition set_jacobian (v : Matrix) (a : UVDAligner) : UVDAligner :=
  {| parameters := parameters a; _frame := _frame a; _errors := _errors a;
     _inliers := _inliers a; _robot_to_world := _robot_to_world a;
     _world_to_robot := _world_to_robot a; _camera_to_world := _camera_to_world a;
     _world_to_camera := _world_to_camera a; _camera_matrix := _camera_matrix a;
     _number_of_rows_image := _number_of_rows_image a;
     _number_of_cols_image := _number_of_cols_image a; _H := _H a; _b := _b a;
     _omega := _omega a; _jacobian := v; _number_of_inliers := _number_of_inliers a;
     _number_of_outliers := _number_of_outliers a; _total_error := _total_error a;
     _information_matrix := _information_matrix a;
     _has_system_converged := _has_system_converged a |}.

Definition set_number_of_inliers (v : Count) (a : UVDAligner) : UVDAligner :=
  {| parameters := parameters a; _frame := _frame a; _errors := _errors a;
     _inliers := _inliers a; _robot_to_world := _robot_to_world a;
     _world_to_robot := _world_to_robot a; _camera_to_world := _camera_to_world a;
     _world_to_camera := _world_to_camera a; _camera_matrix := _camera_matrix a;
     _number_of_rows_image := _number_of_rows_image a;
     _number_of_cols_image := _number_of_cols_image a; _H := _H a; _b := _b a;
     _omega := _omega a; _jacobian := _jacobian a; _number_of_inliers := v;
     _number_of_outliers := _number_of_outliers a; _total_error := _total_error a;
     _information_matrix := _information_matrix a;
     _has_system_converged := _has_system_converged a |}.

Definition set_number_of_outliers (v : Count) (a : UVDAligner) : UVDAligner :=
  {| parameters := parameters a; _frame := _frame a; _errors := _errors a;
     _inliers := _inliers a; _robot_to_world := _robot_to_world a;
     _world_to_robot := _world_to_robot a; _camera_to_world := _camera_to_world a;
     _world_to_camera := _world_to_camera a; _camera_matrix := _camera_matrix a;
     _number_of_rows_image := _number_of_rows_image a;
     _number_of_cols_image := _number_of_cols_image a; _H := _H a; _b := _b a;
     _omega := _omega a; _jacobian := _jacobian a; _number_of_inliers := _number_of_inliers a;
     _number_of_outliers := v; _total_error := _total_error a;
     _information_matrix := _information_matrix a;
     _has_system_converged := _has_system_converged a |}.

Definition set_total_error (v : real) (a : UVDAligner) : UVDAligner :=
  {| parameters := parameters a; _frame := _frame a; _errors := _errors a;
     _inliers := _inliers a; _robot_to_world := _robot_to_world a;
     _world_to_robot := _world_to_robot a; _camera_to_world := _camera_to_world a;
     _world_to_camera := _world_to_camera a; _camera_matrix := _camera_matrix a;
     _number_of_rows_image := _number_of_rows_image a;
     _number_of_cols_image := _number_of_cols_image a; _H := _H a; _b := _b a;
     _omega := _omega a; _jacobian := _jacobian a; _number_of_inliers := _number_of_inliers a;
     _number_of_outliers := _number_of_outliers a; _total_error := v;
     _information_matrix := _information_matrix a;
     _has_system_converged := _has_system_converged a |}.

Definition set_information_matrix (v : Matrix) (a : UVDAligner) : UVDAligner :=
  {| parameters := parameters a; _frame := _frame a; _errors := _errors a;
     _inliers := _inliers a; _robot_to_world := _robot_to_world a;
     _world_to_robot := _world_to_robot a; _camera_to_world := _camera_to_world a;
     _world_to_camera := _world_to_camera a; _camera_matrix := _camera_matrix a;
     _number_of_rows_image := _number_of_rows_image a;
     _number_of_cols_image := _number_of_cols_image a; _H := _H a; _b := _b a;
     _omega := _omega a; _jacobian := _jacobian a; _number_of_inliers := _number_of_inliers a;
     _number_of_outliers := _number_of_outliers a; _total_error := _total_error a;
     _information_matrix := v; _has_system_converged := _has_system_converged a |}.

Definition set_has_system_converged (v : bool) (a : UVDAligner) : UVDAligner :=
  {| parameters := parameters a; _frame := _frame a; _errors := _errors a;
     _inliers := _inliers a; _robot_to_world := _robot_to_world a;
     _world_to_robot := _world_to_robot a; _camera_to_world := _camera_to_world a;
     _world_to_camera := _world_to_camera a; _camera_matrix := _camera_matrix a;
     _number_of_rows_image := _number_of_rows_image a;
     _number_of_cols_image := _number_of_cols_image a; _H := _H a; _b := _b a;
     _omega := _omega a; _jacobian := _jacobian a; _number_of_inliers := _number_of_inliers a;
     _number_of_outliers := _number_of_outliers a; _total_error := _total_error a;
     _information_matrix := _information_matrix a; _has_system_converged := v |}.

(** [UVDAligner::initialize]; [resize] keeps the entries a buffer already
    has and fills with the value-initialised element. *)
Definition resize {A} (n : nat) (fill : A) (l : list A) : list A :=
  take n l ++ replicate (n - length l) fill.

Definition initialize `{Kernels} (frame_ : Frame) (robot_to_world_ : TransformMatrix3D)
    (a : UVDAligner) : UVDAligner :=
  let camera_to_world :=
    transform_compose robot_to_world_ (cameraToRobot (cameraLeft frame_)) in
  {| parameters := parameters a;
     _frame := frame_;
     _errors := resize (length (activePoints frame_)) 0%Q (_errors a);
     _inliers := resize (length (activePoints frame_)) false (_inliers a);
     _robot_to_world := robot_to_world_;
     _world_to_robot := transform_inverse robot_to_world_;
     _camera_to_world := camera_to_world;
     _world_to_camera := transform_inverse camera_to_world;
     _camera_matrix := cameraMatrix (cameraLeft frame_);
     _number_of_rows_image := imageRows (cameraLeft frame_);
     _number_of_cols_image := imageCols (cameraLeft frame_);
     _H := _H a; _b := _b a; _omega := _omega a; _jacobian := _jacobian a;
     _number_of_inliers := _number_of_inliers a;
     _number_of_outliers := _number_of_outliers a;
     _total_error := _total_error a;
     _information_matrix := _information_matrix a;
     _has_system_converged := _has_system_converged a |}.

(** *** The locals of one pass of the loop of [linearize] *)

(** Line 51: the landmark estimate is used when there is one and it is
    validated. *)
Definition prefers_landmark (frame_point : FramePoint) : bool :=
  match landmark frame_point with
  | Some l => areCoordinatesValidated l
  | None => false
  end.

(** Lines 50-56. *)
Definition predicted_point_in_camera (a : UVDAligner) (frame_point : FramePoint) : Vector :=
  match landmark frame_point with
  | Some l =>
      if areCoordinatesValidated l
      then transform_point (_world_to_camera a) (coordinates l)
      else transform_point (_world_to_camera a) (previous_worldCoordinates frame_point)
  | None => transform_point (_world_to_camera a) (previous_worldCoordinates frame_point)
  end.

(** Line 57. *)
Definition depth_meters (a : UVDAligner) (frame_point : FramePoint) : real :=
  vz (predicted_point_in_camera a frame_point).

(** Line 58: the depth test that skips the point. *)
Definition depth_rejected (a : UVDAligner) (frame_point : FramePoint) : bool :=
  Qle_bool (depth_meters a frame_point) 0
  || real_ltb (_maximum_depth_far_meters (parameters a)) (depth_meters a frame_point).

(** Line 63. *)
Definition predicted_uvd_in_camera (a : UVDAligner) (frame_point : FramePoint) : Vector :=
  mvmul (_camera_matrix a) (predicted_point_in_camera a frame_point).

(** Lines 66-68. *)
Definition predicted_point_in_image (a : UVDAligner) (frame_point : FramePoint) : Vector :=
  <[2%nat := depth_meters a frame_point]>
    (vdiv (predicted_uvd_in_camera a frame_point) (depth_meters a frame_point)).

(** Lines 71-72: the image-bounds test that skips the point. *)
Definition outside_image (a : UVDAligner) (frame_point : FramePoint) : bool :=
  real_ltb (vx (predicted_point_in_image a frame_point)) 0
  || real_ltb (real_of_count (_number_of_cols_image a))
       (vx (predicted_point_in_image a frame_point))
  || real_ltb (vy (predicted_point_in_image a frame_point)) 0
  || real_ltb (real_of_count (_number_of_rows_image a))
       (vy (predicted_point_in_image a frame_point)).

(** Lines 86-88. *)
Definition error (a : UVDAligner) (frame_point : FramePoint) : Vector :=
  [ (vx (predicted_point_in_image a frame_point) - vx (imageCoordinatesLeft frame_point))%Q;
    (vy (predicted_point_in_image a frame_point) - vy (imageCoordinatesLeft frame_point))%Q;
    (vz (predicted_point_in_image a frame_point) - vz (cameraCoordinatesLeft frame_point))%Q ].

(** Line 91. *)
Definition chi (a : UVDAligner) (frame_point : FramePoint) : real :=
  dot (error a frame_point) (error a frame_point).

(** Lines 114-123. *)
Definition jacobian_transform (a : UVDAligner) (frame_point : FramePoint) : Matrix :=
  let jacobian_transform := mzero 3 6 in
  let jacobian_transform :=
    if real_ltb (depth_meters a frame_point) (_maximum_depth_near_meters (parameters a))
    then set_block 0 0 (midentity 3) jacobian_transform
    else jacobian_transform in
  set_block 0 3 (mscale_left (-2) (skew (predicted_point_in_camera a frame_point)))
    jacobian_transform.

(** Lines 126-130. *)
Definition jacobian_projection (a : UVDAligner) (frame_point : FramePoint) : Matrix :=
  let inverse_predicted_d := (1 / depth_meters a frame_point)%Q in
  let inverse_predicted_d_squared := (inverse_predicted_d * inverse_predicted_d)%Q in
  [ [ inverse_predicted_d; 0%Q;
      (- vx (predicted_uvd_in_camera a frame_point) * inverse_predicted_d_squared)%Q ];
    [ 0%Q; inverse_predicted_d;
      (- vy (predicted_uvd_in_camera a frame_point) * inverse_predicted_d_squared)%Q ];
    [ 0%Q; 0%Q; 1%Q ] ].

(** Lines 138-142: the depth-dependent factor of the weight. *)
Definition depth_weight (a : UVDAligner) (frame_point : FramePoint) : real :=
  if real_ltb (depth_meters a frame_point) (_maximum_depth_near_meters (parameters a))
  then ((_maximum_depth_near_meters (parameters a) - depth_meters a frame_point)
        / _maximum_depth_near_meters (parameters a))%Q
  else ((_maximum_depth_far_meters (parameters a) - depth_meters a frame_point)
        / _maximum_depth_far_meters (parameters a))%Q.

(** Lines 36-39: the per-point reset of the buffers and of the weight. *)
Definition reset_point (index_point : nat) (a : UVDAligner) : UVDAligner :=
  let a := set_errors (<[index_point := (-1)%Q]> (_errors a)) a in
  let a := set_inliers (<[index_point := false]> (_inliers a)) a in
  let a := set_omega (midentity 3) a in
  set_omega (mset 2 2 (mget 2 2 (_omega a) * 10)%Q (_omega a)) a.

(** Lines 110-146, reached by an inlier and by an outlier that is kept. *)
Definition accumulate (index_point : nat) (frame_point : FramePoint) (a : UVDAligner)
    : UVDAligner :=
  let a := set_total_error (_total_error a + nth index_point (_errors a) 0)%Q a in
  let a :=
    set_jacobian
      (mmul (mmul (jacobian_projection a frame_point) (_camera_matrix a))
         (jacobian_transform a frame_point)) a in
  let jacobian_transposed := mtranspose (_jacobian a) in
  let a := set_omega (mscale (_omega a) (depth_weight a frame_point)) a in
  let a := set_H (madd (_H a) (mmul (mmul jacobian_transposed (_omega a)) (_jacobian a))) a in
  set_b (vadd (_b a) (mvmul (mmul jacobian_transposed (_omega a)) (error a frame_point))) a.

(** The body of the loop of [linearize] for the point at [index_point]. *)
Definition linearize_point (ignore_outliers_ : bool) (index_point : nat) (a : UVDAligner)
    : UVDAligner :=
  match activePoints (_frame a) !! index_point with
  | None => a
  | Some frame_point =>
      let a := reset_point index_point a in
      let a :=
        if prefers_landmark frame_point then a
        else set_omega (mscale (_omega a) (_weight_framepoint (parameters a))) a in
      if depth_rejected a frame_point then a
      else if outside_image a frame_point then a
      else
        let a :=
          set_frame
            (set_activePoints
               (<[index_point :=
                    setReprojectionCoordinatesLeft (predicted_point_in_image a frame_point)
                      frame_point]> (activePoints (_frame a)))
               (_frame a)) a in
        let a := set_errors (<[index_point := chi a frame_point]> (_errors a)) a in
        if real_ltb (_maximum_error_kernel (parameters a)) (chi a frame_point)
        then
          let a := set_number_of_outliers (_number_of_outliers a + 1)%N a in
          if ignore_outliers_ then a
          else
            let a :=
              set_omega
                (mscale (_omega a)
                   (_maximum_error_kernel (parameters a) / chi a frame_point)%Q) a in
            accumulate index_point frame_point a
        else
          let a := set_inliers (<[index_point := true]> (_inliers a)) a in
          let a := set_number_of_inliers (_number_of_inliers a + 1)%N a in
          accumulate index_point frame_point a
  end.

(** [UVDAligner::linearize]. *)
Definition linearize (ignore_outliers_ : bool) (a : UVDAligner) : UVDAligner :=
  let a := set_H (mzero 6 6) a in
  let a := set_b (replicate 6 0%Q) a in
  let a := set_number_of_inliers 0%N a in
  let a := set_number_of_outliers 0%N a in
  let a := set_total_error 0%Q a in
  fold_left (fun a index_point => linearize_point ignore_outliers_ index_point a)
    (seq 0 (length (activePoints (_frame a)))) a.

(** [UVDAligner::oneRound]. *)
Definition oneRound `{Kernels} (ignore_outliers_ : bool) (a : UVDAligner) : UVDAligner :=
  let a := linearize ignore_outliers_ a in
  let a := set_H (madd (_H a) (mscale_left (_damping (parameters a)) (midentity 6))) a in
  let dx := ldlt_solve (_H a) (vneg (_b a)) in
  let a := set_world_to_camera (transform_compose (v2t dx) (_world_to_camera a)) a in
  let rotation := linear (_world_to_camera a) in
  let rotation_squared := mmul (mtranspose rotation) rotation in
  let rotation_squared := diagonal_minus 1 rotation_squared in
  set_world_to_camera
    (set_linear
       (msub (linear (_world_to_camera a))
          (mmul (mscale_left (1 # 2) rotation) rotation_squared))
       (_world_to_camera a)) a.

(** Lines 157-167: what [oneRound] does once [linearize] has run. *)
Definition solve_and_correct `{Kernels} (a : UVDAligner) : UVDAligner :=
  let a := set_H (madd (_H a) (mscale_left (_damping (parameters a)) (midentity 6))) a in
  let dx := ldlt_solve (_H a) (vneg (_b a)) in
  let a := set_world_to_camera (transform_compose (v2t dx) (_world_to_camera a)) a in
  let rotation := linear (_world_to_camera a) in
  let rotation_squared := mmul (mtranspose rotation) rotation in
  let rotation_squared := diagonal_minus 1 rotation_squared in
  set_world_to_camera
    (set_linear
       (msub (linear (_world_to_camera a))
          (mmul (mscale_left (1 # 2) rotation) rotation_squared))
       (_world_to_camera a)) a.

(** The loop of [converge] (lines 177-205) with [remaining] iterations left;
    besides the aligner it yields the [ignore_outliers_] argument of every
    [oneRound] it called, in order. *)
Fixpoint converge_loop `{Kernels} (remaining : nat) (iteration : Count)
    (total_error_previous : real) (a : UVDAligner) (rounds : list bool)
    : UVDAligner * list bool :=
  match remaining with
  | O => (a, rounds)
  | S remaining' =>
      let a := oneRound false a in
      let rounds := rounds ++ [false] in
      if real_ltb (Qabs (total_error_previous - _total_error a))
           (_error_delta_for_convergence (parameters a))
      then
        let a := oneRound true a in
        let a := oneRound true a in
        let a := oneRound true a in
        let rounds := rounds ++ [true; true; true] in
        let a := set_information_matrix (_H a) a in
        let a := set_has_system_converged true a in
        (a, rounds)
      else
        let total_error_previous := _total_error a in
        let a :=
          if (iteration =? _maximum_number_of_iterations (parameters a) - 1)%N
          then set_has_system_converged false a
          else a in
        converge_loop remaining' (iteration + 1)%N total_error_previous a rounds
  end.

(** [UVDAligner::converge]. *)
Definition converge `{Kernels} (a : UVDAligner) : UVDAligner * list bool :=
  let '(a, rounds) :=
    converge_loop (N.to_nat (_maximum_number_of_iterations (parameters a))) 0%N 0%Q a [] in
  let a := set_camera_to_world (transform_inverse (_world_to_camera a)) a in
  let a :=
    set_robot_to_world
      (transform_compose (_camera_to_world a) (robotToCamera (cameraLeft (_frame a)))) a in
  let a := set_world_to_robot (transform_inverse (_robot_to_world a)) a in
  (a, rounds).

(** ** Relocalizer data *)

Module Match.
Record t := {
  object_query : Landmark;
  object_reference : Landmark;
  distance : real
}.
End Match.

Module Candidate.
Record t := {
  query : Landmark;
  reference : Landmark;
  distance : real
}.
End Candidate.

Module Correspondence.
Record t := {
  query : Landmark;
  reference : Landmark;
  matching_count : Count;
  matching_ratio : real
}.
End Correspondence.

Module Closure.
Record t := {
  local_map_query : LocalMap;
  local_map_reference : LocalMap;
  absolute_number_of_matches : Count;
  relative_number_of_matches : Quotient;
  correspondences : list Correspondence.t
}.
End Closure.

(** [Closure::CandidateMap], a [std::map] from the query landmark identifier
    to its candidates.  The map is iterated in ascending key order and that
    order decides which landmark claims a reference first, so it is kept as a
    key-sorted association list. *)
Abbreviation CandidateMap := (list (Identifier * list Candidate.t)) (only parsing).

Record RelocalizerParameters := {
  preliminary_minimum_interspace_queries : Count;
  preliminary_minimum_matching_ratio : real;
  minimum_number_of_matched_landmarks : Count;
  minimum_matches_per_correspondence : Count;
  maximum_descriptor_distance : real
}.

(** Modelled from the spec: the place database (the srrg_hbst tree behind
    [_place_database]) is an external collaborator.  It holds the descriptor
    sets added so far, one per local map, in order; its search is opaque and
    is the interface [hbst_match]: the matches of a query descriptor set
    against one stored descriptor set, within a maximum distance. *)
Class PlaceMatcher := {
  hbst_match : list HBSTMatchable -> list HBSTMatchable -> real -> list Match.t
}.

Abbreviation HBSTTree := (list (list HBSTMatchable)) (only parsing).

(** Modelled from the spec: [size()], the number of descriptor sets added. *)
Definition tree_size (tree : HBSTTree) : Count := N.of_nat (length tree).

(** Modelled from the spec: [add(descriptors)]. *)
Definition tree_add (tree : HBSTTree) (matchables : list HBSTMatchable) : HBSTTree :=
  tree ++ [matchables].

(** Modelled from the spec: [matchAndAdd(descriptors, matches, distance)]
    returns one match vector per descriptor set stored before the call,
    keyed by its index, and stores the query set. *)
Definition tree_matchAndAdd `{PlaceMatcher} (tree : HBSTTree)
    (matchables : list HBSTMatchable) (maximum_distance : real)
    : list (list Match.t) * HBSTTree :=
  (map (fun reference => hbst_match reference matchables maximum_distance) tree,
   tree ++ [matchables]).

Record Relocalizer := {
  _parameters : RelocalizerParameters;
  _added_local_maps : list LocalMap;
  _place_database : HBSTTree;
  _closures : list Closure.t;
  _mask_id_references_for_correspondences : gset N
}.

Definition with_added_local_maps (v : list LocalMap) (r : Relocalizer) : Relocalizer :=
  {| _parameters := _parameters r; _added_local_maps := v;
     _place_database := _place_database r; _closures := _closures r;
     _mask_id_references_for_correspondences := _mask_id_references_for_correspondences r |}.

Definition with_place_database (v : HBSTTree) (r : Relocalizer) : Relocalizer :=
  {| _parameters := _parameters r; _added_local_maps := _added_local_maps r;
     _place_database := v; _closures := _closures r;
     _mask_id_references_for_correspondences := _mask_id_references_for_correspondences r |}.

Definition with_closures (v : list Closure.t) (r : Relocalizer) : Relocalizer :=
  {| _parameters := _parameters r; _added_local_maps := _added_local_maps r;
     _place_database := _place_database r; _closures := v;
     _mask_id_references_for_correspondences := _mask_id_references_for_correspondences r |}.

Definition with_mask (v : gset N) (r : Relocalizer) : Relocalizer :=
  {| _parameters := _parameters r; _added_local_maps := _added_local_maps r;
     _place_database := _place_database r; _closures := _closures r;
     _mask_id_references_for_correspondences := v |}.

(** What a call can observably do besides changing the relocalizer. *)
Inductive Event :=
| DatabaseAdd (matchables : list HBSTMatchable)
| DatabaseMatchAndAdd (matchables : list HBSTMatchable)
| StdinGetChar.

(** How a call ends. *)
Inductive Outcome (A : Type) :=
| Returned (a : A)
| ThrownOutOfRange      (* [std::map::at] on a missing key *)
| UndefinedBehaviour.   (* [operator[]] beyond the end of a vector *)
Arguments Returned {A} a.
Arguments ThrownOutOfRange {A}.
Arguments UndefinedBehaviour {A}.

(** The constructor: [_added_local_maps.clear(); clear();]. *)
Definition Relocalizer_new (parameters_ : RelocalizerParameters) : Relocalizer :=
  {| _parameters := parameters_; _added_local_maps := [];
     _place_database := []; _closures := [];
     _mask_id_references_for_correspondences := ∅ |}.

(** [Relocalizer::clear]. *)
Definition Relocalizer_clear (r : Relocalizer) : Relocalizer :=
  with_mask ∅ (with_closures [] r).

(** [Relocalizer::configure] (lines 11-20), on the members the model has:
    the local maps added so far are forgotten and [clear] is called; the
    place database is not touched.  The aligner unit the function allocates
    is used by [registerClosures] only. *)
Definition Relocalizer_configure (r : Relocalizer) : Relocalizer :=
  Relocalizer_clear (with_added_local_maps [] r).

(** The counting loop of [_getCorrespondenceNN] (lines 183-196): [counts] is
    the multiset of reference identifiers seen outside the mask, [match_best]
    and [count_best] the best candidate and count so far. *)
Fixpoint count_candidates (mask : gset N) (matches_ : list Candidate.t)
    (counts : gmultiset N) (match_best : option Candidate.t) (count_best : Count)
    : option Candidate.t * Count :=
  match matches_ with
  | [] => (match_best, count_best)
  | match_ :: rest =>
      let id := identifier (Candidate.reference match_) in
      if bool_decide (id ∈ mask)
      then count_candidates mask rest counts match_best count_best
      else
        let counts := {[+ id +]} ⊎ counts in
        let count_current := N.of_nat (multiplicity id counts) in
        if (count_best <? count_current)%N
        then count_candidates mask rest counts (Some match_) count_current
        else count_candidates mask rest counts match_best count_best
  end.

(** [Relocalizer::_getCorrespondenceNN]. *)
Definition _getCorrespondenceNN (matches_ : list Candidate.t) (r : Relocalizer)
    : option Correspondence.t * Relocalizer :=
  let '(match_best, count_best) :=
    count_candidates (_mask_id_references_for_correspondences r) matches_ ∅ None 0%N in
  match match_best with
  | Some best =>
      if (minimum_matches_per_correspondence (_parameters r) <? count_best)%N
      then
        (Some {| Correspondence.query := Candidate.query best;
                 Correspondence.reference := Candidate.reference best;
                 Correspondence.matching_count := count_best;
                 Correspondence.matching_ratio :=
                   (real_of_count count_best
                    / real_of_count (N.of_nat (length matches_)))%Q |},
         with_mask ({[ identifier (Candidate.reference best) ]}
                    ∪ _mask_id_references_for_correspondences r) r)
      else (None, r)
  | None => (None, r)
  end.

(** Lines 82-91: append to the candidates of the key, or start a new entry
    at the key's place in the order. *)
Fixpoint candidate_map_add (key : Identifier) (candidate : Candidate.t)
    (m : CandidateMap) : CandidateMap :=
  match m with
  | [] => [(key, [candidate])]
  | (k, candidates) :: rest =>
      if (key =? k)%N then (k, candidates ++ [candidate]) :: rest
      else if (key <? k)%N then (key, [candidate]) :: m
      else (k, candidates) :: candidate_map_add key candidate rest
  end.

(** [std::map::at] on a candidate map: the candidates stored under the key,
    if any. *)
Fixpoint candidate_map_at (key : Identifier) (m : CandidateMap)
    : option (list Candidate.t) :=
  match m with
  | [] => None
  | (k, candidates) :: rest =>
      if (key =? k)%N then Some candidates else candidate_map_at key rest
  end.

(** Lines 72-92: organise the matches per query landmark. *)
Definition group_matches (multiple_matches_mixed : list Match.t) : CandidateMap :=
  fold_left
    (fun m match_ =>
       candidate_map_add (identifier (Match.object_query match_))
         {| Candidate.query := Match.object_query match_;
            Candidate.reference := Match.object_reference match_;
            Candidate.distance := Match.distance match_ |} m)
    multiple_matches_mixed [].

(** Lines 104-111: one resolution per query landmark, in key order. *)
Fixpoint resolve_correspondences (multiple_matches_per_landmark : CandidateMap)
    (correspondences : list Correspondence.t) (r : Relocalizer)
    : list Correspondence.t * Relocalizer :=
  match multiple_matches_per_landmark with
  | [] => (correspondences, r)
  | (_, multiple_matches) :: rest =>
      let '(correspondence, r) := _getCorrespondenceNN multiple_matches r in
      match correspondence with
      | Some c => resolve_correspondences rest (correspondences ++ [c]) r
      | None => resolve_correspondences rest correspondences r
      end
  end.

(** The loop of lines 58-120 over the reference indices still to visit.  The
    reference local map [_added_local_maps[index]] is first read for the log
    line of lines 68-69, once the ratio test has passed, and read again for
    the closure.  For a query without descriptors the ratio of line 62 is
    not finite, the test of line 65 is false and the reference is not
    skipped. *)
Fixpoint evaluate_references (local_map_query_ : LocalMap)
    (number_of_query_matchables : Count)
    (matches_per_reference_image : list (list Match.t))
    (indices : list nat) (r : Relocalizer) (trace : list Event)
    : Outcome (Relocalizer * list Event) :=
  match indices with
  | [] => Returned (r, trace)
  | index_reference_local_map :: rest =>
      match matches_per_reference_image !! index_reference_local_map with
      | None => ThrownOutOfRange
      | Some multiple_matches_mixed =>
          let relative_number_of_matches :=
            count_quotient (N.of_nat (length multiple_matches_mixed))
              number_of_query_matchables in
          if quotient_ltb relative_number_of_matches
               (preliminary_minimum_matching_ratio (_parameters r))
          then evaluate_references local_map_query_ number_of_query_matchables
                 matches_per_reference_image rest r trace
          else
          match _added_local_maps r !! index_reference_local_map with
          | None => UndefinedBehaviour
          | Some local_map_reference =>
              let multiple_matches_per_landmark := group_matches multiple_matches_mixed in
              if (N.of_nat (length multiple_matches_per_landmark)
                  <? minimum_number_of_matched_landmarks (_parameters r))%N
              then evaluate_references local_map_query_ number_of_query_matchables
                     matches_per_reference_image rest r trace
              else
                let r := with_mask ∅ r in
                let '(correspondences, r) :=
                  resolve_correspondences multiple_matches_per_landmark [] r in
                let closure :=
                  {| Closure.local_map_query := local_map_query_;
                     Closure.local_map_reference := local_map_reference;
                     Closure.absolute_number_of_matches :=
                       N.of_nat (length multiple_matches_per_landmark);
                     Closure.relative_number_of_matches := relative_number_of_matches;
                     Closure.correspondences := correspondences |} in
                evaluate_references local_map_query_ number_of_query_matchables
                  matches_per_reference_image rest
                  (with_closures (_closures r ++ [closure]) r)
                  (trace ++ [StdinGetChar])
          end
      end
  end.

(** [Relocalizer::detectClosures] (built without SRRG_MERGE_DESCRIPTORS).
    In the query branch the place database already holds at least
    [preliminary_minimum_interspace_queries] sets, so the unsigned
    subtraction of line 57 does not wrap. *)
Definition detectClosures `{PlaceMatcher} (local_map_query_ : option LocalMap)
    (r : Relocalizer) : Outcome (Relocalizer * list Event) :=
  match local_map_query_ with
  | None => Returned (r, [])
  | Some local_map_query =>
      let r := with_added_local_maps (_added_local_maps r ++ [local_map_query]) r in
      if (tree_size (_place_database r)
          <? preliminary_minimum_interspace_queries (_parameters r))%N
      then
        Returned (with_place_database
                    (tree_add (_place_database r) (appearances local_map_query)) r,
                  [DatabaseAdd (appearances local_map_query)])
      else
        let '(matches_per_reference_image, tree) :=
          tree_matchAndAdd (_place_database r) (appearances local_map_query)
            (maximum_descriptor_distance (_parameters r)) in
        let r := with_place_database tree r in
        let number_of_query_matchables :=
          N.of_nat (length (appearances local_map_query)) in
        let maximum_index_reference :=
          (tree_size (_place_database r)
           - preliminary_minimum_interspace_queries (_parameters r))%N in
        evaluate_references local_map_query number_of_query_matchables
          matches_per_reference_image (seq 0 (N.to_nat maximum_index_reference))
          r [DatabaseMatchAndAdd (appearances local_map_query)]
  end.

(** A sequence of calls, one per arriving local map; the traces are
    concatenated and the first call that does not return ends the run. *)
Fixpoint detectClosures_all `{PlaceMatcher} (local_maps : list (option LocalMap))
    (r : Relocalizer) : Outcome (Relocalizer * list Event) :=
  match local_maps with
  | [] => Returned (r, [])
  | local_map :: rest =>
      match detectClosures local_map r with
      | Returned (r, trace) =>
          match detectClosures_all rest r with
          | Returned (r, trace') => Returned (r, trace ++ trace')
          | ThrownOutOfRange => ThrownOutOfRange
          | UndefinedBehaviour => UndefinedBehaviour
          end
      | ThrownOutOfRange => ThrownOutOfRange
      | UndefinedBehaviour => UndefinedBehaviour
      end
  end.

(** * The notions the properties are stated with *)

(** ** Relocalizer *)

(** The votes of a reference identifier: the candidates that name it, none
    when the identifier is in the used-reference mask. *)
Definition votes (mask : gset N) (matches_ : list Candidate.t) (id : Identifier) : Count :=
  if bool_decide (id ∈ mask) then 0%N
  else N.of_nat
         (length (filter (fun c => identifier (Candidate.reference c) = id) matches_)).

(** The highest vote count among the references of the candidates. *)
Definition highest_count (mask : gset N) (matches_ : list Candidate.t) : Count :=
  foldr N.max 0%N
    (map (fun c => votes mask matches_ (identifier (Candidate.reference c))) matches_).

(** The state of the counting loop after the candidates [done]. *)
Definition counting_invariant (mask : gset N) (done : list Candidate.t)
    (counts : gmultiset N) (match_best : option Candidate.t) (count_best : Count)
    : Prop :=
  (forall id, N.of_nat (multiplicity id counts) = votes mask done id)
  /\ (forall id, (votes mask done id <= count_best)%N)
  /\ match match_best with
     | Some best =>
         (best ∈ done)
         /\ (identifier (Candidate.reference best) ∉ mask)
         /\ votes mask done (identifier (Candidate.reference best)) = count_best
     | None => count_best = 0%N
     end.

Definition query_identifiers (cs : list Correspondence.t) : list Identifier :=
  map (fun c => identifier (Correspondence.query c)) cs.

Definition reference_identifiers (cs : list Correspondence.t) : list Identifier :=
  map (fun c => identifier (Correspondence.reference c)) cs.

(** No two correspondences share a query landmark or a reference landmark. *)
Definition one_to_one (cs : list Correspondence.t) : Prop :=
  NoDup (query_identifiers cs) /\ NoDup (reference_identifiers cs).

(** Every entry of a candidate map holds candidates of the landmark that is
    its key. *)
Definition grouped_by_query (m : CandidateMap) : Prop :=
  Forall (fun e => Forall (fun c => identifier (Candidate.query c) = e.1) e.2) m.

(** The mask after a run of passes: the references of the last closure, or
    the mask before when no closure was built. *)
Definition mask_after (before : gset N) (new : list Closure.t) : gset N :=
  match last new with
  | Some c => list_to_set (reference_identifiers (Closure.correspondences c))
  | None => before
  end.

(** Matched count divided by query descriptor count. *)
Definition match_ratio (multiple_matches : list Match.t) (local_map_query : LocalMap)
    : real :=
  (real_of_count (N.of_nat (length multiple_matches))
   / real_of_count (N.of_nat (length (appearances local_map_query))))%Q.

(** The number of distinct query landmarks that have a candidate. *)
Definition matched_landmarks (multiple_matches : list Match.t) : Count :=
  N.of_nat
    (size (list_to_set
             (map (fun match_ => identifier (Match.object_query match_)) multiple_matches)
           : gset N)).

(** The correspondences one pass resolves from the matches, from a cleared
    mask. *)
Definition resolved_correspondences (parameters_ : RelocalizerParameters)
    (multiple_matches : list Match.t) : list Correspondence.t :=
  (resolve_correspondences (group_matches multiple_matches) []
     (Relocalizer_new parameters_)).1.

(** One closure when both thresholds are met, none otherwise. *)
Definition closure_of_reference (parameters_ : RelocalizerParameters)
    (local_map_query local_map_reference : LocalMap) (multiple_matches : list Match.t)
    : list Closure.t :=
  if Qle_bool (preliminary_minimum_matching_ratio parameters_)
       (match_ratio multiple_matches local_map_query)
     && (minimum_number_of_matched_landmarks parameters_
         <=? matched_landmarks multiple_matches)%N
  then [ {| Closure.local_map_query := local_map_query;
            Closure.local_map_reference := local_map_reference;
            Closure.absolute_number_of_matches := matched_landmarks multiple_matches;
            Closure.relative_number_of_matches :=
              Finite (match_ratio multiple_matches local_map_query);
            Closure.correspondences :=
              resolved_correspondences parameters_ multiple_matches |} ]
  else [].

(** The closures of the references at [indices], in order. *)
Definition closures_of_references (parameters_ : RelocalizerParameters)
    (local_map_query : LocalMap) (matches_per_reference_image : list (list Match.t))
    (local_maps : list LocalMap) (indices : list nat) : list Closure.t :=
  concat
    (map (fun index =>
            match matches_per_reference_image !! index, local_maps !! index with
            | Some multiple_matches, Some local_map_reference =>
                closure_of_reference parameters_ local_map_query local_map_reference
                  multiple_matches
            | _, _ => []
            end) indices).

(** The candidate a match is stored as (lines 85 and 90). *)
Definition candidate_of_match (match_ : Match.t) : Candidate.t :=
  {| Candidate.query := Match.object_query match_;
     Candidate.reference := Match.object_reference match_;
     Candidate.distance := Match.distance match_ |}.

(** The matches of one query landmark, in the order of the match vector. *)
Definition matches_of_landmark (key : Identifier) (multiple_matches : list Match.t)
    : list Match.t :=
  filter (fun match_ => identifier (Match.object_query match_) = key) multiple_matches.

(** The best candidate of the counting loop is the one at which a count
    first exceeded every count seen before it. *)
Definition first_reached (mask : gset N) (done : list Candidate.t)
    (match_best : option Candidate.t) (count_best : Count) : Prop :=
  match match_best with
  | Some best =>
      exists before after,
        done = before ++ best :: after
        /\ votes mask (before ++ [best]) (identifier (Candidate.reference best))
           = count_best
        /\ forall id, (votes mask before id < count_best)%N
  | None => True
  end.

(** The local maps of a run that are not null. *)
Definition passed_local_maps (local_maps : list (option LocalMap)) : list LocalMap :=
  omap id local_maps.

(** The matches between one query landmark and one reference landmark. *)
Definition matches_between (id_query id_reference : Identifier)
    (multiple_matches : list Match.t) : list Match.t :=
  filter (fun match_ =>
            identifier (Match.object_query match_) = id_query
            /\ identifier (Match.object_reference match_) = id_reference)
    multiple_matches.

(** A correspondence that stands for matches of the list: its landmarks are
    those of a match, its vote count is the number of matches between the
    two landmarks and exceeds the vote threshold. *)
Definition backed_by_matches (parameters_ : RelocalizerParameters)
    (multiple_matches : list Match.t) (c : Correspondence.t) : Prop :=
  (exists match_,
      match_ ∈ multiple_matches
      /\ Correspondence.query c = Match.object_query match_
      /\ Correspondence.reference c = Match.object_reference match_)
  /\ Correspondence.matching_count c
     = N.of_nat
         (length (matches_between (identifier (Correspondence.query c))
                    (identifier (Correspondence.reference c)) multiple_matches))
  /\ (minimum_matches_per_correspondence parameters_
      < Correspondence.matching_count c)%N.

(** A closure that both tests and the matches of a reference local map
    account for.  The ratio test of line 65 is that the quotient is not
    below the minimum; for a query with a descriptor the quotient is a
    rational and at least the minimum. *)
Definition closure_accounted_for (parameters_ : RelocalizerParameters)
    (local_map_query_ : LocalMap) (number_of_query_matchables : Count)
    (matches_per_reference_image : list (list Match.t))
    (local_maps : list LocalMap) (c : Closure.t) : Prop :=
  Closure.local_map_query c = local_map_query_
  /\ exists index multiple_matches,
      matches_per_reference_image !! index = Some multiple_matches
      /\ local_maps !! index = Some (Closure.local_map_reference c)
      /\ Closure.relative_number_of_matches c
         = count_quotient (N.of_nat (length multiple_matches))
             number_of_query_matchables
      /\ quotient_ltb (Closure.relative_number_of_matches c)
           (preliminary_minimum_matching_ratio parameters_) = false
      /\ (number_of_query_matchables <> 0%N ->
          Closure.relative_number_of_matches c
          = Finite (real_of_count (N.of_nat (length multiple_matches))
                    / real_of_count number_of_query_matchables)%Q
          /\ (preliminary_minimum_matching_ratio parameters_
              <= real_of_count (N.of_nat (length multiple_matches))
                 / real_of_count number_of_query_matchables)%Q)
      /\ Closure.absolute_number_of_matches c = matched_landmarks multiple_matches
      /\ (minimum_number_of_matched_landmarks parameters_
          <= Closure.absolute_number_of_matches c)%N
      /\ (N.of_nat (length (Closure.correspondences c))
          <= Closure.absolute_number_of_matches c)%N
      /\ Forall (backed_by_matches parameters_ multiple_matches)
           (Closure.correspondences c).

(** The closures a call appended to the pending ones. *)
Definition appended_closures (before after : Relocalizer) : list Closure.t :=
  drop (length (_closures before)) (_closures after).

(** The reference landmarks taken by the correspondences of the query
    landmarks with a smaller identifier. *)
Definition taken_before (key : Identifier) (cs : list Correspondence.t) : gset N :=
  list_to_set
    (reference_identifiers
       (filter (fun c => (identifier (Correspondence.query c) < key)%N) cs)).

(** What the pass over the candidate map decides for the query landmark
    [key] with the candidates [candidates], given the correspondences [cs]
    of the whole pass and the mask [mask] it started from. *)
Definition greedy_choice (parameters_ : RelocalizerParameters) (mask : gset N)
    (cs : list Correspondence.t) (key : Identifier) (candidates : list Candidate.t)
    : Prop :=
  let taken := mask ∪ taken_before key cs in
  if (minimum_matches_per_correspondence parameters_
      <? highest_count taken candidates)%N
  then exists c,
      (c ∈ cs)
      /\ identifier (Correspondence.query c) = key
      /\ (identifier (Correspondence.reference c) ∉ taken)
      /\ Correspondence.matching_count c = highest_count taken candidates
      /\ votes taken candidates (identifier (Correspondence.reference c))
         = highest_count taken candidates
  else forall c, c ∈ cs -> identifier (Correspondence.query c) <> key.

(** ** Aligner *)

(** The weight every point starts from: identity with the depth entry 10. *)
Definition omega_initial : Matrix :=
  [ [ 1; 0; 0 ]; [ 0; 1; 0 ]; [ 0; 0; 10 ] ]%Q.

(** A point is processed when it passes the depth test and the image-bounds
    test. *)
Definition processed (a : UVDAligner) (frame_point : FramePoint) : bool :=
  negb (depth_rejected a frame_point) && negb (outside_image a frame_point).

Definition is_inlier (a : UVDAligner) (frame_point : FramePoint) : bool :=
  processed a frame_point
  && Qle_bool (chi a frame_point) (_maximum_error_kernel (parameters a)).

Definition is_outlier (a : UVDAligner) (frame_point : FramePoint) : bool :=
  processed a frame_point
  && real_ltb (_maximum_error_kernel (parameters a)) (chi a frame_point).

(** A processed point contributes to [H] and [b] unless it is an outlier and
    outliers are ignored. *)
Definition contributes (ignore_outliers_ : bool) (a : UVDAligner)
    (frame_point : FramePoint) : bool :=
  processed a frame_point
  && (negb (real_ltb (_maximum_error_kernel (parameters a)) (chi a frame_point))
      || negb ignore_outliers_).

(** The factors the weight of a point is multiplied by, in order: the
    fallback weight, the robust kernel, the depth attenuation. *)
Definition weight_scalings (ignore_outliers_ : bool) (a : UVDAligner)
    (frame_point : FramePoint) : list real :=
  (if prefers_landmark frame_point then [] else [_weight_framepoint (parameters a)])
  ++ (if contributes ignore_outliers_ a frame_point
      then (if real_ltb (_maximum_error_kernel (parameters a)) (chi a frame_point)
            then [(_maximum_error_kernel (parameters a) / chi a frame_point)%Q]
            else [])
           ++ [depth_weight a frame_point]
      else []).

Definition point_omega (ignore_outliers_ : bool) (a : UVDAligner)
    (frame_point : FramePoint) : Matrix :=
  fold_left mscale (weight_scalings ignore_outliers_ a frame_point) omega_initial.

(** The Jacobian of the residual of a point. *)
Definition point_jacobian (a : UVDAligner) (frame_point : FramePoint) : Matrix :=
  mmul (mmul (jacobian_projection a frame_point) (_camera_matrix a))
    (jacobian_transform a frame_point).

(** What a contributing point adds to [H] and to [b]. *)
Definition H_contribution (ignore_outliers_ : bool) (a : UVDAligner)
    (frame_point : FramePoint) : Matrix :=
  mmul (mmul (mtranspose (point_jacobian a frame_point))
          (point_omega ignore_outliers_ a frame_point))
    (point_jacobian a frame_point).

Definition b_contribution (ignore_outliers_ : bool) (a : UVDAligner)
    (frame_point : FramePoint) : Vector :=
  mvmul (mmul (mtranspose (point_jacobian a frame_point))
           (point_omega ignore_outliers_ a frame_point))
    (error a frame_point).

(** Two aligners that agree on the pose, the camera and the parameters. *)
Definition same_view (s a : UVDAligner) : Prop :=
  _world_to_camera s = _world_to_camera a
  /\ _camera_matrix s = _camera_matrix a
  /\ parameters s = parameters a
  /\ _number_of_rows_image s = _number_of_rows_image a
  /\ _number_of_cols_image s = _number_of_cols_image a.

(** What [H], [b] and the total error are after the points [points]. *)
Definition accumulated_H (ignore_outliers_ : bool) (a : UVDAligner)
    (points : list FramePoint) : Matrix :=
  fold_left
    (fun H frame_point =>
       if contributes ignore_outliers_ a frame_point
       then madd H (H_contribution ignore_outliers_ a frame_point) else H)
    points (mzero 6 6).

Definition accumulated_b (ignore_outliers_ : bool) (a : UVDAligner)
    (points : list FramePoint) : Vector :=
  fold_left
    (fun b frame_point =>
       if contributes ignore_outliers_ a frame_point
       then vadd b (b_contribution ignore_outliers_ a frame_point) else b)
    points (replicate 6 0%Q).

Definition accumulated_error (ignore_outliers_ : bool) (a : UVDAligner)
    (points : list FramePoint) : real :=
  fold_left
    (fun e frame_point =>
       if contributes ignore_outliers_ a frame_point
       then (e + chi a frame_point)%Q else e)
    points 0%Q.

(** The state of the loop of [linearize ignore_outliers_ a] once the points
    below [k] are done. *)
Record linearized (ignore_outliers_ : bool) (a : UVDAligner) (k : nat)
    (s : UVDAligner) : Prop := {
  lin_view : same_view s a;
  lin_points_length :
    length (activePoints (_frame s)) = length (activePoints (_frame a));
  lin_points_ahead :
    forall j, (k <= j)%nat ->
      activePoints (_frame s) !! j = activePoints (_frame a) !! j;
  lin_errors_length : length (_errors s) = length (activePoints (_frame a));
  lin_inliers_length : length (_inliers s) = length (activePoints (_frame a));
  lin_errors :
    forall j frame_point, (j < k)%nat ->
      activePoints (_frame a) !! j = Some frame_point ->
      _errors s !! j
      = Some (if processed a frame_point then chi a frame_point else (-1)%Q);
  lin_inliers :
    forall j frame_point, (j < k)%nat ->
      activePoints (_frame a) !! j = Some frame_point ->
      _inliers s !! j = Some (is_inlier a frame_point);
  lin_number_of_inliers :
    _number_of_inliers s
    = N.of_nat (length (List.filter (is_inlier a) (take k (activePoints (_frame a)))));
  lin_number_of_outliers :
    _number_of_outliers s
    = N.of_nat (length (List.filter (is_outlier a) (take k (activePoints (_frame a)))));
  lin_H : _H s = accumulated_H ignore_outliers_ a (take k (activePoints (_frame a)));
  lin_b : _b s = accumulated_b ignore_outliers_ a (take k (activePoints (_frame a)));
  lin_total_error :
    _total_error s
    = accumulated_error ignore_outliers_ a (take k (activePoints (_frame a)))
}.

(** The aligner after [k] rounds that keep the outliers. *)
Definition kept `{Kernels} (k : nat) (a : UVDAligner) : UVDAligner :=
  Nat.iter k (oneRound false) a.

(** The three inlier-only rounds, the information matrix and the flag. *)
Definition polished `{Kernels} (a : UVDAligner) : UVDAligner :=
  let a := oneRound true (oneRound true (oneRound true a)) in
  set_has_system_converged true (set_information_matrix (_H a) a).

(** Lines 207-210. *)
Definition wrapped `{Kernels} (a : UVDAligner) : UVDAligner :=
  let a := set_camera_to_world (transform_inverse (_world_to_camera a)) a in
  let a :=
    set_robot_to_world
      (transform_compose (_camera_to_world a) (robotToCamera (cameraLeft (_frame a)))) a in
  set_world_to_robot (transform_inverse (_robot_to_world a)) a.

(** The total error the round [k] (from 0) is compared with: [start] for
    the first round, the total error of the round before otherwise. *)
Definition previous_error `{Kernels} (start : real) (a : UVDAligner) (k : nat) : real :=
  match k with
  | O => start
  | S _ => _total_error (kept k a)
  end.

(** The absolute change of the total error in round [k] is strictly below
    the threshold. *)
Definition settles `{Kernels} (start : real) (a : UVDAligner) (k : nat) : bool :=
  real_ltb (Qabs (previous_error start a k - _total_error (kept (S k) a)))
    (_error_delta_for_convergence (parameters a)).

(** The first round among [k], ..., [k + remaining - 1] that settles. *)
Fixpoint first_settled `{Kernels} (start : real) (a : UVDAligner) (k remaining : nat)
    : option nat :=
  match remaining with
  | O => None
  | S remaining' =>
      if settles start a k then Some k
      else first_settled start a (S k) remaining'
  end.


(** Two aligners that differ at most in the buffers, the accumulators, the
    working matrices [_omega] and [_jacobian], the pose estimate under
    optimisation, and the points of the frame. *)
Definition same_configuration (s a : UVDAligner) : Prop :=
  parameters s = parameters a
  /\ _camera_matrix s = _camera_matrix a
  /\ _number_of_rows_image s = _number_of_rows_image a
  /\ _number_of_cols_image s = _number_of_cols_image a
  /\ _robot_to_world s = _robot_to_world a
  /\ _world_to_robot s = _world_to_robot a
  /\ _camera_to_world s = _camera_to_world a
  /\ _information_matrix s = _information_matrix a
  /\ _has_system_converged s = _has_system_converged a
  /\ cameraLeft (_frame s) = cameraLeft (_frame a).

(** What [linearize] leaves of a point: its reprojection is set when the
    point is processed (line 83). *)
Definition reprojected (a : UVDAligner) (frame_point : FramePoint) : FramePoint :=
  if processed a frame_point
  then setReprojectionCoordinatesLeft (predicted_point_in_image a frame_point) frame_point
  else frame_point.

(** What the aligner is given of a point: its measurements, the world
    coordinates of its predecessor and its landmark. *)
Definition given_of_point (frame_point : FramePoint)
    : Vector * Vector * Vector * option Landmark :=
  (imageCoordinatesLeft frame_point, cameraCoordinatesLeft frame_point,
   previous_worldCoordinates frame_point, landmark frame_point).

(** Two aligners that work on the same problem: the same parameters, the
    same camera and the same points, up to their reprojections. *)
Definition same_problem (s a : UVDAligner) : Prop :=
  parameters s = parameters a
  /\ _camera_matrix s = _camera_matrix a
  /\ _number_of_rows_image s = _number_of_rows_image a
  /\ _number_of_cols_image s = _number_of_cols_image a
  /\ cameraLeft (_frame s) = cameraLeft (_frame a)
  /\ map given_of_point (activePoints (_frame s))
     = map given_of_point (activePoints (_frame a)).

(** A vector whose entries are all zero. *)
Definition zero_vector (v : list Q) : Prop := Forall (fun e => (e == 0)%Q) v.

(** Equality of matrices over the rationals, entry by entry. *)
Definition matrix_eq (m1 m2 : list (list Q)) : Prop := Forall2 (Forall2 Qeq) m1 m2.

(** A 3x3 matrix whose columns are orthonormal. *)
Definition orthonormal (rotation : list (list Q)) : Prop :=
  length rotation = 3%nat
  /\ Forall (fun row => length row = 3%nat) rotation
  /\ matrix_eq (mmul (mtranspose rotation) rotation) (midentity 3).

(** Lines 164-167: the first-order correction towards a proper rotation. *)
Definition rotation_correction (rotation : list (list Q)) : list (list Q) :=
  msub rotation
    (mmul (mscale_left (1 # 2) rotation)
       (diagonal_minus 1 (mmul (mtranspose rotation) rotation))).

(** Lines 157-161: the pose after the step of a round, before the rotation
    is corrected, from the state [linearize] left. *)
Definition stepped_from `{Kernels} (s : UVDAligner) : TransformMatrix3D :=
  let H := madd (_H s) (mscale_left (_damping (parameters s)) (midentity 6)) in
  transform_compose (v2t (ldlt_solve H (vneg (_b s)))) (_world_to_camera s).

(** Lines 154-161: the same pose, from the aligner the round starts with. *)
Definition stepped_pose `{Kernels} (ignore_outliers_ : bool) (a : UVDAligner)
    : TransformMatrix3D :=
  stepped_from (linearize ignore_outliers_ a).

(** The entry [linearize] records for a point in the error buffer. *)
Definition recorded_error (a : UVDAligner) (frame_point : FramePoint) : real :=
  if processed a frame_point then chi a frame_point else (-1)%Q.

(** An entry of the two buffers that belongs to an outlier: an error was
    recorded and the inlier flag is not set. *)
Definition marks_outlier (entry : real * bool) : bool :=
  Qle_bool 0 entry.1 && negb entry.2.

(** The error and inlier buffers have one entry per active point, as
    [initialize] leaves them. *)
Definition buffers_sized (a : UVDAligner) : Prop :=
  length (_errors a) = length (activePoints (_frame a))
  /\ length (_inliers a) = length (activePoints (_frame a)).

(** A matrix that equals its transpose, entry by entry (entries beyond the
    matrix read as zero). *)
Definition symmetric (m : list (list Q)) : Prop :=
  forall i j, (mget i j m == mget j i m)%Q.

(** A matrix with [n] rows of [n] entries. *)
Definition square (n : nat) (m : list (list Q)) : Prop :=
  length m = n /\ Forall (fun row => length row = n) m.

(** * Data of the worked examples *)

(** ** A run of the relocalizer *)

(** The landmarks and candidates of the worked example of the specification:
    [(L1,R1,d), (L1,R1,d'), (L1,R2,d'')]. *)
Definition example_landmark (id : Identifier) : Landmark :=
  {| identifier := id; coordinates := [0; 0; 0]%Q; areCoordinatesValidated := true |}.

Definition example_candidates : list Candidate.t :=
  [ {| Candidate.query := example_landmark 1; Candidate.reference := example_landmark 11;
       Candidate.distance := 3%Q |};
    {| Candidate.query := example_landmark 1; Candidate.reference := example_landmark 11;
       Candidate.distance := 5%Q |};
    {| Candidate.query := example_landmark 1; Candidate.reference := example_landmark 12;
       Candidate.distance := 4%Q |} ].

Definition example_parameters (interspace ratio_percent landmarks votes_ : N)
    : RelocalizerParameters :=
  {| preliminary_minimum_interspace_queries := interspace;
     preliminary_minimum_matching_ratio := (Z.of_N ratio_percent # 100)%Q;
     minimum_number_of_matched_landmarks := landmarks;
     minimum_matches_per_correspondence := votes_;
     maximum_descriptor_distance := 2%Q |}.

(** A matcher to run the relocalizer with: every pair of a query and a
    reference descriptor within the Hamming distance is a match. *)
Fixpoint popcount (p : positive) : N :=
  match p with
  | xH => 1%N
  | xO p => popcount p
  | xI p => (1 + popcount p)%N
  end.

Definition hamming_distance (a b : N) : N :=
  match N.lxor a b with
  | N0 => 0%N
  | Npos p => popcount p
  end.

Definition exhaustive_matcher : PlaceMatcher :=
  {| hbst_match := fun reference query maximum_distance =>
       flat_map
         (fun q =>
            flat_map
              (fun t =>
                 let d := real_of_count (hamming_distance (descriptor q) (descriptor t)) in
                 if Qle_bool d maximum_distance
                 then [ {| Match.object_query := object q;
                           Match.object_reference := object t;
                           Match.distance := d |} ]
                 else [])
              reference)
         query |}.

Definition example_matchable (descriptor_ : N) (id : Identifier) : HBSTMatchable :=
  {| descriptor := descriptor_; object := example_landmark id |}.

(** Two places seen before, each with a landmark of its own, and a third
    place whose single landmark looks like both. *)
Definition place_a : LocalMap :=
  {| local_map_identifier := 0;
     appearances := [example_matchable 1 11; example_matchable 2 11] |}.
Definition place_b : LocalMap :=
  {| local_map_identifier := 1;
     appearances := [example_matchable 4 12; example_matchable 8 12] |}.
Definition place_c : LocalMap :=
  {| local_map_identifier := 2;
     appearances := [example_matchable 1 1; example_matchable 2 1;
                     example_matchable 4 1; example_matchable 8 1] |}.

(** Interspace 1, ratio 1/2, one matched landmark, more than one vote, exact
    descriptors. *)
Definition run_parameters : RelocalizerParameters :=
  {| preliminary_minimum_interspace_queries := 1;
     preliminary_minimum_matching_ratio := (1 # 2)%Q;
     minimum_number_of_matched_landmarks := 1;
     minimum_matches_per_correspondence := 1;
     maximum_descriptor_distance := 0%Q |}.

(** The relocalizer once [place_a] and [place_b] have been passed to it. *)
Definition two_places : Relocalizer :=
  {| _parameters := run_parameters;
     _added_local_maps := [place_a; place_b];
     _place_database := [appearances place_a; appearances place_b];
     _closures := [];
     _mask_id_references_for_correspondences := ∅ |}.

(** The relocalizer once [place_a] alone has been passed to it. *)
Definition one_place : Relocalizer :=
  {| _parameters := run_parameters;
     _added_local_maps := [place_a];
     _place_database := [appearances place_a];
     _closures := [];
     _mask_id_references_for_correspondences := ∅ |}.

(** A place in which no descriptor was extracted. *)
Definition place_without_descriptors : LocalMap :=
  {| local_map_identifier := 3; appearances := [] |}.

(** The same relocalizer, asking for more than two votes. *)
Definition two_places_strict : Relocalizer :=
  {| _parameters :=
       {| preliminary_minimum_interspace_queries := 1;
          preliminary_minimum_matching_ratio := (1 # 2)%Q;
          minimum_number_of_matched_landmarks := 1;
          minimum_matches_per_correspondence := 2;
          maximum_descriptor_distance := 0%Q |};
     _added_local_maps := [place_a; place_b];
     _place_database := [appearances place_a; appearances place_b];
     _closures := [];
     _mask_id_references_for_correspondences := ∅ |}.

Definition run_correspondence (id_reference : Identifier) : Correspondence.t :=
  {| Correspondence.query := example_landmark 1;
     Correspondence.reference := example_landmark id_reference;
     Correspondence.matching_count := 2;
     Correspondence.matching_ratio := (2 # 2)%Q |}.

Definition run_closure (local_map_reference : LocalMap) (id_reference : Identifier)
    : Closure.t :=
  {| Closure.local_map_query := place_c;
     Closure.local_map_reference := local_map_reference;
     Closure.absolute_number_of_matches := 1;
     Closure.relative_number_of_matches := Finite (2 # 4)%Q;
     Closure.correspondences := [run_correspondence id_reference] |}.

(** The relocalizer after [place_c] has been passed as well. *)
Definition three_places : Relocalizer :=
  {| _parameters := run_parameters;
     _added_local_maps := [place_a; place_b; place_c];
     _place_database := [appearances place_a; appearances place_b; appearances place_c];
     _closures := [run_closure place_a 11; run_closure place_b 12];
     _mask_id_references_for_correspondences := {[ 12%N ]} |}.

(** Four candidates of one query landmark in which two references tie with
    two votes each; the second reference is the first to have two. *)
Definition tied_candidates : list Candidate.t :=
  [ {| Candidate.query := example_landmark 1; Candidate.reference := example_landmark 12;
       Candidate.distance := 4%Q |};
    {| Candidate.query := example_landmark 1; Candidate.reference := example_landmark 11;
       Candidate.distance := 3%Q |};
    {| Candidate.query := example_landmark 1; Candidate.reference := example_landmark 11;
       Candidate.distance := 5%Q |};
    {| Candidate.query := example_landmark 1; Candidate.reference := example_landmark 12;
       Candidate.distance := 6%Q |} ].

(** Two query landmarks whose matches all name the same reference
    landmark; the matches of the landmark with the larger identifier come
    first. *)
Definition contested_matches : list Match.t :=
  [ {| Match.object_query := example_landmark 2;
       Match.object_reference := example_landmark 11; Match.distance := 1%Q |};
    {| Match.object_query := example_landmark 2;
       Match.object_reference := example_landmark 11; Match.distance := 2%Q |};
    {| Match.object_query := example_landmark 1;
       Match.object_reference := example_landmark 11; Match.distance := 3%Q |};
    {| Match.object_query := example_landmark 1;
       Match.object_reference := example_landmark 11; Match.distance := 4%Q |} ].

(** ** A pass of the aligner *)

Definition identity_transform : TransformMatrix3D :=
  {| linear := midentity 3; translation := [0; 0; 0]%Q |}.

(** The inverse of a rigid transform. *)
Definition rigid_inverse (t : TransformMatrix3D) : TransformMatrix3D :=
  {| linear := mtranspose (linear t);
     translation := vneg (mvmul (mtranspose (linear t)) (translation t)) |}.

(** Kernels to run the aligner with: the rigid inverse, a solver that
    proposes no step, and the retraction of a pure translation. *)
Definition still_kernels : Kernels :=
  {| transform_inverse := rigid_inverse;
     ldlt_solve := fun _ _ => replicate 6 0%Q;
     v2t := fun dx => {| linear := midentity 3; translation := take 3 dx |} |}.

Definition example_camera : Camera :=
  {| cameraMatrix := [ [ 100; 0; 50 ]; [ 0; 100; 50 ]; [ 0; 0; 1 ] ]%Q;
     imageRows := 100;
     imageCols := 100;
     cameraToRobot := identity_transform;
     robotToCamera := identity_transform |}.

(** A point seen at pixel (u, v) with depth 2 whose landmark is at
    [position]. *)
Definition example_point (u v : real) (position : Vector) : FramePoint :=
  {| imageCoordinatesLeft := [u; v; 2%Q];
     cameraCoordinatesLeft := [0%Q; 0%Q; 2%Q];
     previous_worldCoordinates := position;
     landmark := Some {| identifier := 7; coordinates := position;
                         areCoordinatesValidated := true |};
     reprojectionCoordinatesLeft := [0; 0; 0]%Q |}.

(** Four points: one that reprojects onto its observation, one observed ten
    pixels off, one whose prediction falls one pixel right of the image, and
    one behind the camera. *)
Definition example_frame : Frame :=
  {| activePoints :=
       [ example_point 50 50 [0; 0; 2]%Q;
         example_point 40 50 [0; 0; 2]%Q;
         example_point 100 50 [51 # 50; 0; 2]%Q;
         example_point 50 50 [0; 0; -1]%Q ];
     cameraLeft := example_camera |}.

Definition example_aligner_parameters (iterations : Count) (delta : real)
    : AlignerParameters :=
  {| _maximum_number_of_iterations := iterations;
     _error_delta_for_convergence := delta;
     _damping := 1%Q;
     _maximum_error_kernel := 9%Q;
     _maximum_depth_near_meters := 5%Q;
     _maximum_depth_far_meters := 20%Q;
     _weight_framepoint := (1 # 10)%Q |}.

(** An aligner as constructed, before [initialize]. *)
Definition blank_aligner (iterations : Count) (delta : real) (converged : bool)
    : UVDAligner :=
  {| parameters := example_aligner_parameters iterations delta;
     _frame := {| activePoints := []; cameraLeft := example_camera |};
     _errors := []; _inliers := [];
     _robot_to_world := identity_transform; _world_to_robot := identity_transform;
     _camera_to_world := identity_transform; _world_to_camera := identity_transform;
     _camera_matrix := midentity 3;
     _number_of_rows_image := 0; _number_of_cols_image := 0;
     _H := mzero 6 6; _b := replicate 6 0%Q;
     _omega := midentity 3; _jacobian := mzero 3 6;
     _number_of_inliers := 0; _number_of_outliers := 0; _total_error := 0%Q;
     _information_matrix := mzero 6 6;
     _has_system_converged := converged |}.

Definition example_aligner (iterations : Count) (delta : real) (converged : bool)
    : UVDAligner :=
  @initialize still_kernels example_frame identity_transform
    (blank_aligner iterations delta converged).

(** * Properties of the relocalizer *)

Lemma foldr_max_le {A} (v : A -> N) (l : list A) (bound : N) :
  (forall x, (v x <= bound)%N) -> (foldr N.max 0%N (map v l) <= bound)%N.
Proof.
  intros Hv. induction l as [|x l IHl]; simpl; [lia|].
  apply N.max_lub; [apply Hv|exact IHl].
Qed.

Lemma foldr_max_ge {A} (v : A -> N) (l : list A) (x : A) :
  x ∈ l -> (v x <= foldr N.max 0%N (map v l))%N.
Proof.
  intros Hx. induction Hx as [x l|x y l Hx IHx]; simpl.
  - apply N.le_max_l.
  - etransitivity; [exact IHx|apply N.le_max_r].
Qed.

Section Resolution.

Implicit Types (mask : gset N) (counts : gmultiset N) (id : Identifier).
Implicit Types (done rest : list Candidate.t) (r : Relocalizer).

Lemma votes_nil mask id : votes mask [] id = 0%N.
Proof. unfold votes. case_bool_decide; reflexivity. Qed.

Lemma votes_snoc mask done c id :
  votes mask (done ++ [c]) id =
    if bool_decide (id ∈ mask) then 0%N
    else if bool_decide (identifier (Candidate.reference c) = id)
         then (votes mask done id + 1)%N
         else votes mask done id.
Proof.
  unfold votes. case_bool_decide as Hmask; [reflexivity|].
  rewrite filter_app, length_app.
  case_bool_decide as Hid.
  - rewrite filter_cons_True by exact Hid. simpl. lia.
  - rewrite filter_cons_False by exact Hid. simpl. f_equal. lia.
Qed.

Lemma counting_invariant_masked mask done c counts match_best count_best :
  counting_invariant mask done counts match_best count_best ->
  identifier (Candidate.reference c) ∈ mask ->
  counting_invariant mask (done ++ [c]) counts match_best count_best.
Proof.
  intros (Hcounts & Hmax & Hbest) Hmask.
  assert (Hsame : forall id, votes mask (done ++ [c]) id = votes mask done id).
  { intros id. rewrite votes_snoc. unfold votes.
    case_bool_decide as Hm; [reflexivity|].
    case_bool_decide as Hid; [|reflexivity].
    subst id. contradiction. }
  split; [|split].
  - intros id. rewrite Hsame. apply Hcounts.
  - intros id. rewrite Hsame. apply Hmax.
  - destruct match_best as [best|]; [|exact Hbest].
    destruct Hbest as (Hin & Hnm & Hv).
    split; [|split].
    + apply elem_of_app. left. exact Hin.
    + exact Hnm.
    + rewrite Hsame. exact Hv.
Qed.

Lemma counting_invariant_counted mask done c counts match_best count_best :
  counting_invariant mask done counts match_best count_best ->
  identifier (Candidate.reference c) ∉ mask ->
  let counts' := {[+ identifier (Candidate.reference c) +]} ⊎ counts in
  let count_current :=
    N.of_nat (multiplicity (identifier (Candidate.reference c)) counts') in
  counting_invariant mask (done ++ [c]) counts'
    (if (count_best <? count_current)%N then Some c else match_best)
    (if (count_best <? count_current)%N then count_current else count_best).
Proof.
  intros (Hcounts & Hmax & Hbest) Hmask counts' count_current.
  remember (identifier (Candidate.reference c)) as id_c eqn:Hid_c.
  assert (Hother : forall id, id <> id_c ->
            votes mask (done ++ [c]) id = votes mask done id).
  { intros id Hne. rewrite votes_snoc, <- Hid_c. unfold votes.
    case_bool_decide as Hm; [reflexivity|].
    rewrite bool_decide_eq_false_2 by congruence. reflexivity. }
  assert (Hthis : votes mask (done ++ [c]) id_c = (votes mask done id_c + 1)%N).
  { rewrite votes_snoc, <- Hid_c.
    rewrite bool_decide_eq_false_2 by exact Hmask.
    rewrite bool_decide_eq_true_2 by reflexivity. reflexivity. }
  assert (Hnew : forall id,
            N.of_nat (multiplicity id counts') = votes mask (done ++ [c]) id).
  { intros id. unfold counts'. rewrite multiplicity_disj_union.
    destruct (decide (id = id_c)) as [->|Hne].
    - rewrite multiplicity_singleton_eq, Hthis, <- Hcounts. lia.
    - rewrite multiplicity_singleton_ne by exact Hne.
      rewrite (Hother id Hne). simpl. apply Hcounts. }
  assert (Hcurrent : count_current = (votes mask done id_c + 1)%N).
  { unfold count_current. rewrite Hnew. exact Hthis. }
  clearbody count_current. subst count_current.
  split; [exact Hnew|].
  destruct (N.ltb_spec count_best (votes mask done id_c + 1)) as [Hlt|Hge].
  - split; [|split; [|split]].
    + intros id. destruct (decide (id = id_c)) as [->|Hne].
      * rewrite Hthis. lia.
      * rewrite (Hother id Hne). specialize (Hmax id). lia.
    + apply elem_of_app. right. apply list_elem_of_singleton. reflexivity.
    + rewrite <- Hid_c. exact Hmask.
    + rewrite <- Hid_c. exact Hthis.
  - split.
    + intros id. destruct (decide (id = id_c)) as [->|Hne].
      * rewrite Hthis. exact Hge.
      * rewrite (Hother id Hne). apply Hmax.
    + destruct match_best as [best|]; [|specialize (Hmax id_c); lia].
      destruct Hbest as (Hin & Hnm & Hv).
      split; [|split].
      * apply elem_of_app. left. exact Hin.
      * exact Hnm.
      * destruct (decide (identifier (Candidate.reference best) = id_c)) as [Heq|Hne].
        -- rewrite Heq in Hv. lia.
        -- rewrite (Hother _ Hne). exact Hv.
Qed.

Lemma count_candidates_invariant mask rest :
  forall done counts match_best count_best,
    counting_invariant mask done counts match_best count_best ->
    exists counts',
      counting_invariant mask (done ++ rest) counts'
        (count_candidates mask rest counts match_best count_best).1
        (count_candidates mask rest counts match_best count_best).2.
Proof.
  induction rest as [|c rest IH]; intros done counts match_best count_best Hinv.
  - rewrite app_nil_r. exists counts. exact Hinv.
  - replace (done ++ c :: rest) with ((done ++ [c]) ++ rest)
      by (rewrite <- app_assoc; reflexivity).
    simpl. case_bool_decide as Hmask.
    + apply IH. apply counting_invariant_masked; assumption.
    + pose proof (counting_invariant_counted _ _ c _ _ _ Hinv Hmask) as Hstep.
      simpl in Hstep.
      destruct (_ <? _)%N; apply IH; exact Hstep.
Qed.

Lemma counting_invariant_initial mask : counting_invariant mask [] ∅ None 0%N.
Proof.
  split; [|split].
  - intros id. rewrite votes_nil, multiplicity_empty. reflexivity.
  - intros id. rewrite votes_nil. lia.
  - reflexivity.
Qed.

(** The loop ends with the highest count; its candidate, if any, attains it. *)
Lemma count_candidates_highest mask matches_ :
  (count_candidates mask matches_ ∅ None 0%N).2 = highest_count mask matches_
  /\ match (count_candidates mask matches_ ∅ None 0%N).1 with
     | Some best =>
         (best ∈ matches_)
         /\ (identifier (Candidate.reference best) ∉ mask)
         /\ votes mask matches_ (identifier (Candidate.reference best))
            = highest_count mask matches_
     | None => highest_count mask matches_ = 0%N
     end.
Proof.
  destruct (count_candidates_invariant mask matches_ [] ∅ None 0%N
              (counting_invariant_initial mask)) as (counts' & _ & Hmax & Hbest).
  simpl in Hmax, Hbest.
  destruct (count_candidates mask matches_ ∅ None 0%N) as [match_best count_best].
  simpl in *.
  assert (Hupper : (highest_count mask matches_ <= count_best)%N)
    by (apply foldr_max_le; intros c; apply Hmax).
  assert (Hlower : forall c, c ∈ matches_ ->
            (votes mask matches_ (identifier (Candidate.reference c))
             <= highest_count mask matches_)%N)
    by (intros c Hc;
        apply (foldr_max_ge
                 (fun c => votes mask matches_ (identifier (Candidate.reference c))));
        exact Hc).
  destruct match_best as [best|].
  - destruct Hbest as (Hin & Hnm & Hv).
    specialize (Hlower best Hin).
    assert (count_best = highest_count mask matches_) by lia.
    subst count_best. repeat split; assumption.
  - subst count_best. split; lia.
Qed.

(** What a call of [_getCorrespondenceNN] changes: the mask, and nothing else. *)
Lemma getCorrespondenceNN_cases matches_ r :
  let mask := _mask_id_references_for_correspondences r in
  let highest := highest_count mask matches_ in
  if (minimum_matches_per_correspondence (_parameters r) <? highest)%N
  then exists winner,
      (winner ∈ matches_)
      /\ (identifier (Candidate.reference winner) ∉ mask)
      /\ votes mask matches_ (identifier (Candidate.reference winner)) = highest
      /\ _getCorrespondenceNN matches_ r =
           (Some {| Correspondence.query := Candidate.query winner;
                    Correspondence.reference := Candidate.reference winner;
                    Correspondence.matching_count := highest;
                    Correspondence.matching_ratio :=
                      (real_of_count highest
                       / real_of_count (N.of_nat (length matches_)))%Q |},
            with_mask ({[ identifier (Candidate.reference winner) ]} ∪ mask) r)
  else _getCorrespondenceNN matches_ r = (None, r).
Proof.
  intros mask highest. unfold _getCorrespondenceNN. fold mask.
  destruct (count_candidates_highest mask matches_) as [Hcount Hbest].
  destruct (count_candidates mask matches_ ∅ None 0%N) as [match_best count_best].
  simpl in Hcount, Hbest. subst count_best. fold highest in Hbest |- *.
  destruct match_best as [best|].
  - destruct Hbest as (Hin & Hnm & Hv).
    destruct (_ <? _)%N; [|reflexivity].
    exists best. repeat split; assumption.
  - rewrite Hbest. rewrite (proj2 (N.ltb_ge _ 0%N)) by lia. reflexivity.
Qed.

End Resolution.

(** ** Vote resolution *)

(** C2. For a non-empty candidate list whose candidates share one query
    landmark, [_getCorrespondenceNN] counts, per reference identifier, the
    candidates outside the used-reference mask.  When the highest such count
    strictly exceeds [minimum_matches_per_correspondence] it returns the
    correspondence of the query landmark with a reference that attains that
    count, with the count as vote count and the count divided by the size of
    the whole list as confidence, and it inserts the winning reference into
    the mask; otherwise it returns nothing and leaves the relocalizer as it
    was. *)
Theorem getCorrespondenceNN_majority_vote
    (matches_ : list Candidate.t) (query_landmark : Landmark) (r : Relocalizer) :
  matches_ <> [] ->
  Forall (fun c => Candidate.query c = query_landmark) matches_ ->
  let mask := _mask_id_references_for_correspondences r in
  let highest := highest_count mask matches_ in
  if (minimum_matches_per_correspondence (_parameters r) <? highest)%N
  then exists winner,
      (winner ∈ matches_)
      /\ (identifier (Candidate.reference winner) ∉ mask)
      /\ votes mask matches_ (identifier (Candidate.reference winner)) = highest
      /\ _getCorrespondenceNN matches_ r =
           (Some {| Correspondence.query := query_landmark;
                    Correspondence.reference := Candidate.reference winner;
                    Correspondence.matching_count := highest;
                    Correspondence.matching_ratio :=
                      (real_of_count highest
                       / real_of_count (N.of_nat (length matches_)))%Q |},
            with_mask ({[ identifier (Candidate.reference winner) ]} ∪ mask) r)
  else _getCorrespondenceNN matches_ r = (None, r).
Proof.
  intros _ Hquery mask highest.
  pose proof (getCorrespondenceNN_cases matches_ r) as Hcases.
  simpl in Hcases. fold mask in Hcases. fold highest in Hcases.
  destruct (_ <? _)%N; [|exact Hcases].
  destruct Hcases as (winner & Hin & Hnm & Hv & Hcall).
  exists winner. repeat split; try assumption.
  rewrite Hcall. do 3 f_equal.
  rewrite Forall_forall in Hquery. apply Hquery. exact Hin.
Qed.

(** With vote threshold 1 and an empty mask the example resolves to
    (L1, R1) with 2 votes and confidence 2/3, and R1 enters the mask. *)
Example getCorrespondenceNN_example :
  _getCorrespondenceNN example_candidates (Relocalizer_new (example_parameters 1 50 1 1))
  = (Some {| Correspondence.query := example_landmark 1;
             Correspondence.reference := example_landmark 11;
             Correspondence.matching_count := 2;
             Correspondence.matching_ratio := (2 # 3)%Q |},
     with_mask {[ 11%N ]} (Relocalizer_new (example_parameters 1 50 1 1))).
Proof. vm_compute. reflexivity. Qed.

Lemma getCorrespondenceNN_majority_vote_witness :
  example_candidates <> []
  /\ Forall (fun c => Candidate.query c = example_landmark 1) example_candidates
  /\ exists winner,
      (winner ∈ example_candidates)
      /\ (identifier (Candidate.reference winner) ∉ (∅ : gset N))
      /\ votes ∅ example_candidates (identifier (Candidate.reference winner)) = 2%N
      /\ _getCorrespondenceNN example_candidates
           (Relocalizer_new (example_parameters 1 50 1 1))
         = (Some {| Correspondence.query := example_landmark 1;
                    Correspondence.reference := Candidate.reference winner;
                    Correspondence.matching_count := 2;
                    Correspondence.matching_ratio :=
                      (real_of_count 2 / real_of_count 3)%Q |},
            with_mask ({[ identifier (Candidate.reference winner) ]} ∪ ∅)
              (Relocalizer_new (example_parameters 1 50 1 1))).
Proof.
  assert (Hne : example_candidates <> []) by discriminate.
  assert (Hq : Forall (fun c => Candidate.query c = example_landmark 1) example_candidates)
    by (repeat constructor).
  split; [exact Hne|split; [exact Hq|]].
  exact (getCorrespondenceNN_majority_vote example_candidates (example_landmark 1)
           (Relocalizer_new (example_parameters 1 50 1 1)) Hne Hq).
Defined.

(** ** Grouping and resolving the matches of one reference local map *)

Section Grouping.

Implicit Types (m : CandidateMap) (key : Identifier) (c : Candidate.t).

Lemma candidate_map_add_keys (P : Identifier -> Prop) key c m :
  P key -> Forall P (map fst m) -> Forall P (map fst (candidate_map_add key c m)).
Proof.
  intros Hkey. induction m as [|[k cs] m IH]; simpl; intros Hm.
  - constructor; [exact Hkey|constructor].
  - inversion Hm as [|? ? Hk Hrest]; subst.
    destruct (key =? k)%N; [simpl; constructor; assumption|].
    destruct (key <? k)%N; simpl.
    + constructor; [exact Hkey|]. constructor; assumption.
    + constructor; [exact Hk|]. apply IH. exact Hrest.
Qed.

Lemma candidate_map_add_sorted key c m :
  StronglySorted N.lt (map fst m) ->
  StronglySorted N.lt (map fst (candidate_map_add key c m)).
Proof.
  induction m as [|[k cs] m IH]; simpl; intros Hs.
  - repeat constructor.
  - inversion Hs as [|? ? Hrest Hall]; subst.
    destruct (N.eqb_spec key k) as [->|Hne]; [simpl; constructor; assumption|].
    destruct (N.ltb_spec key k) as [Hlt|Hge]; simpl.
    + constructor; [constructor; assumption|].
      constructor; [exact Hlt|].
      eapply Forall_impl; [exact Hall|]. intros x Hx. simpl in Hx. lia.
    + constructor; [apply IH; exact Hrest|].
      apply candidate_map_add_keys; [lia|exact Hall].
Qed.

Lemma candidate_map_add_grouped key c m :
  identifier (Candidate.query c) = key ->
  grouped_by_query m -> grouped_by_query (candidate_map_add key c m).
Proof.
  intros Hc. unfold grouped_by_query.
  induction m as [|[k cs] m IH]; simpl; intros Hm.
  - repeat constructor. exact Hc.
  - apply Forall_cons in Hm. destruct Hm as [Hk Hrest]. simpl in Hk.
    destruct (N.eqb_spec key k) as [Heq|Hne].
    + constructor; [|exact Hrest]. simpl.
      apply Forall_app. split; [exact Hk|]. repeat constructor. congruence.
    + destruct (key <? k)%N.
      * constructor; [simpl; repeat constructor; exact Hc|constructor; assumption].
      * constructor; [exact Hk|]. apply IH. exact Hrest.
Qed.

Lemma candidate_map_add_key_set key c m :
  (list_to_set (map fst (candidate_map_add key c m)) : gset N)
  = {[ key ]} ∪ list_to_set (map fst m).
Proof.
  induction m as [|[k cs] m IH]; simpl.
  - reflexivity.
  - destruct (N.eqb_spec key k) as [->|Hne].
    + simpl. rewrite (assoc_L (∪)), (idemp_L (∪)). reflexivity.
    + destruct (key <? k)%N; simpl; [reflexivity|].
      rewrite IH, !(assoc_L (∪)), (comm_L (∪) {[k]} {[key]}). reflexivity.
Qed.

(** The three facts about the grouping, for any starting map. *)
Lemma fold_candidate_map_add (ms : list Match.t) :
  forall m,
    StronglySorted N.lt (map fst m) -> grouped_by_query m ->
    let grouped :=
      fold_left
        (fun m match_ =>
           candidate_map_add (identifier (Match.object_query match_))
             {| Candidate.query := Match.object_query match_;
                Candidate.reference := Match.object_reference match_;
                Candidate.distance := Match.distance match_ |} m)
        ms m in
    StronglySorted N.lt (map fst grouped)
    /\ grouped_by_query grouped
    /\ (list_to_set (map fst grouped) : gset N)
       = list_to_set (map (fun match_ => identifier (Match.object_query match_)) ms)
         ∪ list_to_set (map fst m).
Proof.
  induction ms as [|match_ ms IH]; intros m Hs Hg; simpl.
  - split; [exact Hs|split; [exact Hg|]].
    rewrite (left_id_L ∅ (∪)). reflexivity.
  - match goal with
    | |- context [fold_left _ ms ?m'] => destruct (IH m') as (Hs' & Hg' & Hk')
    end.
    + apply candidate_map_add_sorted. exact Hs.
    + apply candidate_map_add_grouped; [reflexivity|exact Hg].
    + split; [exact Hs'|split; [exact Hg'|]].
      rewrite Hk', candidate_map_add_key_set.
      rewrite !(assoc_L (∪)).
      rewrite (comm_L (∪) _ {[identifier (Match.object_query match_)]}).
      reflexivity.
Qed.

Lemma StronglySorted_lt_NoDup (l : list N) : StronglySorted N.lt l -> NoDup l.
Proof.
  induction 1 as [|x l Hs IH Hall]; constructor; [|exact IH].
  intros Hin. rewrite Forall_forall in Hall. specialize (Hall x Hin). lia.
Qed.

Lemma group_matches_keys_NoDup ms : NoDup (map fst (group_matches ms)).
Proof.
  apply StronglySorted_lt_NoDup.
  apply (fold_candidate_map_add ms []); constructor.
Qed.

Lemma group_matches_grouped ms : grouped_by_query (group_matches ms).
Proof. apply (fold_candidate_map_add ms []); constructor. Qed.

(** The entries of the candidate map are the distinct query landmarks. *)
Lemma group_matches_length ms :
  length (group_matches ms) =
    size (list_to_set (map (fun match_ => identifier (Match.object_query match_)) ms)
          : gset N).
Proof.
  destruct (fold_candidate_map_add ms [] (SSorted_nil _) (List.Forall_nil _))
    as (_ & _ & Hkeys).
  fold (group_matches ms) in Hkeys. simpl in Hkeys.
  rewrite (right_id_L ∅ (∪)) in Hkeys. rewrite <- Hkeys.
  rewrite size_list_to_set by apply group_matches_keys_NoDup.
  rewrite length_map. reflexivity.
Qed.

End Grouping.

Section Cycle.

Implicit Types (r : Relocalizer) (entries : CandidateMap).

Lemma with_mask_same r : with_mask (_mask_id_references_for_correspondences r) r = r.
Proof. destruct r; reflexivity. Qed.

(** [clear] drops the pending closures and empties the mask, and nothing else. *)
Lemma Relocalizer_clear_fields r :
  _closures (Relocalizer_clear r) = []
  /\ _mask_id_references_for_correspondences (Relocalizer_clear r) = ∅
  /\ _added_local_maps (Relocalizer_clear r) = _added_local_maps r
  /\ _place_database (Relocalizer_clear r) = _place_database r
  /\ _parameters (Relocalizer_clear r) = _parameters r.
Proof. repeat split. Qed.

(** The two ways a resolution ends. *)
Lemma getCorrespondenceNN_result (matches_ : list Candidate.t) r :
  (exists c winner,
      _getCorrespondenceNN matches_ r =
        (Some c,
         with_mask ({[ identifier (Correspondence.reference c) ]}
                    ∪ _mask_id_references_for_correspondences r) r)
      /\ (winner ∈ matches_)
      /\ Correspondence.query c = Candidate.query winner
      /\ Correspondence.reference c = Candidate.reference winner
      /\ (identifier (Correspondence.reference c)
          ∉ _mask_id_references_for_correspondences r))
  \/ _getCorrespondenceNN matches_ r = (None, r).
Proof.
  pose proof (getCorrespondenceNN_cases matches_ r) as Hcases. simpl in Hcases.
  destruct (_ <? _)%N; [|right; exact Hcases].
  destruct Hcases as (winner & Hin & Hnm & _ & Hcall).
  left. eexists. exists winner.
  split; [exact Hcall|]. repeat split; assumption.
Qed.

(** The pass over the candidate map appends correspondences whose query
    landmarks follow the keys and whose reference landmarks are new to the
    mask, and it adds exactly those references to the mask. *)
Lemma resolve_correspondences_facts entries :
  forall correspondences r,
    grouped_by_query entries ->
    exists new,
      resolve_correspondences entries correspondences r =
        (correspondences ++ new,
         with_mask (list_to_set (reference_identifiers new)
                    ∪ _mask_id_references_for_correspondences r) r)
      /\ sublist (query_identifiers new) (map fst entries)
      /\ NoDup (reference_identifiers new)
      /\ (forall id, id ∈ reference_identifiers new ->
                     id ∉ _mask_id_references_for_correspondences r).
Proof.
  induction entries as [|[key multiple_matches] entries IH];
    intros correspondences r Hgrouped.
  - exists []. simpl. rewrite app_nil_r, (left_id_L ∅ (∪)), with_mask_same.
    split; [reflexivity|]. split; [constructor|]. split; [constructor|].
    intros id Hid. inversion Hid.
  - apply Forall_cons in Hgrouped. destruct Hgrouped as [Hkey Hgrouped].
    simpl in Hkey. simpl.
    destruct (getCorrespondenceNN_result multiple_matches r)
      as [(c & winner & Hcall & Hin & Hq & Href & Hnm)|Hcall]; rewrite Hcall.
    + destruct (IH (correspondences ++ [c])
                  (with_mask ({[ identifier (Correspondence.reference c) ]}
                              ∪ _mask_id_references_for_correspondences r) r)
                  Hgrouped) as (new & Hres & Hsub & Hnd & Hfresh).
      simpl in Hres, Hfresh.
      exists (c :: new). rewrite Hres. split.
      * rewrite <- app_assoc. simpl. unfold with_mask. simpl. f_equal. f_equal.
        rewrite (assoc_L (∪)).
        rewrite (comm_L (∪) (list_to_set (reference_identifiers new))). reflexivity.
      * split; [|split].
        -- simpl. rewrite Hq.
           rewrite Forall_forall in Hkey. rewrite (Hkey winner Hin).
           apply sublist_skip. exact Hsub.
        -- simpl. apply NoDup_cons. split; [|exact Hnd].
           intros Hc. apply (Hfresh _ Hc). apply elem_of_union. left.
           apply elem_of_singleton. reflexivity.
        -- intros id Hid. simpl in Hid. apply elem_of_cons in Hid.
           destruct Hid as [->|Hid]; [exact Hnm|].
           intros Hm. apply (Hfresh _ Hid). apply elem_of_union. right. exact Hm.
    + destruct (IH correspondences r Hgrouped) as (new & Hres & Hsub & Hnd & Hfresh).
      exists new. split; [exact Hres|]. split; [|split; assumption].
      apply sublist_cons. exact Hsub.
Qed.

(** One pass that starts from the cleared mask yields correspondences that
    are one to one, and leaves their references as the mask. *)
Lemma resolve_correspondences_one_to_one (ms : list Match.t) r :
  exists correspondences,
    resolve_correspondences (group_matches ms) [] (with_mask ∅ r) =
      (correspondences,
       with_mask (list_to_set (reference_identifiers correspondences)) r)
    /\ one_to_one correspondences.
Proof.
  destruct (resolve_correspondences_facts (group_matches ms) [] (with_mask ∅ r)
              (group_matches_grouped ms)) as (new & Hres & Hsub & Hnd & _).
  exists new. split.
  - rewrite Hres. simpl. unfold with_mask. simpl.
    rewrite (right_id_L ∅ (∪)). reflexivity.
  - split; [|exact Hnd].
    eapply sublist_NoDup; [apply group_matches_keys_NoDup|exact Hsub].
Qed.

(** During a pass the mask only grows. *)
Lemma resolve_correspondences_mask_grows entries correspondences r :
  grouped_by_query entries ->
  _mask_id_references_for_correspondences r
  ⊆ _mask_id_references_for_correspondences
      (resolve_correspondences entries correspondences r).2.
Proof.
  intros Hgrouped.
  destruct (resolve_correspondences_facts entries correspondences r Hgrouped)
    as (new & Hres & _).
  rewrite Hres. simpl. apply union_subseteq_r.
Qed.

End Cycle.

(** ** One call of [detectClosures] *)

Section DetectClosures.

Implicit Types (r : Relocalizer) (trace : list Event).

Lemma evaluate_references_returned local_map_query_ number_of_query_matchables
    matches_per_reference_image indices :
  forall r trace r' trace',
    evaluate_references local_map_query_ number_of_query_matchables
      matches_per_reference_image indices r trace = Returned (r', trace') ->
    exists new,
      r' = with_mask (mask_after (_mask_id_references_for_correspondences r) new)
             (with_closures (_closures r ++ new) r)
      /\ Forall (fun c => one_to_one (Closure.correspondences c)) new
      /\ trace' = trace ++ replicate (length new) StdinGetChar.
Proof.
  induction indices as [|index indices IH]; intros r trace r' trace' Hrun; simpl in Hrun.
  - inversion Hrun; subst. exists []. simpl.
    rewrite !app_nil_r. unfold mask_after. simpl.
    split; [destruct r'; reflexivity|]. split; [constructor|reflexivity].
  - destruct (matches_per_reference_image !! index) as [multiple_matches_mixed|];
      [|discriminate].
    destruct (quotient_ltb _ _); [apply IH; exact Hrun|].
    destruct (_added_local_maps r !! index) as [local_map_reference|]; [|discriminate].
    destruct (_ <? _)%N; [apply IH; exact Hrun|].
    destruct (resolve_correspondences_one_to_one multiple_matches_mixed r)
      as (correspondences & Hres & Hone).
    rewrite Hres in Hrun. simpl in Hrun.
    apply IH in Hrun. destruct Hrun as (new & Hr' & Hall & Htrace).
    simpl in Hr'.
    eexists (_ :: new). split; [|split].
    + rewrite Hr'. unfold with_mask, with_closures. simpl.
      f_equal; [rewrite <- app_assoc; reflexivity|].
      unfold mask_after. rewrite last_cons. destruct (last new); reflexivity.
    + constructor; [exact Hone|exact Hall].
    + rewrite Htrace, <- app_assoc. reflexivity.
Qed.

End DetectClosures.

(** ** The loop over the reference local maps *)

Section QueryPhase.

Implicit Types (r : Relocalizer) (trace : list Event).

(** A resolution reads the parameters and the mask only. *)
Lemma getCorrespondenceNN_reads (matches_ : list Candidate.t) r1 r2 :
  _parameters r1 = _parameters r2 ->
  _mask_id_references_for_correspondences r1
  = _mask_id_references_for_correspondences r2 ->
  (_getCorrespondenceNN matches_ r1).1 = (_getCorrespondenceNN matches_ r2).1
  /\ _parameters (_getCorrespondenceNN matches_ r1).2
     = _parameters (_getCorrespondenceNN matches_ r2).2
  /\ _mask_id_references_for_correspondences (_getCorrespondenceNN matches_ r1).2
     = _mask_id_references_for_correspondences (_getCorrespondenceNN matches_ r2).2.
Proof.
  intros Hp Hm. unfold _getCorrespondenceNN. rewrite Hp, Hm.
  destruct (count_candidates _ _ _ _ _) as [[best|] count_best]; simpl.
  - destruct (_ <? _)%N; simpl; rewrite ?Hp, ?Hm; auto.
  - auto.
Qed.

Lemma resolve_correspondences_reads (entries : CandidateMap) :
  forall correspondences r1 r2,
    _parameters r1 = _parameters r2 ->
    _mask_id_references_for_correspondences r1
    = _mask_id_references_for_correspondences r2 ->
    (resolve_correspondences entries correspondences r1).1
    = (resolve_correspondences entries correspondences r2).1.
Proof.
  induction entries as [|[key multiple_matches] entries IH];
    intros correspondences r1 r2 Hp Hm; simpl; [reflexivity|].
  destruct (getCorrespondenceNN_reads multiple_matches r1 r2 Hp Hm) as (Hc & Hp' & Hm').
  destruct (_getCorrespondenceNN multiple_matches r1) as [c1 r1'].
  destruct (_getCorrespondenceNN multiple_matches r2) as [c2 r2'].
  simpl in Hc, Hp', Hm'. subst c2.
  destruct c1; apply IH; assumption.
Qed.

Lemma real_ltb_Qle_bool (a b : real) : real_ltb a b = negb (Qle_bool b a).
Proof. reflexivity. Qed.

Lemma closures_of_references_cons parameters_ local_map_query
    matches_per_reference_image local_maps index indices :
  closures_of_references parameters_ local_map_query matches_per_reference_image
    local_maps (index :: indices)
  = match matches_per_reference_image !! index, local_maps !! index with
    | Some multiple_matches, Some local_map_reference =>
        closure_of_reference parameters_ local_map_query local_map_reference
          multiple_matches
    | _, _ => []
    end
    ++ closures_of_references parameters_ local_map_query matches_per_reference_image
         local_maps indices.
Proof. reflexivity. Qed.

Lemma mask_after_cons before c new :
  mask_after before (c :: new)
  = mask_after (list_to_set (reference_identifiers (Closure.correspondences c))) new.
Proof. unfold mask_after. rewrite last_cons. destruct (last new); reflexivity. Qed.

Lemma evaluate_references_exact local_map_query_ matches_per_reference_image indices :
  appearances local_map_query_ <> [] ->
  forall r trace,
    Forall (fun index =>
              (index < length matches_per_reference_image
               /\ index < length (_added_local_maps r))%nat) indices ->
    let new :=
      closures_of_references (_parameters r) local_map_query_
        matches_per_reference_image (_added_local_maps r) indices in
    evaluate_references local_map_query_
      (N.of_nat (length (appearances local_map_query_)))
      matches_per_reference_image indices r trace
    = Returned
        (with_mask (mask_after (_mask_id_references_for_correspondences r) new)
           (with_closures (_closures r ++ new) r),
         trace ++ replicate (length new) StdinGetChar).
Proof.
  intros Hquery.
  assert (Hn : forall n,
            count_quotient n (N.of_nat (length (appearances local_map_query_)))
            = Finite (real_of_count n
                      / real_of_count (N.of_nat (length (appearances local_map_query_))))).
  { intros n. unfold count_quotient.
    rewrite (proj2 (N.eqb_neq _ _)); [reflexivity|].
    destruct (appearances local_map_query_); [congruence|]. simpl. lia. }
  induction indices as [|index indices IH]; intros r trace Hbounds; cbv zeta.
  - unfold closures_of_references, mask_after. simpl.
    rewrite !app_nil_r. destruct r; reflexivity.
  - apply Forall_cons in Hbounds. destruct Hbounds as [[Hmatches Hmaps] Hbounds].
    destruct (lookup_lt_is_Some_2 _ _ Hmatches) as [multiple_matches_mixed Hlookup].
    destruct (lookup_lt_is_Some_2 _ _ Hmaps) as [local_map_reference Hreference].
    rewrite closures_of_references_cons, Hlookup, Hreference.
    cbn [evaluate_references]. rewrite Hlookup, Hn. cbn [quotient_ltb].
    unfold closure_of_reference.
    fold (match_ratio multiple_matches_mixed local_map_query_).
    rewrite real_ltb_Qle_bool.
    destruct (Qle_bool _ (match_ratio _ _)); cbn [negb andb];
      [|rewrite app_nil_l; apply IH; exact Hbounds].
    rewrite Hreference.
    rewrite group_matches_length. fold (matched_landmarks multiple_matches_mixed).
    rewrite N.ltb_antisym.
    destruct (_ <=? _)%N; cbn [negb];
      [|rewrite app_nil_l; apply IH; exact Hbounds].
    destruct (resolve_correspondences_one_to_one multiple_matches_mixed r)
      as (correspondences & Hres & _).
    rewrite Hres.
    assert (Hcorrespondences :
              resolved_correspondences (_parameters r) multiple_matches_mixed
              = correspondences).
    { unfold resolved_correspondences.
      rewrite (resolve_correspondences_reads _ [] _ (with_mask ∅ r)) by reflexivity.
      rewrite Hres. reflexivity. }
    rewrite Hcorrespondences.
    rewrite IH by exact Hbounds.
    cbn [with_closures with_mask _closures _parameters _added_local_maps
         _mask_id_references_for_correspondences _place_database].
    cbn [app]. rewrite mask_after_cons. cbn [Closure.correspondences].
    rewrite <- !app_assoc. cbn [app length replicate]. reflexivity.
Qed.

Lemma closures_of_references_app parameters_ local_map_query matches_per_reference_image
    local_maps more indices :
  Forall (fun index => (index < length local_maps)%nat) indices ->
  closures_of_references parameters_ local_map_query matches_per_reference_image
    (local_maps ++ more) indices
  = closures_of_references parameters_ local_map_query matches_per_reference_image
      local_maps indices.
Proof.
  induction 1 as [|index indices Hindex _ IH]; [reflexivity|].
  rewrite !closures_of_references_cons, IH, lookup_app_l by exact Hindex.
  reflexivity.
Qed.

End QueryPhase.

(** ** The claims about [detectClosures] *)

Section DetectClosuresClaims.

Context `{matcher : PlaceMatcher}.

(** C7, as the code has it.  The claim holds under three conditions that
    the code does not enforce: the interspace is at least one, every stored
    descriptor set has its local map at the same index (the two lists are
    in step), and the query local map has a descriptor.  Then, in the query
    phase (the place database holds at least
    [preliminary_minimum_interspace_queries] descriptor sets),
    [detectClosures] returns, and the closures it appends are, reference by
    reference over the eligible indices in order, exactly one closure for a
    reference whose match ratio is at least
    [preliminary_minimum_matching_ratio] and whose number of distinct
    matched query landmarks is at least [minimum_number_of_matched_landmarks],
    and none for any other reference.  The closure carries the query and the
    reference local map, that number of landmarks, the match ratio and the
    resolved correspondences, whether or not there are any. *)
Theorem detectClosures_query_phase (local_map_query : LocalMap) (r : Relocalizer) :
  (1 <= preliminary_minimum_interspace_queries (_parameters r))%N ->
  (preliminary_minimum_interspace_queries (_parameters r)
   <= tree_size (_place_database r))%N ->
  length (_added_local_maps r) = length (_place_database r) ->
  appearances local_map_query <> [] ->
  let matches_per_reference_image :=
    map (fun reference =>
           hbst_match reference (appearances local_map_query)
             (maximum_descriptor_distance (_parameters r)))
      (_place_database r) in
  let eligible :=
    N.to_nat (tree_size (_place_database r) + 1
              - preliminary_minimum_interspace_queries (_parameters r)) in
  let new :=
    closures_of_references (_parameters r) local_map_query
      matches_per_reference_image (_added_local_maps r) (seq 0 eligible) in
  detectClosures (Some local_map_query) r
  = Returned
      ({| _parameters := _parameters r;
          _added_local_maps := _added_local_maps r ++ [local_map_query];
          _place_database := _place_database r ++ [appearances local_map_query];
          _closures := _closures r ++ new;
          _mask_id_references_for_correspondences :=
            mask_after (_mask_id_references_for_correspondences r) new |},
       DatabaseMatchAndAdd (appearances local_map_query)
       :: replicate (length new) StdinGetChar)
  /\ (forall index, (index < eligible)%nat ->
       exists reference local_map_reference,
         _place_database r !! index = Some reference
         /\ _added_local_maps r !! index = Some local_map_reference
         /\ matches_per_reference_image !! index
            = Some (hbst_match reference (appearances local_map_query)
                      (maximum_descriptor_distance (_parameters r))))
  /\ forall (local_map_reference : LocalMap) (multiple_matches : list Match.t),
       ((preliminary_minimum_matching_ratio (_parameters r)
         <= match_ratio multiple_matches local_map_query)%Q
        /\ (minimum_number_of_matched_landmarks (_parameters r)
            <= matched_landmarks multiple_matches)%N ->
        closure_of_reference (_parameters r) local_map_query local_map_reference
          multiple_matches
        = [ {| Closure.local_map_query := local_map_query;
               Closure.local_map_reference := local_map_reference;
               Closure.absolute_number_of_matches := matched_landmarks multiple_matches;
               Closure.relative_number_of_matches :=
                 Finite (match_ratio multiple_matches local_map_query);
               Closure.correspondences :=
                 resolved_correspondences (_parameters r) multiple_matches |} ])
       /\ (~ ((preliminary_minimum_matching_ratio (_parameters r)
               <= match_ratio multiple_matches local_map_query)%Q
              /\ (minimum_number_of_matched_landmarks (_parameters r)
                  <= matched_landmarks multiple_matches)%N) ->
           closure_of_reference (_parameters r) local_map_query local_map_reference
             multiple_matches = []).
Proof.
  intros Hone Hphase Hmaps Hquery matches_per_reference_image eligible new.
  split; [|split].
  - unfold detectClosures.
    cbn [with_added_local_maps _place_database _parameters].
    rewrite (proj2 (N.ltb_ge _ _)) by exact Hphase.
    unfold tree_matchAndAdd.
    fold matches_per_reference_image.
    cbn [with_place_database _place_database _parameters].
    assert (Heligible :
              N.to_nat
                (tree_size (_place_database r ++ [appearances local_map_query])
                 - preliminary_minimum_interspace_queries (_parameters r))
              = eligible)
      by (unfold eligible, tree_size; rewrite length_app; simpl; lia).
    assert (Hbound : (eligible <= length (_place_database r))%nat)
      by (unfold eligible, tree_size; lia).
    cbn [with_place_database with_added_local_maps _parameters _place_database].
    rewrite Heligible.
    rewrite evaluate_references_exact.
    + cbn [with_place_database with_added_local_maps with_mask with_closures
             _closures _parameters _added_local_maps _place_database
             _mask_id_references_for_correspondences].
      rewrite closures_of_references_app.
      * reflexivity.
      * apply Forall_forall. intros index Hindex.
        apply elem_of_seq in Hindex. lia.
    + exact Hquery.
    + apply Forall_forall. intros index Hindex. apply elem_of_seq in Hindex.
      cbn [with_place_database with_added_local_maps _added_local_maps].
      unfold matches_per_reference_image.
      rewrite length_map, length_app. simpl. lia.
  - intros index Hindex.
    assert (Hbound : (index < length (_place_database r))%nat)
      by (unfold eligible, tree_size in Hindex; lia).
    destruct (lookup_lt_is_Some_2 (_place_database r) index Hbound)
      as [reference Hreference].
    destruct (lookup_lt_is_Some_2 (_added_local_maps r) index
                ltac:(rewrite Hmaps; exact Hbound)) as [local_map_reference Hmap].
    exists reference, local_map_reference.
    split; [exact Hreference|]. split; [exact Hmap|].
    unfold matches_per_reference_image.
    rewrite list_lookup_fmap, Hreference. reflexivity.
  - intros local_map_reference multiple_matches. unfold closure_of_reference.
    split.
    + intros [Hratio Hlandmarks].
      rewrite (proj2 (Qle_bool_iff _ _)) by exact Hratio.
      rewrite (proj2 (N.leb_le _ _)) by exact Hlandmarks. reflexivity.
    + intros Hnot.
      destruct (Qle_bool _ _) eqn:Hratio; [|reflexivity].
      destruct (_ <=? _)%N eqn:Hlandmarks; [|reflexivity].
      exfalso. apply Hnot. split.
      * apply Qle_bool_iff. exact Hratio.
      * apply N.leb_le. exact Hlandmarks.
Qed.

(** C1, as the code has it.  The mask is cleared at the start of the pass
    over one reference local map, not once per call, and during a pass it
    only grows.  So within every closure a call appends, no two
    correspondences share a query landmark and no two share a reference
    landmark; and when the call returns the mask holds the references of the
    last closure built, or what it held before when none was built. *)
Theorem closure_correspondences_one_to_one
    (local_map_query : LocalMap) (r r' : Relocalizer) (trace : list Event) :
  detectClosures (Some local_map_query) r = Returned (r', trace) ->
  (exists new,
      _closures r' = _closures r ++ new
      /\ Forall (fun c => one_to_one (Closure.correspondences c)) new
      /\ _mask_id_references_for_correspondences r'
         = mask_after (_mask_id_references_for_correspondences r) new)
  /\ forall (multiple_matches : list Match.t) correspondences r0,
       _mask_id_references_for_correspondences r0
       ⊆ _mask_id_references_for_correspondences
           (resolve_correspondences (group_matches multiple_matches)
              correspondences r0).2.
Proof.
  intros Hrun. split.
  - revert Hrun. unfold detectClosures.
    destruct (_ <? _)%N.
    + intros Hrun. inversion Hrun; subst. exists [].
      cbn. rewrite app_nil_r. split; [reflexivity|]. split; [constructor|reflexivity].
    + unfold tree_matchAndAdd. intros Hrun.
      apply evaluate_references_returned in Hrun.
      destruct Hrun as (new & Hr' & Hall & _).
      exists new. rewrite Hr'. cbn.
      split; [reflexivity|]. split; [exact Hall|reflexivity].
  - intros multiple_matches correspondences r0.
    apply resolve_correspondences_mask_grows, group_matches_grouped.
Qed.

(** C10. A null local-map pointer makes [detectClosures] return at once:
    the relocalizer (the added local maps, the place database, the pending
    closures and the used-reference mask) is unchanged and nothing is asked
    of the place database or of standard input; a null pointer among the
    local maps of a run is as if it had not been passed. *)
Theorem detectClosures_null (r : Relocalizer) :
  detectClosures None r = Returned (r, [])
  /\ forall local_maps,
       detectClosures_all (None :: local_maps) r = detectClosures_all local_maps r.
Proof.
  split; [reflexivity|].
  intros local_maps. cbn [detectClosures_all detectClosures].
  destruct (detectClosures_all local_maps r) as [[r' trace]| |]; reflexivity.
Qed.

(** The warm-up phase from any relocalizer with room left in it. *)
Lemma detectClosures_all_warm_up (local_maps : list LocalMap) :
  forall r,
    (length (_place_database r) + length local_maps
     <= N.to_nat (preliminary_minimum_interspace_queries (_parameters r)))%nat ->
    detectClosures_all (map Some local_maps) r
    = Returned
        ({| _parameters := _parameters r;
            _added_local_maps := _added_local_maps r ++ local_maps;
            _place_database := _place_database r ++ map appearances local_maps;
            _closures := _closures r;
            _mask_id_references_for_correspondences :=
              _mask_id_references_for_correspondences r |},
         map (fun local_map => DatabaseAdd (appearances local_map)) local_maps).
Proof.
  induction local_maps as [|local_map local_maps IH]; intros r Hroom.
  - simpl. rewrite !app_nil_r. destruct r; reflexivity.
  - cbn [map detectClosures_all]. unfold detectClosures.
    cbn [with_added_local_maps _place_database _parameters].
    rewrite (proj2 (N.ltb_lt _ _)) by (unfold tree_size; simpl in Hroom; lia).
    rewrite IH.
    + cbn [with_place_database with_added_local_maps _parameters _added_local_maps
             _place_database _closures _mask_id_references_for_correspondences].
      unfold tree_add. rewrite <- !app_assoc. reflexivity.
    + cbn [with_place_database with_added_local_maps _parameters _place_database].
      unfold tree_add. rewrite length_app. simpl in *. lia.
Qed.

(** C3. Warm-up: when at most [preliminary_minimum_interspace_queries] local
    maps have been passed to a new relocalizer, one call each, every call
    returns, the list of pending closures is empty, and all that was asked of
    the place database is to add the appearances of each local map, in
    order; no query was issued.  The matcher is arbitrary, so this holds
    whatever the descriptors are. *)
Theorem warm_up_produces_no_closure
    (parameters_ : RelocalizerParameters) (local_maps : list LocalMap) :
  (length local_maps
   <= N.to_nat (preliminary_minimum_interspace_queries parameters_))%nat ->
  detectClosures_all (map Some local_maps) (Relocalizer_new parameters_)
  = Returned
      ({| _parameters := parameters_;
          _added_local_maps := local_maps;
          _place_database := map appearances local_maps;
          _closures := [];
          _mask_id_references_for_correspondences := ∅ |},
       map (fun local_map => DatabaseAdd (appearances local_map)) local_maps).
Proof.
  intros Hwarm. rewrite detectClosures_all_warm_up by (simpl; lia). reflexivity.
Qed.

End DetectClosuresClaims.

(** ** A worked run *)

Example two_places_reached :
  @detectClosures_all exhaustive_matcher [Some place_a; Some place_b]
    (Relocalizer_new run_parameters)
  = Returned (two_places,
              [DatabaseAdd (appearances place_a);
               DatabaseMatchAndAdd (appearances place_b)]).
Proof. vm_compute. reflexivity. Qed.

Example three_places_reached :
  @detectClosures exhaustive_matcher (Some place_c) two_places
  = Returned (three_places,
              [DatabaseMatchAndAdd (appearances place_c); StdinGetChar; StdinGetChar]).
Proof. vm_compute. reflexivity. Qed.

(** A closure is appended also when no correspondence is resolved for it:
    with a vote threshold of 2 the two votes of each reference do not
    suffice, and both closures are empty. *)
Example closures_without_correspondences :
  exists r' trace,
    @detectClosures exhaustive_matcher (Some place_c) two_places_strict
    = Returned (r', trace)
    /\ map Closure.correspondences (_closures r') = [ []; [] ]
    /\ map Closure.local_map_reference (_closures r') = [ place_a; place_b ].
Proof. eexists. eexists. split; [vm_compute; reflexivity|]. split; reflexivity. Qed.

(** Counterexample to C1 as stated: the one call for
    [place_c] builds two closures, and the correspondence of the first and
    the correspondence of the second have the same query landmark. *)
Lemma one_call_reuses_a_query_landmark :
  exists r' trace c1 c2 k1 k2,
    @detectClosures exhaustive_matcher (Some place_c) two_places = Returned (r', trace)
    /\ _closures r' = _closures two_places ++ [c1; c2]
    /\ Closure.correspondences c1 = [k1]
    /\ Closure.correspondences c2 = [k2]
    /\ Correspondence.query k1 = Correspondence.query k2
    /\ Correspondence.reference k1 <> Correspondence.reference k2.
Proof.
  exists three_places,
    [DatabaseMatchAndAdd (appearances place_c); StdinGetChar; StdinGetChar],
    (run_closure place_a 11), (run_closure place_b 12),
    (run_correspondence 11), (run_correspondence 12).
  split; [exact three_places_reached|].
  repeat split. discriminate.
Qed.

Lemma closure_correspondences_one_to_one_witness :
  @detectClosures exhaustive_matcher (Some place_c) two_places
  = Returned (three_places,
              [DatabaseMatchAndAdd (appearances place_c); StdinGetChar; StdinGetChar])
  /\ exists new,
       _closures three_places = _closures two_places ++ new
       /\ Forall (fun c => one_to_one (Closure.correspondences c)) new
       /\ _mask_id_references_for_correspondences three_places
          = mask_after (_mask_id_references_for_correspondences two_places) new.
Proof.
  split; [exact three_places_reached|].
  exact (proj1 (@closure_correspondences_one_to_one exhaustive_matcher place_c
                  two_places three_places _ three_places_reached)).
Defined.

(** Counterexample to C7 as stated.  [place_a] is passed to a new
    relocalizer, [configure] is called and [place_c] is passed.  [configure]
    has emptied [_added_local_maps] but not the place database, so the call
    for [place_c] is in the query phase and reference 0, the descriptor set
    of [place_a], is eligible and meets both thresholds (two of the four
    query descriptors match, on one landmark).  The closure emitted for it
    carries [_added_local_maps[0]], which by now is [place_c] itself, and not
    the local map of that reference. *)
Lemma closure_carries_the_query_as_reference :
  @detectClosures_all exhaustive_matcher [Some place_a] (Relocalizer_new run_parameters)
  = Returned (one_place, [DatabaseAdd (appearances place_a)])
  /\ (preliminary_minimum_interspace_queries (_parameters (Relocalizer_configure one_place))
      <= tree_size (_place_database (Relocalizer_configure one_place)))%N
  /\ _place_database (Relocalizer_configure one_place) !! 0%nat
     = Some (appearances place_a)
  /\ (preliminary_minimum_matching_ratio run_parameters
      <= match_ratio
           (@hbst_match exhaustive_matcher (appearances place_a) (appearances place_c)
              (maximum_descriptor_distance run_parameters))
           place_c)%Q
  /\ (minimum_number_of_matched_landmarks run_parameters
      <= matched_landmarks
           (@hbst_match exhaustive_matcher (appearances place_a) (appearances place_c)
              (maximum_descriptor_distance run_parameters)))%N
  /\ exists r' c,
       @detectClosures exhaustive_matcher (Some place_c) (Relocalizer_configure one_place)
       = Returned (r', [DatabaseMatchAndAdd (appearances place_c); StdinGetChar])
       /\ _closures r' = [c]
       /\ Closure.local_map_query c = place_c
       /\ Closure.local_map_reference c = place_c
       /\ Closure.local_map_reference c <> place_a.
Proof.
  split; [vm_compute; reflexivity|].
  split; [vm_compute; discriminate|].
  split; [reflexivity|].
  split; [vm_compute; discriminate|].
  split; [vm_compute; discriminate|].
  do 2 eexists. split; [vm_compute; reflexivity|].
  split; [reflexivity|]. split; [reflexivity|]. split; [reflexivity|].
  discriminate.
Qed.

(** With an interspace of 0 the loop of line 58 also reaches the index of
    the query itself, for which [matchAndAdd] has stored no match vector:
    [at] throws (line 59), here in the first call on a new relocalizer. *)
Example interspace_zero_throws :
  @detectClosures exhaustive_matcher (Some place_a)
    (Relocalizer_new (example_parameters 0 50 1 1))
  = ThrownOutOfRange.
Proof. vm_compute. reflexivity. Qed.

(** For a query without descriptors the quotient of line 62 is 0/0.  It is
    not below the minimum ratio, so when no matched landmark is asked for a
    closure is appended whose match ratio is not a number. *)
Example query_without_descriptors :
  exists r' trace c,
    @detectClosures_all exhaustive_matcher
      [Some place_a; Some place_without_descriptors]
      (Relocalizer_new (example_parameters 1 50 0 1))
    = Returned (r', trace)
    /\ _closures r' = [c]
    /\ Closure.local_map_reference c = place_a
    /\ Closure.absolute_number_of_matches c = 0%N
    /\ Closure.relative_number_of_matches c = NotANumber
    /\ Closure.correspondences c = [].
Proof.
  do 3 eexists. split; [vm_compute; reflexivity|]. repeat split.
Qed.

Lemma detectClosures_query_phase_witness :
  (1 <= preliminary_minimum_interspace_queries (_parameters two_places))%N
  /\ (preliminary_minimum_interspace_queries (_parameters two_places)
      <= tree_size (_place_database two_places))%N
  /\ length (_added_local_maps two_places) = length (_place_database two_places)
  /\ appearances place_c <> []
  /\ @detectClosures exhaustive_matcher (Some place_c) two_places
     = Returned
         ({| _parameters := run_parameters;
             _added_local_maps := [place_a; place_b; place_c];
             _place_database :=
               [appearances place_a; appearances place_b; appearances place_c];
             _closures := [run_closure place_a 11; run_closure place_b 12];
             _mask_id_references_for_correspondences := {[ 12%N ]} |},
          [DatabaseMatchAndAdd (appearances place_c); StdinGetChar; StdinGetChar]).
Proof.
  assert (H1 : (1 <= preliminary_minimum_interspace_queries (_parameters two_places))%N)
    by (vm_compute; discriminate).
  assert (H2 : (preliminary_minimum_interspace_queries (_parameters two_places)
                <= tree_size (_place_database two_places))%N)
    by (vm_compute; discriminate).
  assert (H3 : length (_added_local_maps two_places)
               = length (_place_database two_places)) by reflexivity.
  assert (H4 : appearances place_c <> []) by discriminate.
  repeat (split; [assumption|]).
  rewrite (proj1 (@detectClosures_query_phase exhaustive_matcher place_c two_places
                    H1 H2 H3 H4)).
  vm_compute. reflexivity.
Defined.

Lemma warm_up_produces_no_closure_witness :
  (length [place_a; place_b]
   <= N.to_nat (preliminary_minimum_interspace_queries
                  (example_parameters 2 50 1 1)))%nat
  /\ @detectClosures_all exhaustive_matcher (map Some [place_a; place_b])
       (Relocalizer_new (example_parameters 2 50 1 1))
     = Returned
         ({| _parameters := example_parameters 2 50 1 1;
             _added_local_maps := [place_a; place_b];
             _place_database := map appearances [place_a; place_b];
             _closures := [];
             _mask_id_references_for_correspondences := ∅ |},
          map (fun local_map => DatabaseAdd (appearances local_map))
            [place_a; place_b]).
Proof.
  assert (H : (length [place_a; place_b]
               <= N.to_nat (preliminary_minimum_interspace_queries
                              (example_parameters 2 50 1 1)))%nat)
    by (vm_compute; lia).
  split; [exact H|].
  exact (@warm_up_produces_no_closure exhaustive_matcher (example_parameters 2 50 1 1)
           [place_a; place_b] H).
Defined.

(** C8 fails on the code: [detectClosures] reads a character from standard
    input after each closure it appends (line 119).  On this run the call for
    [place_c] blocks twice before it returns. *)
Theorem detectClosures_waits_for_stdin :
  exists r',
    @detectClosures exhaustive_matcher (Some place_c) two_places
    = Returned (r', [DatabaseMatchAndAdd (appearances place_c);
                     StdinGetChar; StdinGetChar]).
Proof. exists three_places. exact three_places_reached. Qed.

(** * Properties of the aligner *)

Lemma Qle_bool_real_ltb (x y : real) : Qle_bool x y = negb (real_ltb y x).
Proof. unfold real_ltb. rewrite negb_involutive. reflexivity. Qed.

Section LinearizePoint.

Variables (ignore_outliers_ : bool) (index_point : nat) (a : UVDAligner)
          (frame_point : FramePoint).
Hypothesis Hpoint : activePoints (_frame a) !! index_point = Some frame_point.

(** Every local of the loop body reads the pose, the camera and the
    parameters only, so it has the value it has for [a]. *)
Ltac at_a :=
  repeat match goal with
  | |- context [depth_rejected ?s frame_point] =>
      lazymatch s with a => fail | _ =>
        change (depth_rejected s frame_point) with (depth_rejected a frame_point) end
  | |- context [outside_image ?s frame_point] =>
      lazymatch s with a => fail | _ =>
        change (outside_image s frame_point) with (outside_image a frame_point) end
  | |- context [chi ?s frame_point] =>
      lazymatch s with a => fail | _ =>
        change (chi s frame_point) with (chi a frame_point) end
  | |- context [parameters ?s] =>
      lazymatch s with a => fail | _ =>
        change (parameters s) with (parameters a) end
  end.

Ltac linearize_point_cases :=
  unfold linearize_point; rewrite Hpoint; cbv zeta;
  unfold weight_scalings, contributes, is_inlier, is_outlier, processed;
  destruct (prefers_landmark frame_point);
  at_a;
  destruct (depth_rejected a frame_point);
  destruct (outside_image a frame_point);
  destruct (real_ltb (_maximum_error_kernel (parameters a)) (chi a frame_point)) eqn:Houtlier;
  destruct ignore_outliers_;
  cbn [negb andb orb app].

Lemma linearize_point_omega :
  _omega (linearize_point ignore_outliers_ index_point a)
  = point_omega ignore_outliers_ a frame_point.
Proof.
  unfold point_omega. linearize_point_cases; reflexivity.
Qed.

Lemma linearize_point_errors :
  _errors (linearize_point ignore_outliers_ index_point a)
  = <[index_point := if processed a frame_point then chi a frame_point else (-1)%Q]>
      (_errors a).
Proof.
  linearize_point_cases; cbn; rewrite ?list_insert_insert_eq; reflexivity.
Qed.

Lemma linearize_point_inliers :
  _inliers (linearize_point ignore_outliers_ index_point a)
  = <[index_point := is_inlier a frame_point]> (_inliers a).
Proof.
  unfold is_inlier. rewrite Qle_bool_real_ltb.
  linearize_point_cases; cbn; rewrite ?list_insert_insert_eq; reflexivity.
Qed.

Lemma linearize_point_number_of_inliers :
  _number_of_inliers (linearize_point ignore_outliers_ index_point a)
  = (_number_of_inliers a + if is_inlier a frame_point then 1 else 0)%N.
Proof.
  unfold is_inlier. rewrite Qle_bool_real_ltb.
  linearize_point_cases; cbn; rewrite ?N.add_0_r; reflexivity.
Qed.

Lemma linearize_point_number_of_outliers :
  _number_of_outliers (linearize_point ignore_outliers_ index_point a)
  = (_number_of_outliers a + if is_outlier a frame_point then 1 else 0)%N.
Proof.
  linearize_point_cases; cbn; rewrite ?N.add_0_r; reflexivity.
Qed.

Lemma linearize_point_jacobian :
  contributes ignore_outliers_ a frame_point = true ->
  _jacobian (linearize_point ignore_outliers_ index_point a)
  = point_jacobian a frame_point.
Proof.
  unfold point_jacobian.
  linearize_point_cases; intros Hc; try discriminate Hc; reflexivity.
Qed.

Lemma linearize_point_H :
  _H (linearize_point ignore_outliers_ index_point a)
  = if contributes ignore_outliers_ a frame_point
    then madd (_H a) (H_contribution ignore_outliers_ a frame_point)
    else _H a.
Proof.
  unfold H_contribution, point_omega, point_jacobian.
  linearize_point_cases; reflexivity.
Qed.

Lemma linearize_point_b :
  _b (linearize_point ignore_outliers_ index_point a)
  = if contributes ignore_outliers_ a frame_point
    then vadd (_b a) (b_contribution ignore_outliers_ a frame_point)
    else _b a.
Proof.
  unfold b_contribution, point_omega, point_jacobian.
  linearize_point_cases; reflexivity.
Qed.

Lemma linearize_point_total_error :
  (index_point < length (_errors a))%nat ->
  _total_error (linearize_point ignore_outliers_ index_point a)
  = if contributes ignore_outliers_ a frame_point
    then (_total_error a + chi a frame_point)%Q
    else _total_error a.
Proof.
  intros Hlength.
  linearize_point_cases; cbn; try reflexivity;
    (rewrite (nth_lookup_Some _ _ _ (chi a frame_point));
     [reflexivity|apply list_lookup_insert_eq; rewrite length_insert; exact Hlength]).
Qed.

(** The pass leaves the pose, the camera and the parameters alone, and
    touches no other point of the frame. *)
Lemma linearize_point_view :
  _world_to_camera (linearize_point ignore_outliers_ index_point a) = _world_to_camera a
  /\ _camera_matrix (linearize_point ignore_outliers_ index_point a) = _camera_matrix a
  /\ parameters (linearize_point ignore_outliers_ index_point a) = parameters a
  /\ _number_of_rows_image (linearize_point ignore_outliers_ index_point a)
     = _number_of_rows_image a
  /\ _number_of_cols_image (linearize_point ignore_outliers_ index_point a)
     = _number_of_cols_image a.
Proof. linearize_point_cases; repeat split. Qed.

Lemma linearize_point_activePoints :
  activePoints (_frame (linearize_point ignore_outliers_ index_point a))
  = if processed a frame_point
    then <[index_point :=
             setReprojectionCoordinatesLeft (predicted_point_in_image a frame_point)
               frame_point]> (activePoints (_frame a))
    else activePoints (_frame a).
Proof. linearize_point_cases; reflexivity. Qed.

End LinearizePoint.

(** ** The pass of [linearize] over all points *)

Section Linearize.

Variables (ignore_outliers_ : bool) (a : UVDAligner).

Lemma same_view_locals s frame_point :
  same_view s a ->
  processed s frame_point = processed a frame_point
  /\ chi s frame_point = chi a frame_point
  /\ is_inlier s frame_point = is_inlier a frame_point
  /\ is_outlier s frame_point = is_outlier a frame_point
  /\ contributes ignore_outliers_ s frame_point
     = contributes ignore_outliers_ a frame_point
  /\ H_contribution ignore_outliers_ s frame_point
     = H_contribution ignore_outliers_ a frame_point
  /\ b_contribution ignore_outliers_ s frame_point
     = b_contribution ignore_outliers_ a frame_point.
Proof.
  intros (Hpose & Hcamera & Hparameters & Hrows & Hcols).
  unfold H_contribution, b_contribution, point_omega, point_jacobian, weight_scalings,
    contributes, is_inlier, is_outlier, processed, jacobian_projection,
    jacobian_transform, depth_weight, chi, error, outside_image,
    predicted_point_in_image, predicted_uvd_in_camera, depth_rejected, depth_meters,
    predicted_point_in_camera.
  rewrite Hpose, Hcamera, Hparameters, Hrows, Hcols.
  repeat split.
Qed.

Lemma linearized_step k s :
  linearized ignore_outliers_ a k s ->
  (k < length (activePoints (_frame a)))%nat ->
  linearized ignore_outliers_ a (S k) (linearize_point ignore_outliers_ k s).
Proof.
  intros Hs Hk.
  destruct (lookup_lt_is_Some_2 _ _ Hk) as [frame_point Hpoint].
  assert (Hpoint_s : activePoints (_frame s) !! k = Some frame_point)
    by (rewrite (lin_points_ahead _ _ _ _ Hs k) by lia; exact Hpoint).
  destruct (same_view_locals s frame_point (lin_view _ _ _ _ Hs))
    as (Hprocessed & Hchi & Hinlier & Houtlier & Hcontributes & HH & Hb).
  pose proof (linearize_point_view ignore_outliers_ k s frame_point Hpoint_s) as Hview.
  pose proof (lin_view _ _ _ _ Hs) as Hview_s.
  assert (Htake : take (S k) (activePoints (_frame a))
                  = take k (activePoints (_frame a)) ++ [frame_point])
    by (apply take_S_r; exact Hpoint).
  constructor.
  - unfold same_view in *. intuition congruence.
  - rewrite (linearize_point_activePoints _ _ _ _ Hpoint_s).
    destruct (processed s frame_point);
      rewrite ?length_insert; apply (lin_points_length _ _ _ _ Hs).
  - intros j Hj. rewrite (linearize_point_activePoints _ _ _ _ Hpoint_s).
    destruct (processed s frame_point);
      rewrite ?list_lookup_insert_ne by lia;
      apply (lin_points_ahead _ _ _ _ Hs); lia.
  - rewrite (linearize_point_errors _ _ _ _ Hpoint_s), length_insert.
    apply (lin_errors_length _ _ _ _ Hs).
  - rewrite (linearize_point_inliers _ _ _ _ Hpoint_s), length_insert.
    apply (lin_inliers_length _ _ _ _ Hs).
  - intros j frame_point' Hj Hpoint'.
    rewrite (linearize_point_errors _ _ _ _ Hpoint_s).
    destruct (decide (j = k)) as [->|Hne].
    + rewrite list_lookup_insert_eq
        by (rewrite (lin_errors_length _ _ _ _ Hs); exact Hk).
      rewrite Hpoint in Hpoint'. inversion Hpoint'; subst frame_point'.
      rewrite Hprocessed, Hchi. reflexivity.
    + rewrite list_lookup_insert_ne by congruence.
      apply (lin_errors _ _ _ _ Hs); [lia|exact Hpoint'].
  - intros j frame_point' Hj Hpoint'.
    rewrite (linearize_point_inliers _ _ _ _ Hpoint_s).
    destruct (decide (j = k)) as [->|Hne].
    + rewrite list_lookup_insert_eq
        by (rewrite (lin_inliers_length _ _ _ _ Hs); exact Hk).
      rewrite Hpoint in Hpoint'. inversion Hpoint'; subst frame_point'.
      rewrite Hinlier. reflexivity.
    + rewrite list_lookup_insert_ne by congruence.
      apply (lin_inliers _ _ _ _ Hs); [lia|exact Hpoint'].
  - rewrite (linearize_point_number_of_inliers _ _ _ _ Hpoint_s).
    rewrite (lin_number_of_inliers _ _ _ _ Hs), Htake, List.filter_app, length_app.
    rewrite Hinlier. simpl. destruct (is_inlier a frame_point); simpl; lia.
  - rewrite (linearize_point_number_of_outliers _ _ _ _ Hpoint_s).
    rewrite (lin_number_of_outliers _ _ _ _ Hs), Htake, List.filter_app, length_app.
    rewrite Houtlier. simpl. destruct (is_outlier a frame_point); simpl; lia.
  - rewrite (linearize_point_H _ _ _ _ Hpoint_s), Htake.
    unfold accumulated_H. rewrite fold_left_app. simpl.
    rewrite Hcontributes, HH, (lin_H _ _ _ _ Hs). reflexivity.
  - rewrite (linearize_point_b _ _ _ _ Hpoint_s), Htake.
    unfold accumulated_b. rewrite fold_left_app. simpl.
    rewrite Hcontributes, Hb, (lin_b _ _ _ _ Hs). reflexivity.
  - rewrite (linearize_point_total_error _ _ _ _ Hpoint_s)
      by (rewrite (lin_errors_length _ _ _ _ Hs); exact Hk).
    rewrite Htake. unfold accumulated_error. rewrite fold_left_app. simpl.
    rewrite Hcontributes, Hchi, (lin_total_error _ _ _ _ Hs). reflexivity.
Qed.

Lemma linearized_fold k :
  forall s,
    linearized ignore_outliers_ a 0 s ->
    (k <= length (activePoints (_frame a)))%nat ->
    linearized ignore_outliers_ a k
      (fold_left (fun s index_point => linearize_point ignore_outliers_ index_point s)
         (seq 0 k) s).
Proof.
  induction k as [|k IH]; intros s Hs Hk; [exact Hs|].
  rewrite seq_S, fold_left_app. simpl.
  apply linearized_step; [apply IH; [exact Hs|lia]|lia].
Qed.

Lemma linearized_linearize :
  length (_errors a) = length (activePoints (_frame a)) ->
  length (_inliers a) = length (activePoints (_frame a)) ->
  linearized ignore_outliers_ a (length (activePoints (_frame a)))
    (linearize ignore_outliers_ a).
Proof.
  intros Herrors Hinliers. unfold linearize.
  apply linearized_fold; [|reflexivity].
  constructor; try reflexivity; try assumption.
  - repeat split.
  - intros j frame_point Hj. lia.
  - intros j frame_point Hj. lia.
Qed.

End Linearize.

Lemma real_ltb_lt (x y : real) : real_ltb x y = true <-> (x < y)%Q.
Proof.
  unfold real_ltb. rewrite negb_true_iff. split.
  - intros Hle. apply Qnot_le_lt. intros Hyx.
    apply Qle_bool_iff in Hyx. congruence.
  - intros Hlt. destruct (Qle_bool y x) eqn:Hle; [|reflexivity].
    apply Qle_bool_iff in Hle. exfalso. exact (Qlt_not_le _ _ Hlt Hle).
Qed.

Lemma real_ltb_ge (x y : real) : real_ltb x y = false <-> (y <= x)%Q.
Proof.
  unfold real_ltb. rewrite negb_false_iff. apply Qle_bool_iff.
Qed.

Lemma Qle_bool_false (x y : real) : Qle_bool x y = false <-> (y < x)%Q.
Proof.
  rewrite Qle_bool_real_ltb, negb_false_iff. apply real_ltb_lt.
Qed.

(** [initialize] sizes the error and inlier buffers to the active points. *)
Lemma initialize_buffers `{Kernels} (frame_ : Frame)
    (robot_to_world_ : TransformMatrix3D) (a : UVDAligner) :
  length (_errors (initialize frame_ robot_to_world_ a))
  = length (activePoints (_frame (initialize frame_ robot_to_world_ a)))
  /\ length (_inliers (initialize frame_ robot_to_world_ a))
     = length (activePoints (_frame (initialize frame_ robot_to_world_ a))).
Proof.
  cbn [initialize _errors _inliers _frame]. unfold resize.
  rewrite !length_app, !length_take, !length_replicate. split; lia.
Qed.

(** The two tests in the words of the specification. *)
Lemma processed_iff a frame_point :
  processed a frame_point = true <->
  (0 < depth_meters a frame_point
   /\ depth_meters a frame_point <= _maximum_depth_far_meters (parameters a)
   /\ 0 <= vx (predicted_point_in_image a frame_point)
   /\ vx (predicted_point_in_image a frame_point) <= real_of_count (_number_of_cols_image a)
   /\ 0 <= vy (predicted_point_in_image a frame_point)
   /\ vy (predicted_point_in_image a frame_point)
      <= real_of_count (_number_of_rows_image a))%Q.
Proof.
  unfold processed, depth_rejected, outside_image.
  rewrite andb_true_iff, !negb_true_iff, !orb_false_iff.
  rewrite Qle_bool_false, !real_ltb_ge. tauto.
Qed.

(** A point is classified one way if it is processed, and not at all if not. *)
Lemma classified_once a frame_point :
  (processed a frame_point = true
   /\ is_inlier a frame_point = negb (is_outlier a frame_point))
  \/ (processed a frame_point = false
      /\ is_inlier a frame_point = false /\ is_outlier a frame_point = false).
Proof.
  unfold is_inlier, is_outlier. rewrite Qle_bool_real_ltb.
  destruct (processed a frame_point); [left|right]; simpl; auto.
Qed.

(** Among the processed points the inliers and the outliers are a partition. *)
Lemma inliers_outliers_partition a (points : list FramePoint) :
  (length (List.filter (is_inlier a) points) + length (List.filter (is_outlier a) points)
   = length (List.filter (processed a) points))%nat.
Proof.
  induction points as [|frame_point points IH]; [reflexivity|].
  simpl.
  destruct (classified_once a frame_point) as [[-> ->]|(-> & -> & ->)];
    [|exact IH].
  destruct (is_outlier a frame_point); simpl; lia.
Qed.

(** C5, as the code has it.  After [linearize], over the active points of
    the frame (the error and inlier buffers sized to them, as [initialize]
    leaves them): a point that is processed, that is, whose predicted depth
    lies in (0, far limit] and whose projection lies within the image, has
    its squared residual recorded and is an inlier exactly when that residual
    is at most [_maximum_error_kernel] and an outlier exactly when the
    residual exceeds it; a point that is skipped by either test keeps error
    -1, is no inlier and is counted nowhere; the inlier and outlier counts
    add up to the number of processed points; [H], [b] and the total error
    are the sums of the contributions of the processed points, where an
    outlier contributes nothing when outliers are ignored and otherwise
    contributes with its weight multiplied by threshold / chi. *)
Theorem linearize_classifies_processed_points
    (ignore_outliers_ : bool) (a : UVDAligner) :
  length (_errors a) = length (activePoints (_frame a)) ->
  length (_inliers a) = length (activePoints (_frame a)) ->
  let a' := linearize ignore_outliers_ a in
  let points := activePoints (_frame a) in
  let threshold := _maximum_error_kernel (parameters a) in
  (forall index frame_point,
      points !! index = Some frame_point -> processed a frame_point = true ->
      _errors a' !! index = Some (chi a frame_point)
      /\ (_inliers a' !! index = Some true <-> (chi a frame_point <= threshold)%Q)
      /\ (_inliers a' !! index = Some false <-> (threshold < chi a frame_point)%Q))
  /\ (forall index frame_point,
        points !! index = Some frame_point -> processed a frame_point = false ->
        _errors a' !! index = Some (-1)%Q /\ _inliers a' !! index = Some false)
  /\ _number_of_inliers a' = N.of_nat (length (List.filter (is_inlier a) points))
  /\ _number_of_outliers a' = N.of_nat (length (List.filter (is_outlier a) points))
  /\ (_number_of_inliers a' + _number_of_outliers a'
      = N.of_nat (length (List.filter (processed a) points)))%N
  /\ _H a' = accumulated_H ignore_outliers_ a points
  /\ _b a' = accumulated_b ignore_outliers_ a points
  /\ _total_error a' = accumulated_error ignore_outliers_ a points
  /\ (forall frame_point,
        is_outlier a frame_point = true ->
        contributes true a frame_point = false
        /\ contributes false a frame_point = true
        /\ weight_scalings false a frame_point
           = (if prefers_landmark frame_point then []
              else [_weight_framepoint (parameters a)])
             ++ [(threshold / chi a frame_point)%Q; depth_weight a frame_point]).
Proof.
  intros Herrors Hinliers a' points threshold.
  pose proof (linearized_linearize ignore_outliers_ a Herrors Hinliers) as Hlin.
  fold a' in Hlin. fold points in Hlin.
  assert (Hall : take (length points) points = points) by (apply take_ge; lia).
  pose proof (lin_number_of_inliers _ _ _ _ Hlin) as Hni.
  pose proof (lin_number_of_outliers _ _ _ _ Hlin) as Hno.
  pose proof (lin_H _ _ _ _ Hlin) as HH.
  pose proof (lin_b _ _ _ _ Hlin) as Hb.
  pose proof (lin_total_error _ _ _ _ Hlin) as He.
  fold points in Hni, Hno, HH, Hb, He. rewrite Hall in Hni, Hno, HH, Hb, He.
  split; [|split; [|split; [|split; [|split; [|split; [|split; [|split]]]]]]];
    try assumption.
  - intros index frame_point Hpoint Hprocessed.
    assert (Hindex : (index < length points)%nat)
      by (apply lookup_lt_is_Some; eauto).
    rewrite (lin_errors _ _ _ _ Hlin index frame_point Hindex Hpoint).
    rewrite (lin_inliers _ _ _ _ Hlin index frame_point Hindex Hpoint).
    rewrite Hprocessed. split; [reflexivity|].
    unfold is_inlier. rewrite Hprocessed. simpl. fold threshold.
    split.
    + rewrite <- Qle_bool_iff. split; congruence.
    + rewrite <- Qle_bool_false. split; congruence.
  - intros index frame_point Hpoint Hprocessed.
    assert (Hindex : (index < length points)%nat)
      by (apply lookup_lt_is_Some; eauto).
    rewrite (lin_errors _ _ _ _ Hlin index frame_point Hindex Hpoint).
    rewrite (lin_inliers _ _ _ _ Hlin index frame_point Hindex Hpoint).
    unfold is_inlier. rewrite Hprocessed. split; reflexivity.
  - rewrite Hni, Hno, <- inliers_outliers_partition. lia.
  - intros frame_point Houtlier. unfold is_outlier in Houtlier.
    apply andb_true_iff in Houtlier. destruct Houtlier as [Hprocessed Hexceeds].
    unfold weight_scalings, contributes. fold threshold in Hexceeds |- *.
    rewrite Hprocessed, Hexceeds. repeat split.
Qed.

(** C6. For a point that [linearize] processes (it passes the depth test
    and the image-bounds test), of the 3x6 transform Jacobian the pass
    assembles, the translation block (columns 0-2) is the identity exactly
    when the predicted depth is strictly below [_maximum_depth_near_meters]
    and zero otherwise, while the rotation block (columns 3-5) is -2 times
    the skew-symmetric matrix of the predicted point in the camera frame,
    whatever the depth.  When the point contributes (it is no ignored
    outlier), what the pass leaves in [_jacobian] is the projection Jacobian
    times the camera matrix times this transform Jacobian. *)
Theorem jacobian_transform_blocks
    (ignore_outliers_ : bool) (index_point : nat) (a : UVDAligner)
    (frame_point : FramePoint) :
  activePoints (_frame a) !! index_point = Some frame_point ->
  processed a frame_point = true ->
  let near := _maximum_depth_near_meters (parameters a) in
  let translation_block := block 0 0 3 3 (jacobian_transform a frame_point) in
  let rotation_block := block 0 3 3 3 (jacobian_transform a frame_point) in
  (translation_block = midentity 3 <-> (depth_meters a frame_point < near)%Q)
  /\ (translation_block = mzero 3 3 <-> (near <= depth_meters a frame_point)%Q)
  /\ rotation_block
     = mscale_left (-2) (skew (predicted_point_in_camera a frame_point))
  /\ (contributes ignore_outliers_ a frame_point = true ->
      _jacobian (linearize_point ignore_outliers_ index_point a)
      = mmul (mmul (jacobian_projection a frame_point) (_camera_matrix a))
          (jacobian_transform a frame_point)).
Proof.
  intros Hpoint _ near translation_block rotation_block.
  assert (Hblocks :
            (translation_block = midentity 3 <-> (depth_meters a frame_point < near)%Q)
            /\ (translation_block = mzero 3 3
                <-> (near <= depth_meters a frame_point)%Q)
            /\ rotation_block
               = mscale_left (-2) (skew (predicted_point_in_camera a frame_point))).
  { subst translation_block rotation_block. unfold jacobian_transform. fold near.
    rewrite <- real_ltb_lt, <- real_ltb_ge.
    destruct (real_ltb (depth_meters a frame_point) near).
    - split; [split; reflexivity|]. split; [|reflexivity]. split; discriminate.
    - split; [split; discriminate|]. split; [|reflexivity]. split; reflexivity. }
  destruct Hblocks as (Htranslation & Hzero & Hrotation).
  split; [exact Htranslation|]. split; [exact Hzero|]. split; [exact Hrotation|].
  exact (linearize_point_jacobian _ _ _ _ Hpoint).
Qed.

(** C9. For every point of the pass, the weight [_omega] is reset to the
    identity with its depth entry (2,2) multiplied by 10, so the depth
    component of the residual weighs ten times a pixel component; what the
    pass leaves in [_omega] for the point is that matrix times the factors
    that apply to the point (fallback weight, robust kernel, depth
    attenuation), in this order. *)
Theorem omega_starts_with_depth_weight_ten
    (ignore_outliers_ : bool) (index_point : nat) (a : UVDAligner)
    (frame_point : FramePoint) :
  activePoints (_frame a) !! index_point = Some frame_point ->
  _omega (reset_point index_point a) = [ [ 1; 0; 0 ]; [ 0; 1; 0 ]; [ 0; 0; 10 ] ]%Q
  /\ (mget 2 2 (_omega (reset_point index_point a))
      == 10 * mget 0 0 (_omega (reset_point index_point a)))%Q
  /\ (mget 2 2 (_omega (reset_point index_point a))
      == 10 * mget 1 1 (_omega (reset_point index_point a)))%Q
  /\ _omega (linearize_point ignore_outliers_ index_point a)
     = fold_left mscale (weight_scalings ignore_outliers_ a frame_point)
         (_omega (reset_point index_point a)).
Proof.
  intros Hpoint.
  split; [reflexivity|]. split; [reflexivity|]. split; [reflexivity|].
  exact (linearize_point_omega _ _ _ _ Hpoint).
Qed.

(** ** A worked pass *)

(** What the pass records for the four points (rationals in lowest terms). *)
Example example_pass :
  let a := example_aligner 10 1000 false in
  let a' := linearize false a in
  map (fun p => map Qred (predicted_point_in_image a p)) (activePoints (_frame a))
  = [ [50; 50; 2]; [50; 50; 2]; [101; 50; 2]; [50; 50; -1] ]%Q
  /\ map Qred (_errors a') = [ 0; 100; -1; -1 ]%Q
  /\ _inliers a' = [ true; false; false; false ]
  /\ _number_of_inliers a' = 1%N
  /\ _number_of_outliers a' = 1%N.
Proof. vm_compute. repeat split. Qed.

(** Counterexample to C5 as stated: in the worked pass the third point has
    its predicted depth within (0, far limit] and a squared residual below
    the threshold, yet it is no inlier, no error is recorded for it, and the
    two counts add up to 2 while three points have their depth in range. *)
Lemma point_outside_image_is_not_classified :
  let a := example_aligner 10 1000 false in
  let a' := linearize false a in
  exists frame_point,
    activePoints (_frame a) !! 2%nat = Some frame_point
    /\ (0 < depth_meters a frame_point)%Q
    /\ (depth_meters a frame_point <= _maximum_depth_far_meters (parameters a))%Q
    /\ (chi a frame_point <= _maximum_error_kernel (parameters a))%Q
    /\ _inliers a' !! 2%nat = Some false
    /\ _errors a' !! 2%nat = Some (-1)%Q
    /\ (_number_of_inliers a' + _number_of_outliers a')%N = 2%N
    /\ length (List.filter (fun p => negb (depth_rejected a p))
                 (activePoints (_frame a))) = 3%nat.
Proof.
  eexists. split; [reflexivity|].
  split; [vm_compute; reflexivity|].
  split; [vm_compute; discriminate|].
  split; [vm_compute; discriminate|].
  vm_compute. repeat split.
Qed.

Lemma linearize_classifies_processed_points_witness :
  let a := example_aligner 10 1000 false in
  let a' := linearize false a in
  length (_errors a) = length (activePoints (_frame a))
  /\ length (_inliers a) = length (activePoints (_frame a))
  /\ (_number_of_inliers a' + _number_of_outliers a'
      = N.of_nat (length (List.filter (processed a) (activePoints (_frame a)))))%N
  /\ _H a' = accumulated_H false a (activePoints (_frame a)).
Proof.
  destruct (@initialize_buffers still_kernels example_frame identity_transform
              (blank_aligner 10 1000 false)) as [Herrors Hinliers].
  fold (example_aligner 10 1000 false) in Herrors, Hinliers.
  split; [exact Herrors|]. split; [exact Hinliers|].
  destruct (linearize_classifies_processed_points false (example_aligner 10 1000 false)
              Herrors Hinliers) as (_ & _ & _ & _ & Hcount & HH & _).
  split; [exact Hcount|exact HH].
Defined.

Lemma jacobian_transform_blocks_witness :
  let a := example_aligner 10 1000 false in
  let frame_point := example_point 40 50 [0; 0; 2]%Q in
  activePoints (_frame a) !! 1%nat = Some frame_point
  /\ processed a frame_point = true
  /\ block 0 0 3 3 (jacobian_transform a frame_point) = midentity 3
  /\ block 0 3 3 3 (jacobian_transform a frame_point)
     = mscale_left (-2) (skew (predicted_point_in_camera a frame_point)).
Proof.
  assert (Hpoint : activePoints (_frame (example_aligner 10 1000 false)) !! 1%nat
                   = Some (example_point 40 50 [0; 0; 2]%Q)) by reflexivity.
  assert (Hprocessed : processed (example_aligner 10 1000 false)
                         (example_point 40 50 [0; 0; 2]%Q) = true)
    by (vm_compute; reflexivity).
  split; [exact Hpoint|]. split; [exact Hprocessed|].
  destruct (jacobian_transform_blocks false 1 (example_aligner 10 1000 false)
              (example_point 40 50 [0; 0; 2]%Q) Hpoint Hprocessed)
    as (Htranslation & _ & Hrotation & _).
  split; [|exact Hrotation].
  apply Htranslation. vm_compute. reflexivity.
Defined.

Lemma omega_starts_with_depth_weight_ten_witness :
  let a := example_aligner 10 1000 false in
  activePoints (_frame a) !! 1%nat = Some (example_point 40 50 [0; 0; 2]%Q)
  /\ _omega (reset_point 1 a) = [ [ 1; 0; 0 ]; [ 0; 1; 0 ]; [ 0; 0; 10 ] ]%Q
  /\ _omega (linearize_point false 1 a)
     = fold_left mscale
         (weight_scalings false a (example_point 40 50 [0; 0; 2]%Q))
         (_omega (reset_point 1 a)).
Proof.
  assert (Hpoint : activePoints (_frame (example_aligner 10 1000 false)) !! 1%nat
                   = Some (example_point 40 50 [0; 0; 2]%Q)) by reflexivity.
  split; [exact Hpoint|].
  destruct (omega_starts_with_depth_weight_ten false 1 (example_aligner 10 1000 false)
              (example_point 40 50 [0; 0; 2]%Q) Hpoint) as (Hreset & _ & _ & Hleft).
  split; [exact Hreset|exact Hleft].
Defined.

(** ** Convergence *)

Section Converge.

Context `{kernels : Kernels}.

Lemma linearize_point_parameters ignore_outliers_ index_point a :
  parameters (linearize_point ignore_outliers_ index_point a) = parameters a
  /\ _has_system_converged (linearize_point ignore_outliers_ index_point a)
     = _has_system_converged a.
Proof.
  unfold linearize_point.
  destruct (activePoints (_frame a) !! index_point) as [frame_point|];
    [|split; reflexivity].
  cbv zeta.
  repeat match goal with
         | |- context [if ?c then _ else _] => destruct c
         end; split; reflexivity.
Qed.

Lemma linearize_parameters ignore_outliers_ a :
  parameters (linearize ignore_outliers_ a) = parameters a
  /\ _has_system_converged (linearize ignore_outliers_ a) = _has_system_converged a.
Proof.
  unfold linearize.
  generalize (seq 0 (length (activePoints
                (_frame (set_total_error 0
                   (set_number_of_outliers 0
                      (set_number_of_inliers 0
                         (set_b (replicate 6 0%Q) (set_H (mzero 6 6) a))))))))).
  intros indices.
  change (parameters a) with
    (parameters (set_total_error 0
                   (set_number_of_outliers 0
                      (set_number_of_inliers 0
                         (set_b (replicate 6 0%Q) (set_H (mzero 6 6) a)))))).
  change (_has_system_converged a) with
    (_has_system_converged (set_total_error 0
                   (set_number_of_outliers 0
                      (set_number_of_inliers 0
                         (set_b (replicate 6 0%Q) (set_H (mzero 6 6) a)))))).
  generalize (set_total_error 0
                (set_number_of_outliers 0
                   (set_number_of_inliers 0
                      (set_b (replicate 6 0%Q) (set_H (mzero 6 6) a))))).
  induction indices as [|index indices IH]; intros s; simpl; [split; reflexivity|].
  destruct (IH (linearize_point ignore_outliers_ index s)) as [Hp Hc].
  destruct (linearize_point_parameters ignore_outliers_ index s) as [Hp' Hc'].
  split; congruence.
Qed.

Lemma oneRound_parameters ignore_outliers_ a :
  parameters (oneRound ignore_outliers_ a) = parameters a
  /\ _has_system_converged (oneRound ignore_outliers_ a) = _has_system_converged a.
Proof.
  unfold oneRound. cbn.
  apply linearize_parameters.
Qed.

Lemma kept_parameters k a :
  parameters (kept k a) = parameters a
  /\ _has_system_converged (kept k a) = _has_system_converged a.
Proof.
  induction k as [|k [IHp IHc]]; [split; reflexivity|].
  change (kept (S k) a) with (oneRound false (kept k a)).
  destruct (oneRound_parameters false (kept k a)) as [Hp Hc].
  split; congruence.
Qed.

Lemma kept_shift k a : kept (S k) a = kept k (oneRound false a).
Proof. unfold kept. apply Nat.iter_succ_r. Qed.

Lemma settles_shift start a k :
  settles start a (S k) = settles (_total_error (oneRound false a)) (oneRound false a) k.
Proof.
  unfold settles, previous_error.
  rewrite (proj1 (oneRound_parameters false a)).
  rewrite !kept_shift.
  destruct k; [reflexivity|].
  rewrite <- kept_shift. reflexivity.
Qed.

Lemma first_settled_shift start a k remaining :
  first_settled start a (S k) remaining
  = option_map S
      (first_settled (_total_error (oneRound false a)) (oneRound false a) k remaining).
Proof.
  revert k. induction remaining as [|remaining IH]; intros k; [reflexivity|].
  simpl. rewrite settles_shift.
  destruct (settles _ _ k); [reflexivity|]. apply IH.
Qed.

(** The loop in closed form. *)
Lemma converge_loop_closed remaining :
  forall iteration total_error_previous a rounds,
    (N.of_nat remaining + iteration = _maximum_number_of_iterations (parameters a))%N ->
    converge_loop remaining iteration total_error_previous a rounds
    = match first_settled total_error_previous a 0 remaining with
      | Some k =>
          (polished (kept (S k) a), rounds ++ replicate (S k) false ++ [true; true; true])
      | None =>
          (match remaining with
           | O => a
           | S _ => set_has_system_converged false (kept remaining a)
           end,
           rounds ++ replicate remaining false)
      end.
Proof.
  induction remaining as [|remaining IH];
    intros iteration total_error_previous a rounds Hcount.
  - simpl. rewrite app_nil_r. reflexivity.
  - cbn [converge_loop first_settled].
    change (settles total_error_previous a 0)
      with (real_ltb (Qabs (total_error_previous - _total_error (oneRound false a)))
              (_error_delta_for_convergence (parameters a))).
    destruct (oneRound_parameters false a) as [Hparameters _].
    rewrite Hparameters.
    destruct (real_ltb _ _).
    + rewrite <- app_assoc. reflexivity.
    + rewrite first_settled_shift.
      destruct remaining as [|remaining'].
      * rewrite (proj2 (N.eqb_eq _ _)) by lia.
        reflexivity.
      * rewrite (proj2 (N.eqb_neq _ _)) by lia.
        rewrite IH by (rewrite Hparameters; lia).
        destruct (first_settled _ _ 0 (S remaining')) as [k|]; simpl.
        -- rewrite <- kept_shift, <- app_assoc. reflexivity.
        -- rewrite <- !app_assoc. f_equal.
           change (oneRound false (Nat.iter remaining' (oneRound false) (oneRound false a)))
             with (kept (S remaining') (oneRound false a)).
           rewrite <- kept_shift. reflexivity.
Qed.

(** [first_settled] finds the first round that settles. *)
Lemma first_settled_spec start a remaining :
  forall k,
    match first_settled start a k remaining with
    | Some found =>
        (k <= found < k + remaining)%nat
        /\ settles start a found = true
        /\ forall j, (k <= j < found)%nat -> settles start a j = false
    | None => forall j, (k <= j < k + remaining)%nat -> settles start a j = false
    end.
Proof.
  induction remaining as [|remaining IH]; intros k; simpl.
  - intros j Hj. lia.
  - destruct (settles start a k) eqn:Hk.
    + split; [lia|]. split; [exact Hk|]. intros j Hj. lia.
    + specialize (IH (S k)).
      destruct (first_settled start a (S k) remaining) as [found|].
      * destruct IH as (Hrange & Hfound & Hbefore).
        split; [lia|]. split; [exact Hfound|].
        intros j Hj. destruct (decide (j = k)) as [->|Hne]; [exact Hk|].
        apply Hbefore. lia.
      * intros j Hj. destruct (decide (j = k)) as [->|Hne]; [exact Hk|].
        apply IH. lia.
Qed.

Lemma wrapped_fields (a : UVDAligner) :
  _camera_to_world (wrapped a) = transform_inverse (_world_to_camera (wrapped a))
  /\ _robot_to_world (wrapped a)
     = transform_compose (_camera_to_world (wrapped a))
         (robotToCamera (cameraLeft (_frame (wrapped a))))
  /\ _world_to_robot (wrapped a) = transform_inverse (_robot_to_world (wrapped a))
  /\ _has_system_converged (wrapped a) = _has_system_converged a
  /\ _information_matrix (wrapped a) = _information_matrix a
  /\ _H (wrapped a) = _H a.
Proof. repeat split. Qed.

Lemma polished_fields (a : UVDAligner) :
  _has_system_converged (polished a) = true
  /\ _information_matrix (polished a) = _H (polished a).
Proof.
  unfold polished. cbv zeta.
  generalize (oneRound true (oneRound true (oneRound true a))). intros p.
  split; reflexivity.
Qed.

Lemma count_kept_rounds (n : nat) (l : list bool) :
  length (List.filter negb (replicate n false ++ l))
  = (n + length (List.filter negb l))%nat.
Proof.
  induction n as [|n IH]; [reflexivity|].
  cbn [replicate app List.filter negb length]. rewrite IH. reflexivity.
Qed.

End Converge.

Section ConvergeClaim.

Context `{kernels : Kernels}.

(** C4, as the code has it.  [converge] calls [oneRound(false)] at most
    [_maximum_number_of_iterations] times.  At the first round whose total
    error differs from the one of the round before (from 0 for the first
    round) by strictly less than [_error_delta_for_convergence], it calls
    [oneRound(true)] exactly three times, stores the [H] it then has as the
    information matrix, sets the converged flag and stops.  When no round
    settles, it has called [oneRound(false)] as often as the cap says and, if
    the cap is at least one, the flag is cleared; with a cap of zero the loop
    body never runs and the flag keeps its value.  In every case the
    camera-to-world transform, the robot-to-world transform and its inverse
    are recomputed from the final world-to-camera estimate. *)
Theorem converge_rounds (a : UVDAligner) :
  let cap := N.to_nat (_maximum_number_of_iterations (parameters a)) in
  let a' := (converge a).1 in
  let rounds := (converge a).2 in
  (length (List.filter negb rounds) <= cap)%nat
  /\ match first_settled 0 a 0 cap with
     | Some k =>
         (k < cap)%nat
         /\ settles 0 a k = true
         /\ (forall j, (j < k)%nat -> settles 0 a j = false)
         /\ rounds = replicate (S k) false ++ [true; true; true]
         /\ a' = wrapped (polished (kept (S k) a))
         /\ _has_system_converged a' = true
         /\ _information_matrix a' = _H a'
     | None =>
         (forall j, (j < cap)%nat -> settles 0 a j = false)
         /\ rounds = replicate cap false
         /\ a' = wrapped (match cap with
                          | O => a
                          | S _ => set_has_system_converged false (kept cap a)
                          end)
         /\ ((0 < cap)%nat -> _has_system_converged a' = false)
         /\ (cap = 0%nat -> _has_system_converged a' = _has_system_converged a)
     end
  /\ _camera_to_world a' = transform_inverse (_world_to_camera a')
  /\ _robot_to_world a'
     = transform_compose (_camera_to_world a') (robotToCamera (cameraLeft (_frame a')))
  /\ _world_to_robot a' = transform_inverse (_robot_to_world a').
Proof.
  intros cap a' rounds.
  assert (Hclosed :
            converge a
            = match first_settled 0 a 0 cap with
              | Some k =>
                  (wrapped (polished (kept (S k) a)),
                   replicate (S k) false ++ [true; true; true])
              | None =>
                  (wrapped (match cap with
                            | O => a
                            | S _ => set_has_system_converged false (kept cap a)
                            end),
                   replicate cap false)
              end).
  { unfold converge. fold cap.
    rewrite converge_loop_closed by (unfold cap; lia).
    destruct (first_settled 0 a 0 cap); reflexivity. }
  subst a' rounds. rewrite Hclosed. clear Hclosed.
  pose proof (first_settled_spec 0 a cap 0) as Hfirst.
  destruct (first_settled 0 a 0 cap) as [k|]; cbn [fst snd].
  - destruct Hfirst as (Hrange & Hsettles & Hbefore).
    destruct (polished_fields (kept (S k) a)) as [Hflag Hinformation].
    revert Hflag Hinformation.
    generalize (polished (kept (S k) a)). intros p Hflag Hinformation.
    destruct (wrapped_fields p) as (Hc & Hr & Hw & Hf & Hi & HH).
    split; [rewrite count_kept_rounds; cbn [List.filter negb length]; lia|].
    split; [|split; [exact Hc|split; [exact Hr|exact Hw]]].
    split; [lia|]. split; [exact Hsettles|].
    split; [intros j Hj; apply Hbefore; lia|].
    split; [reflexivity|]. split; [reflexivity|].
    split; [rewrite Hf; exact Hflag|].
    rewrite Hi, HH. exact Hinformation.
  - assert (Hflag :
              ((0 < cap)%nat ->
               _has_system_converged
                 match cap with
                 | O => a
                 | S _ => set_has_system_converged false (kept cap a)
                 end = false)
              /\ (cap = 0%nat ->
                  _has_system_converged
                    match cap with
                    | O => a
                    | S _ => set_has_system_converged false (kept cap a)
                    end = _has_system_converged a)).
    { split; [intros Hcap; destruct cap; [lia|reflexivity]|intros ->; reflexivity]. }
    revert Hflag.
    generalize (match cap with
                | O => a
                | S _ => set_has_system_converged false (kept cap a)
                end).
    intros p [Hpositive Hzero].
    destruct (wrapped_fields p) as (Hc & Hr & Hw & Hf & Hi & HH).
    split; [rewrite <- (app_nil_r (replicate cap false)), count_kept_rounds;
            cbn [List.filter length]; lia|].
    split; [|split; [exact Hc|split; [exact Hr|exact Hw]]].
    split; [intros j Hj; apply Hfirst; lia|].
    split; [reflexivity|]. split; [reflexivity|].
    split.
    + intros Hcap. rewrite Hf. apply Hpositive. exact Hcap.
    + intros Hcap. rewrite Hf. apply Hzero. exact Hcap.
Qed.

End ConvergeClaim.

(** A run whose first round already settles (the threshold is 1000, the
    total error of the first round 100). *)
Example example_first_round_settles :
  _total_error (@oneRound still_kernels false (example_aligner 10 1000 false)) == 100
  /\ @first_settled still_kernels 0 (example_aligner 10 1000 false) 0 10 = Some 0%nat.
Proof. vm_compute. repeat split. Qed.

Lemma converge_rounds_witness :
  let a := example_aligner 10 1000 false in
  @first_settled still_kernels 0 a 0
    (N.to_nat (_maximum_number_of_iterations (parameters a))) = Some 0%nat
  /\ (@converge still_kernels a).2 = replicate 1 false ++ [true; true; true]
  /\ _has_system_converged (@converge still_kernels a).1 = true
  /\ _information_matrix (@converge still_kernels a).1
     = _H (@converge still_kernels a).1.
Proof.
  assert (Hfirst :
            @first_settled still_kernels 0 (example_aligner 10 1000 false) 0
              (N.to_nat (_maximum_number_of_iterations
                           (parameters (example_aligner 10 1000 false))))
            = Some 0%nat) by (vm_compute; reflexivity).
  split; [exact Hfirst|].
  pose proof (@converge_rounds still_kernels (example_aligner 10 1000 false)) as Hrounds.
  cbv zeta in Hrounds. rewrite Hfirst in Hrounds.
  destruct Hrounds as (_ & (_ & _ & _ & Hr & _ & Hflag & Hinfo) & _).
  split; [exact Hr|]. split; [exact Hflag|exact Hinfo].
Defined.

(** Counterexample to C4 as stated, for a cap of zero: no round runs,
    no round settles, and the flag an earlier run has set stays set. *)
Lemma zero_iterations_keep_the_converged_flag :
  let a := example_aligner 0 1000 true in
  _maximum_number_of_iterations (parameters a) = 0%N
  /\ _has_system_converged a = true
  /\ (@converge still_kernels a).2 = []
  /\ _has_system_converged (@converge still_kernels a).1 = true.
Proof. vm_compute. repeat split. Qed.

(** * Further properties of the relocalizer *)

(** ** The candidate map *)

Section GroupingContents.

Implicit Types (m : CandidateMap) (key k : Identifier) (c : Candidate.t).

Lemma candidate_map_at_None key m :
  Forall (fun k => key <> k) (map fst m) -> candidate_map_at key m = None.
Proof.
  induction m as [|[k cs] m IH]; simpl; intros Hm; [reflexivity|].
  apply Forall_cons in Hm. destruct Hm as [Hk Hm].
  rewrite (proj2 (N.eqb_neq _ _)) by exact Hk. apply IH. exact Hm.
Qed.

Lemma candidate_map_at_add_same key c m :
  StronglySorted N.lt (map fst m) ->
  candidate_map_at key (candidate_map_add key c m)
  = Some (default [] (candidate_map_at key m) ++ [c]).
Proof.
  induction m as [|[k cs] m IH]; simpl; intros Hs.
  - rewrite N.eqb_refl. reflexivity.
  - inversion Hs as [|? ? Hrest Hall]; subst.
    destruct (N.eqb_spec key k) as [->|Hne]; simpl.
    + rewrite N.eqb_refl. reflexivity.
    + destruct (N.ltb_spec key k) as [Hlt|Hge]; simpl.
      * rewrite ?N.eqb_refl, ?(proj2 (N.eqb_neq _ _) Hne).
        rewrite candidate_map_at_None; [reflexivity|].
        eapply Forall_impl; [exact Hall|]. intros x Hx. simpl in Hx. lia.
      * rewrite ?(proj2 (N.eqb_neq _ _) Hne). apply IH. exact Hrest.
Qed.

Lemma candidate_map_at_add_other key k c m :
  key <> k -> candidate_map_at key (candidate_map_add k c m) = candidate_map_at key m.
Proof.
  intros Hne. induction m as [|[k' cs] m IH]; simpl.
  - rewrite (proj2 (N.eqb_neq _ _)) by exact Hne. reflexivity.
  - destruct (N.eqb_spec k k') as [->|Hne']; simpl.
    + rewrite (proj2 (N.eqb_neq _ _)) by exact Hne. reflexivity.
    + destruct (k <? k')%N; simpl.
      * rewrite (proj2 (N.eqb_neq _ _)) by exact Hne. reflexivity.
      * destruct (key =? k')%N; [reflexivity|exact IH].
Qed.

Lemma matches_of_landmark_snoc key ms match_ :
  matches_of_landmark key (ms ++ [match_])
  = matches_of_landmark key ms
    ++ (if decide (identifier (Match.object_query match_) = key) then [match_] else []).
Proof.
  unfold matches_of_landmark. rewrite filter_app. reflexivity.
Qed.

(** What is stored under a key, for a grouping that starts from a map that
    already holds the matches [done]. *)
Lemma fold_candidate_map_at (ms : list Match.t) :
  forall done m,
    StronglySorted N.lt (map fst m) ->
    (forall key,
        candidate_map_at key m
        = match matches_of_landmark key done with
          | [] => None
          | found => Some (map candidate_of_match found)
          end) ->
    forall key,
      candidate_map_at key
        (fold_left
           (fun m match_ =>
              candidate_map_add (identifier (Match.object_query match_))
                {| Candidate.query := Match.object_query match_;
                   Candidate.reference := Match.object_reference match_;
                   Candidate.distance := Match.distance match_ |} m)
           ms m)
      = match matches_of_landmark key (done ++ ms) with
        | [] => None
        | found => Some (map candidate_of_match found)
        end.
Proof.
  induction ms as [|match_ ms IH]; intros done m Hs Hm key.
  - rewrite app_nil_r. apply Hm.
  - cbn [fold_left].
    replace (done ++ match_ :: ms) with ((done ++ [match_]) ++ ms)
      by (rewrite <- app_assoc; reflexivity).
    apply IH; [apply candidate_map_add_sorted; exact Hs|].
    clear key. intros key. rewrite matches_of_landmark_snoc.
    destruct (decide (identifier (Match.object_query match_) = key)) as [Heq|Hne].
    + rewrite Heq, candidate_map_at_add_same by exact Hs.
      rewrite Hm.
      destruct (matches_of_landmark key done) as [|first found]; [reflexivity|].
      cbn [app default map]. rewrite map_app. reflexivity.
    + rewrite candidate_map_at_add_other by congruence.
      rewrite app_nil_r. apply Hm.
Qed.

Lemma group_matches_at (multiple_matches : list Match.t) (key : Identifier) :
  candidate_map_at key (group_matches multiple_matches)
  = match matches_of_landmark key multiple_matches with
    | [] => None
    | found => Some (map candidate_of_match found)
    end.
Proof.
  apply (fold_candidate_map_at multiple_matches [] []); [constructor|].
  intros key'. reflexivity.
Qed.

Lemma group_matches_sorted (multiple_matches : list Match.t) :
  StronglySorted N.lt (map fst (group_matches multiple_matches)).
Proof. apply (fold_candidate_map_add multiple_matches []); constructor. Qed.

(** An entry of a sorted map is what a lookup of its key finds. *)
Lemma candidate_map_at_entry m key (candidates : list Candidate.t) :
  StronglySorted N.lt (map fst m) ->
  (key, candidates) ∈ m -> candidate_map_at key m = Some candidates.
Proof.
  intros Hsorted Hin. induction m as [|[k cs'] m IH]; [inversion Hin|].
  simpl in Hsorted. inversion Hsorted as [|? ? Hrest Hall]; subst.
  apply elem_of_cons in Hin. destruct Hin as [Heq|Hin].
  - inversion Heq; subst. simpl. rewrite N.eqb_refl. reflexivity.
  - simpl. destruct (N.eqb_spec key k) as [->|Hne]; [|apply IH; assumption].
    exfalso. rewrite Forall_forall in Hall.
    assert (Hk : k ∈ map fst m) by (apply (list_elem_of_fmap_2 fst _ _ Hin)).
    specialize (Hall k Hk). lia.
Qed.

(** Every entry holds the matches of its key, and at least one. *)
Lemma group_matches_entries (multiple_matches : list Match.t) :
  Forall (fun entry =>
            entry.2 <> []
            /\ entry.2
               = map candidate_of_match
                   (matches_of_landmark entry.1 multiple_matches))
    (group_matches multiple_matches).
Proof.
  apply Forall_forall. intros [key cs] Hin.
  pose proof (candidate_map_at_entry _ _ _ (group_matches_sorted multiple_matches) Hin)
    as Hfound.
  rewrite group_matches_at in Hfound. simpl.
  destruct (matches_of_landmark key multiple_matches) as [|first found];
    [discriminate|].
  inversion Hfound; subst. split; [discriminate|reflexivity].
Qed.

End GroupingContents.

(** X1. Grouping (lines 72-92) is a faithful index of the match vector: the
    keys of the candidate map are strictly ascending, and looking a query
    landmark identifier up yields exactly the matches of that landmark, as
    candidates and in the order of the match vector, or fails when the
    landmark has no match; no entry is empty. *)
Theorem group_matches_lookup (multiple_matches : list Match.t) :
  StronglySorted N.lt (map fst (group_matches multiple_matches))
  /\ (forall key,
        candidate_map_at key (group_matches multiple_matches)
        = match matches_of_landmark key multiple_matches with
          | [] => None
          | found => Some (map candidate_of_match found)
          end)
  /\ Forall (fun entry =>
               entry.2 <> []
               /\ entry.2
                  = map candidate_of_match
                      (matches_of_landmark entry.1 multiple_matches))
       (group_matches multiple_matches).
Proof.
  split; [|split].
  - apply group_matches_sorted.
  - intros key. apply group_matches_at.
  - apply group_matches_entries.
Qed.

(** ** Votes *)

Section Ties.

Implicit Types (mask : gset N) (counts : gmultiset N) (id : Identifier).
Implicit Types (done rest : list Candidate.t) (r : Relocalizer).

Lemma first_reached_later mask done c match_best count_best :
  first_reached mask done match_best count_best ->
  first_reached mask (done ++ [c]) match_best count_best.
Proof.
  destruct match_best as [best|]; [|trivial].
  intros (before & after & -> & Hv & Hlt).
  exists before, (after ++ [c]). split; [|split; assumption].
  rewrite <- app_assoc. reflexivity.
Qed.

Lemma count_candidates_first_reached mask rest :
  forall done counts match_best count_best,
    counting_invariant mask done counts match_best count_best ->
    first_reached mask done match_best count_best ->
    first_reached mask (done ++ rest)
      (count_candidates mask rest counts match_best count_best).1
      (count_candidates mask rest counts match_best count_best).2.
Proof.
  induction rest as [|c rest IH]; intros done counts match_best count_best Hinv Hfirst.
  - rewrite app_nil_r. exact Hfirst.
  - replace (done ++ c :: rest) with ((done ++ [c]) ++ rest)
      by (rewrite <- app_assoc; reflexivity).
    simpl. case_bool_decide as Hmask.
    + apply IH; [apply counting_invariant_masked; assumption|].
      apply first_reached_later. exact Hfirst.
    + pose proof (counting_invariant_counted _ _ c _ _ _ Hinv Hmask) as Hstep.
      simpl in Hstep.
      destruct (N.ltb_spec count_best
                  (N.of_nat
                     (multiplicity (identifier (Candidate.reference c))
                        ({[+ identifier (Candidate.reference c) +]} ⊎ counts))))
        as [Hlt|Hge].
      * apply IH; [exact Hstep|].
        exists done, []. split; [reflexivity|].
        destruct Hstep as (Hcounts' & _ & _).
        destruct Hinv as (_ & Hmax & _).
        split; [symmetry; apply Hcounts'|].
        intros id. specialize (Hmax id). lia.
      * apply IH; [exact Hstep|].
        apply first_reached_later. exact Hfirst.
Qed.

End Ties.

(** X2. Ties in [_getCorrespondenceNN] (lines 183-196) go to the reference
    that reaches the winning count first: the returned correspondence takes
    its query and reference landmark from the candidate at which the running
    count of a reference became the returned vote count, and before that
    candidate no reference had reached that count. *)
Theorem getCorrespondenceNN_first_to_reach
    (matches_ : list Candidate.t) (r r' : Relocalizer) (c : Correspondence.t) :
  _getCorrespondenceNN matches_ r = (Some c, r') ->
  let mask := _mask_id_references_for_correspondences r in
  exists before best after,
    matches_ = before ++ best :: after
    /\ Correspondence.query c = Candidate.query best
    /\ Correspondence.reference c = Candidate.reference best
    /\ votes mask (before ++ [best]) (identifier (Candidate.reference best))
       = Correspondence.matching_count c
    /\ forall id, (votes mask before id < Correspondence.matching_count c)%N.
Proof.
  intros Hcall mask.
  pose proof (count_candidates_first_reached mask matches_ [] ∅ None 0%N
                (counting_invariant_initial mask) I) as Hfirst.
  simpl in Hfirst. unfold _getCorrespondenceNN in Hcall. fold mask in Hcall.
  destruct (count_candidates mask matches_ ∅ None 0%N) as [match_best count_best].
  simpl in Hfirst.
  destruct match_best as [best|]; [|discriminate].
  destruct (_ <? _)%N; [|discriminate].
  inversion Hcall; subst. simpl.
  destruct Hfirst as (before & after & Hsplit & Hv & Hlt).
  exists before, best, after. repeat split; assumption.
Qed.

Lemma getCorrespondenceNN_first_to_reach_witness :
  let r := Relocalizer_new (example_parameters 1 50 1 1) in
  let c := {| Correspondence.query := example_landmark 1;
              Correspondence.reference := example_landmark 11;
              Correspondence.matching_count := 2;
              Correspondence.matching_ratio := (2 # 4)%Q |} in
  _getCorrespondenceNN tied_candidates r = (Some c, with_mask {[ 11%N ]} r)
  /\ exists before best after,
      tied_candidates = before ++ best :: after
      /\ Correspondence.query c = Candidate.query best
      /\ Correspondence.reference c = Candidate.reference best
      /\ votes ∅ (before ++ [best]) (identifier (Candidate.reference best)) = 2%N
      /\ forall id, (votes ∅ before id < 2)%N.
Proof.
  assert (Hcall :
    _getCorrespondenceNN tied_candidates (Relocalizer_new (example_parameters 1 50 1 1))
    = (Some {| Correspondence.query := example_landmark 1;
               Correspondence.reference := example_landmark 11;
               Correspondence.matching_count := 2;
               Correspondence.matching_ratio := (2 # 4)%Q |},
       with_mask {[ 11%N ]} (Relocalizer_new (example_parameters 1 50 1 1))))
    by (vm_compute; reflexivity).
  split; [exact Hcall|].
  exact (getCorrespondenceNN_first_to_reach _ _ _ _ Hcall).
Defined.

Lemma votes_le_length (mask : gset N) (matches_ : list Candidate.t) (id : Identifier) :
  (votes mask matches_ id <= N.of_nat (length matches_))%N.
Proof.
  unfold votes. case_bool_decide; [lia|].
  pose proof (length_filter (fun c => identifier (Candidate.reference c) = id) matches_).
  lia.
Qed.

Lemma highest_count_le_length (mask : gset N) (matches_ : list Candidate.t) :
  (highest_count mask matches_ <= N.of_nat (length matches_))%N.
Proof.
  unfold highest_count.
  apply (foldr_max_le
           (fun c => votes mask matches_ (identifier (Candidate.reference c)))).
  intros c. apply votes_le_length.
Qed.

Lemma count_ratio_bounds (part whole : N) :
  (0 < part)%N -> (part <= whole)%N ->
  (0 < real_of_count part / real_of_count whole)%Q
  /\ (real_of_count part / real_of_count whole <= 1)%Q.
Proof.
  intros Hpos Hle. unfold real_of_count.
  assert (Hw : (0 < inject_Z (Z.of_N whole))%Q)
    by (rewrite <- (Zlt_Qlt 0); lia).
  assert (Hp : (0 < inject_Z (Z.of_N part))%Q)
    by (rewrite <- (Zlt_Qlt 0); lia).
  split.
  - apply Qlt_shift_div_l; [exact Hw|]. rewrite Qmult_0_l. exact Hp.
  - apply Qle_shift_div_r; [exact Hw|]. rewrite Qmult_1_l.
    rewrite <- Zle_Qle. lia.
Qed.

(** X3. A correspondence returned by [_getCorrespondenceNN] (lines 199-207)
    has more votes than [minimum_matches_per_correspondence] and at most as
    many as there are candidates, and a confidence in (0, 1]. *)
Theorem getCorrespondenceNN_bounds
    (matches_ : list Candidate.t) (r r' : Relocalizer) (c : Correspondence.t) :
  _getCorrespondenceNN matches_ r = (Some c, r') ->
  (minimum_matches_per_correspondence (_parameters r)
   < Correspondence.matching_count c)%N
  /\ (Correspondence.matching_count c <= N.of_nat (length matches_))%N
  /\ (0 < Correspondence.matching_ratio c)%Q
  /\ (Correspondence.matching_ratio c <= 1)%Q.
Proof.
  intros Hcall.
  pose proof (getCorrespondenceNN_cases matches_ r) as Hcases. simpl in Hcases.
  pose proof (highest_count_le_length
                (_mask_id_references_for_correspondences r) matches_) as Hle.
  destruct (N.ltb_spec (minimum_matches_per_correspondence (_parameters r))
              (highest_count (_mask_id_references_for_correspondences r) matches_))
    as [Hlt|Hge]; [|congruence].
  destruct Hcases as (winner & _ & _ & _ & Hcall').
  rewrite Hcall' in Hcall. inversion Hcall; subst. simpl.
  split; [exact Hlt|]. split; [exact Hle|].
  apply count_ratio_bounds; [lia|exact Hle].
Qed.

Lemma getCorrespondenceNN_bounds_witness :
  let r := Relocalizer_new (example_parameters 1 50 1 1) in
  let c := {| Correspondence.query := example_landmark 1;
              Correspondence.reference := example_landmark 11;
              Correspondence.matching_count := 2;
              Correspondence.matching_ratio := (2 # 3)%Q |} in
  _getCorrespondenceNN example_candidates r = (Some c, with_mask {[ 11%N ]} r)
  /\ (1 < 2)%N /\ (2 <= 3)%N /\ (0 < 2 # 3)%Q /\ (2 # 3 <= 1)%Q.
Proof.
  assert (Hcall :
    _getCorrespondenceNN example_candidates
      (Relocalizer_new (example_parameters 1 50 1 1))
    = (Some {| Correspondence.query := example_landmark 1;
               Correspondence.reference := example_landmark 11;
               Correspondence.matching_count := 2;
               Correspondence.matching_ratio := (2 # 3)%Q |},
       with_mask {[ 11%N ]} (Relocalizer_new (example_parameters 1 50 1 1))))
    by (vm_compute; reflexivity).
  split; [exact Hcall|].
  exact (getCorrespondenceNN_bounds _ _ _ _ Hcall).
Defined.

Lemma foldr_max_le_elem {A} (v : A -> N) (l : list A) (bound : N) :
  (forall x, x ∈ l -> (v x <= bound)%N) -> (foldr N.max 0%N (map v l) <= bound)%N.
Proof.
  induction l as [|x l IHl]; simpl; intros Hv; [lia|].
  apply N.max_lub.
  - apply Hv. apply elem_of_cons. left. reflexivity.
  - apply IHl. intros y Hy. apply Hv. apply elem_of_cons. right. exact Hy.
Qed.

(** X4. Once every candidate of a query landmark names a reference that is
    already in the used-reference mask (line 186), the landmark gets no
    correspondence, whatever the vote threshold, and the relocalizer is left
    as it was. *)
Theorem getCorrespondenceNN_all_references_used
    (matches_ : list Candidate.t) (r : Relocalizer) :
  Forall (fun c => identifier (Candidate.reference c)
                   ∈ _mask_id_references_for_correspondences r) matches_ ->
  _getCorrespondenceNN matches_ r = (None, r).
Proof.
  intros Hused.
  pose proof (getCorrespondenceNN_cases matches_ r) as Hcases. simpl in Hcases.
  assert (Hzero :
    highest_count (_mask_id_references_for_correspondences r) matches_ = 0%N).
  { apply N.le_0_r. unfold highest_count.
    apply (foldr_max_le_elem
             (fun c => votes (_mask_id_references_for_correspondences r) matches_
                         (identifier (Candidate.reference c)))).
    rewrite Forall_forall in Hused.
    intros c Hc. unfold votes.
    rewrite bool_decide_eq_true_2 by (apply Hused; exact Hc). lia. }
  rewrite Hzero in Hcases.
  rewrite (proj2 (N.ltb_ge _ 0%N)) in Hcases by lia. exact Hcases.
Qed.

Lemma getCorrespondenceNN_all_references_used_witness :
  let r := with_mask {[ 11%N; 12%N ]} (Relocalizer_new (example_parameters 1 50 1 0)) in
  Forall (fun c => identifier (Candidate.reference c)
                   ∈ _mask_id_references_for_correspondences r) example_candidates
  /\ _getCorrespondenceNN example_candidates r = (None, r).
Proof.
  assert (Hused :
    Forall (fun c => identifier (Candidate.reference c)
                     ∈ _mask_id_references_for_correspondences
                         (with_mask {[ 11%N; 12%N ]}
                            (Relocalizer_new (example_parameters 1 50 1 0))))
      example_candidates).
  { repeat constructor; simpl; set_solver. }
  split; [exact Hused|].
  exact (getCorrespondenceNN_all_references_used _ _ Hused).
Defined.

(** ** Runs of calls *)

Section Run.

Context `{matcher : PlaceMatcher}.

(** One call from a relocalizer whose local maps and descriptor sets are in
    step. *)
Lemma detectClosures_in_step (local_map_query : LocalMap) (r : Relocalizer) :
  (1 <= preliminary_minimum_interspace_queries (_parameters r))%N ->
  length (_added_local_maps r) = length (_place_database r) ->
  appearances local_map_query <> [] ->
  exists r' trace,
    detectClosures (Some local_map_query) r = Returned (r', trace)
    /\ _parameters r' = _parameters r
    /\ _added_local_maps r' = _added_local_maps r ++ [local_map_query]
    /\ _place_database r' = _place_database r ++ [appearances local_map_query].
Proof.
  intros Hone Hstep Hquery. unfold detectClosures.
  cbn [with_added_local_maps _place_database _parameters].
  destruct (N.ltb_spec (tree_size (_place_database r))
              (preliminary_minimum_interspace_queries (_parameters r))) as [Hwarm|Hphase].
  - eexists _, _. split; [reflexivity|]. repeat split.
  - unfold tree_matchAndAdd.
    cbn [with_place_database with_added_local_maps _parameters _place_database].
    rewrite evaluate_references_exact.
    + eexists _, _. split; [reflexivity|]. repeat split.
    + exact Hquery.
    + apply Forall_forall. intros index Hindex. apply elem_of_seq in Hindex.
      cbn [with_place_database with_added_local_maps _added_local_maps].
      unfold tree_size in *.
      rewrite length_map, !length_app in *. simpl in *. lia.
Qed.

Lemma detectClosures_all_in_step (local_maps : list (option LocalMap)) :
  forall r,
    (1 <= preliminary_minimum_interspace_queries (_parameters r))%N ->
    length (_added_local_maps r) = length (_place_database r) ->
    Forall (fun local_map =>
              forall local_map_query,
                local_map = Some local_map_query ->
                appearances local_map_query <> []) local_maps ->
    exists r' trace,
      detectClosures_all local_maps r = Returned (r', trace)
      /\ _parameters r' = _parameters r
      /\ _added_local_maps r' = _added_local_maps r ++ passed_local_maps local_maps
      /\ _place_database r'
         = _place_database r ++ map appearances (passed_local_maps local_maps).
Proof.
  induction local_maps as [|[local_map_query|] local_maps IH];
    intros r Hone Hstep Hquery.
  - exists r, []. simpl. rewrite !app_nil_r. repeat split.
  - apply Forall_cons in Hquery. destruct Hquery as [Hthis Hquery].
    destruct (detectClosures_in_step local_map_query r Hone Hstep
                (Hthis _ eq_refl)) as (r1 & trace1 & Hcall & Hp & Ha & Hd).
    destruct (IH r1) as (r' & trace' & Hrest & Hp' & Ha' & Hd').
    + rewrite Hp. exact Hone.
    + rewrite Ha, Hd, !length_app. simpl. lia.
    + exact Hquery.
    + exists r', (trace1 ++ trace').
      cbn [detectClosures_all]. rewrite Hcall, Hrest.
      split; [reflexivity|].
      rewrite Hp', Hp, Ha', Ha, Hd', Hd.
      unfold passed_local_maps. cbn [omap id]. simpl.
      rewrite <- !app_assoc. repeat split.
  - apply Forall_cons in Hquery. destruct Hquery as [_ Hquery].
    destruct (IH r Hone Hstep Hquery) as (r' & trace' & Hrest & Hp' & Ha' & Hd').
    exists r', trace'. cbn [detectClosures_all detectClosures].
    rewrite Hrest. split; [reflexivity|]. repeat split; assumption.
Qed.

(** X5. A run from a new relocalizer with an interspace of at least one, in
    which every local map passed has an appearance, never fails: no call
    ends in the [out_of_range] of line 59 or reads [_added_local_maps]
    beyond its end (lines 69 and 115).  After the run [_added_local_maps]
    holds the local maps that were not null, in the order of the calls, the
    place database holds their appearances, index by index, and the
    parameters are as given. *)
Theorem detectClosures_run_is_safe
    (parameters_ : RelocalizerParameters) (local_maps : list (option LocalMap)) :
  (1 <= preliminary_minimum_interspace_queries parameters_)%N ->
  Forall (fun local_map =>
            forall local_map_query,
              local_map = Some local_map_query ->
              appearances local_map_query <> []) local_maps ->
  exists r' trace,
    detectClosures_all local_maps (Relocalizer_new parameters_) = Returned (r', trace)
    /\ _parameters r' = parameters_
    /\ _added_local_maps r' = passed_local_maps local_maps
    /\ _place_database r' = map appearances (passed_local_maps local_maps).
Proof.
  intros Hone Hquery.
  exact (detectClosures_all_in_step local_maps (Relocalizer_new parameters_)
           Hone eq_refl Hquery).
Qed.

End Run.

Lemma detectClosures_run_is_safe_witness :
  let local_maps := [Some place_a; None; Some place_b; Some place_c] in
  (1 <= preliminary_minimum_interspace_queries run_parameters)%N
  /\ Forall (fun local_map =>
               forall local_map_query,
                 local_map = Some local_map_query ->
                 appearances local_map_query <> []) local_maps
  /\ exists r' trace,
      @detectClosures_all exhaustive_matcher local_maps (Relocalizer_new run_parameters)
      = Returned (r', trace)
      /\ _parameters r' = run_parameters
      /\ _added_local_maps r' = [place_a; place_b; place_c]
      /\ _place_database r'
         = [appearances place_a; appearances place_b; appearances place_c].
Proof.
  assert (Hone : (1 <= preliminary_minimum_interspace_queries run_parameters)%N)
    by (simpl; lia).
  assert (Hquery :
    Forall (fun local_map =>
              forall local_map_query,
                local_map = Some local_map_query ->
                appearances local_map_query <> [])
      [Some place_a; None; Some place_b; Some place_c]).
  { repeat constructor; intros q Hq; inversion Hq; subst; discriminate. }
  split; [exact Hone|]. split; [exact Hquery|].
  exact (@detectClosures_run_is_safe exhaustive_matcher run_parameters
           [Some place_a; None; Some place_b; Some place_c] Hone Hquery).
Defined.

(** ** What a closure stands for *)

Section Backing.

Implicit Types (r : Relocalizer) (entries : CandidateMap).

Lemma getCorrespondenceNN_some (matches_ : list Candidate.t) r r' c :
  _getCorrespondenceNN matches_ r = (Some c, r') ->
  _parameters r' = _parameters r
  /\ (exists winner,
        winner ∈ matches_
        /\ Correspondence.query c = Candidate.query winner
        /\ Correspondence.reference c = Candidate.reference winner)
  /\ Correspondence.matching_count c
     = N.of_nat
         (length (filter (fun k => identifier (Candidate.reference k)
                                   = identifier (Correspondence.reference c))
                    matches_))
  /\ (minimum_matches_per_correspondence (_parameters r)
      < Correspondence.matching_count c)%N.
Proof.
  intros Hcall.
  pose proof (getCorrespondenceNN_cases matches_ r) as Hcases. simpl in Hcases.
  destruct (N.ltb_spec (minimum_matches_per_correspondence (_parameters r))
              (highest_count (_mask_id_references_for_correspondences r) matches_))
    as [Hlt|Hge]; [|congruence].
  destruct Hcases as (winner & Hin & Hnm & Hv & Hcall').
  rewrite Hcall' in Hcall. inversion Hcall; subst. simpl.
  split; [reflexivity|]. split; [exists winner; repeat split; exact Hin|].
  split; [|exact Hlt].
  rewrite <- Hv. unfold votes.
  rewrite bool_decide_eq_false_2 by exact Hnm. reflexivity.
Qed.

Lemma getCorrespondenceNN_parameters (matches_ : list Candidate.t) r :
  _parameters (_getCorrespondenceNN matches_ r).2 = _parameters r.
Proof.
  destruct (getCorrespondenceNN_result matches_ r)
    as [(c & winner & Hcall & _)|Hcall]; rewrite Hcall; reflexivity.
Qed.

(** What a pass over a candidate map appends. *)
Lemma resolve_correspondences_winners entries :
  forall correspondences r,
    exists new,
      (resolve_correspondences entries correspondences r).1 = correspondences ++ new
      /\ _parameters (resolve_correspondences entries correspondences r).2
         = _parameters r
      /\ (length new <= length entries)%nat
      /\ Forall (fun c =>
                   exists entry winner,
                     entry ∈ entries
                     /\ winner ∈ entry.2
                     /\ Correspondence.query c = Candidate.query winner
                     /\ Correspondence.reference c = Candidate.reference winner
                     /\ Correspondence.matching_count c
                        = N.of_nat
                            (length
                               (filter (fun k =>
                                          identifier (Candidate.reference k)
                                          = identifier (Correspondence.reference c))
                                  entry.2))
                     /\ (minimum_matches_per_correspondence (_parameters r)
                         < Correspondence.matching_count c)%N) new.
Proof.
  induction entries as [|[key multiple_matches] entries IH]; intros correspondences r.
  - exists []. simpl. rewrite app_nil_r. repeat split; constructor.
  - cbn [resolve_correspondences].
    pose proof (getCorrespondenceNN_parameters multiple_matches r) as Hp.
    destruct (_getCorrespondenceNN multiple_matches r) as [[c|] r1] eqn:Hcall;
      simpl in Hp.
    + destruct (getCorrespondenceNN_some _ _ _ _ Hcall)
        as (_ & (winner & Hin & Hq & Href) & Hcount & Hlt).
      destruct (IH (correspondences ++ [c]) r1) as (new & Hres & Hp' & Hlen & Hall).
      exists (c :: new). rewrite Hres, Hp', Hp, <- app_assoc.
      split; [reflexivity|]. split; [reflexivity|].
      split; [simpl; lia|].
      constructor.
      * exists (key, multiple_matches), winner.
        split; [apply elem_of_cons; left; reflexivity|].
        repeat split; assumption.
      * eapply Forall_impl; [exact Hall|].
        intros c' (entry & winner' & Hentry & Hrest).
        exists entry, winner'. split; [apply elem_of_cons; right; exact Hentry|].
        rewrite <- Hp. exact Hrest.
    + destruct (IH correspondences r1) as (new & Hres & Hp' & Hlen & Hall).
      exists new. rewrite Hres, Hp', Hp.
      split; [reflexivity|]. split; [reflexivity|].
      split; [simpl; lia|].
      eapply Forall_impl; [exact Hall|].
      intros c' (entry & winner' & Hentry & Hrest).
      exists entry, winner'. split; [apply elem_of_cons; right; exact Hentry|].
      rewrite <- Hp. exact Hrest.
Qed.

Lemma length_filter_candidates (id_query id_reference : Identifier)
    (multiple_matches : list Match.t) :
  length (filter (fun k => identifier (Candidate.reference k) = id_reference)
            (map candidate_of_match (matches_of_landmark id_query multiple_matches)))
  = length (matches_between id_query id_reference multiple_matches).
Proof.
  unfold matches_of_landmark, matches_between.
  induction multiple_matches as [|match_ rest IH]; [reflexivity|].
  rewrite !filter_cons.
  destruct (decide (identifier (Match.object_query match_) = id_query)) as [Hq|Hq].
  - cbn [map]. rewrite filter_cons.
    destruct (decide (identifier (Candidate.reference (candidate_of_match match_))
                      = id_reference)) as [Hr|Hr]; simpl in Hr.
    + rewrite decide_True by (split; assumption).
      simpl. rewrite IH. reflexivity.
    + rewrite decide_False by (intros [_ H]; contradiction).
      exact IH.
  - rewrite decide_False by (intros [H _]; contradiction).
    exact IH.
Qed.

(** The correspondences of one pass stand for matches of the reference. *)
Lemma resolve_correspondences_backed (multiple_matches : list Match.t) r :
  (length (resolve_correspondences (group_matches multiple_matches) [] r).1
   <= length (group_matches multiple_matches))%nat
  /\ Forall (backed_by_matches (_parameters r) multiple_matches)
       (resolve_correspondences (group_matches multiple_matches) [] r).1.
Proof.
  destruct (resolve_correspondences_winners (group_matches multiple_matches) [] r)
    as (new & Hres & _ & Hlen & Hall).
  rewrite Hres. cbn [app]. split; [exact Hlen|].
  pose proof (group_matches_entries multiple_matches) as Hentries.
  rewrite Forall_forall in Hentries.
  eapply Forall_impl; [exact Hall|].
  intros c ([key candidates] & winner & Hentry & Hin & Hq & Href & Hcount & Hlt).
  destruct (Hentries _ Hentry) as [_ Hcontents]. simpl in Hcontents, Hin, Hcount.
  rewrite Hcontents in Hin.
  apply list_elem_of_fmap in Hin. destruct Hin as (match_ & -> & Hmatch).
  apply list_elem_of_filter in Hmatch. destruct Hmatch as [Hkey Hmatch].
  simpl in Hq, Href.
  split; [exists match_; repeat split; assumption|].
  split; [|exact Hlt].
  rewrite Hcount, Hcontents, Hq, Hkey.
  rewrite length_filter_candidates. reflexivity.
Qed.

Lemma evaluate_references_accounted_for local_map_query_ number_of_query_matchables
    matches_per_reference_image indices :
  forall r trace r' trace',
    evaluate_references local_map_query_ number_of_query_matchables
      matches_per_reference_image indices r trace = Returned (r', trace') ->
    exists new,
      _closures r' = _closures r ++ new
      /\ Forall (closure_accounted_for (_parameters r) local_map_query_
                   number_of_query_matchables matches_per_reference_image
                   (_added_local_maps r)) new.
Proof.
  induction indices as [|index indices IH]; intros r trace r' trace' Hrun;
    cbn [evaluate_references] in Hrun.
  - inversion Hrun; subst. exists []. rewrite app_nil_r. split; [reflexivity|constructor].
  - destruct (matches_per_reference_image !! index) as [multiple_matches_mixed|] eqn:Hm;
      [|discriminate].
    destruct (quotient_ltb _ _) eqn:Hratio; [apply IH in Hrun; exact Hrun|].
    destruct (_added_local_maps r !! index) as [local_map_reference|] eqn:Hl;
      [|discriminate].
    destruct (N.ltb_spec (N.of_nat (length (group_matches multiple_matches_mixed)))
                (minimum_number_of_matched_landmarks (_parameters r)))
      as [Hfew|Henough]; [apply IH in Hrun; exact Hrun|].
    cbv zeta in Hrun.
    destruct (resolve_correspondences_backed multiple_matches_mixed (with_mask ∅ r))
      as [Hlen Hbacked].
    pose proof (resolve_correspondences_facts (group_matches multiple_matches_mixed)
                  [] (with_mask ∅ r) (group_matches_grouped _)) as (cs & Hres & _).
    rewrite Hres in Hrun, Hlen, Hbacked. cbn [fst app] in Hlen, Hbacked.
    cbn [app] in Hrun.
    apply IH in Hrun. destruct Hrun as (new & Hclosures & Hall).
    cbn [with_closures with_mask _closures _parameters _added_local_maps] in Hclosures, Hall.
    eexists (_ :: new). split.
    + rewrite Hclosures, <- app_assoc. reflexivity.
    + constructor; [|exact Hall].
      split; [reflexivity|].
      exists index, multiple_matches_mixed.
      cbn [Closure.local_map_reference Closure.relative_number_of_matches
           Closure.absolute_number_of_matches Closure.correspondences].
      split; [exact Hm|]. split; [exact Hl|]. split; [reflexivity|].
      split; [exact Hratio|].
      split.
      { intros Hquery. unfold count_quotient in Hratio |- *.
        rewrite (proj2 (N.eqb_neq _ _) Hquery) in Hratio |- *.
        split; [reflexivity|].
        cbn [quotient_ltb] in Hratio.
        unfold real_ltb in Hratio. apply negb_false_iff in Hratio.
        apply Qle_bool_iff. exact Hratio. }
      unfold matched_landmarks. rewrite <- group_matches_length.
      split; [reflexivity|]. split; [exact Henough|].
      split; [lia|exact Hbacked].
Qed.

End Backing.

Section BackedClosures.

Context `{matcher : PlaceMatcher}.

(** X6. Every closure a returning call of [detectClosures] appends is
    accounted for by the matches of one stored descriptor set: it is between
    the query local map and the local map at the index of that set; its
    match ratio is the quotient of line 62, the number of matches by the
    number of query descriptors, and the test of line 65 did not find it
    below [preliminary_minimum_matching_ratio]; when the query has a
    descriptor that quotient is the rational match ratio and it is at least
    [preliminary_minimum_matching_ratio] (a query without descriptors gives a
    quotient that is not finite, which passes the test of line 65); its
    number of matched landmarks is that of the matches and is at least
    [minimum_number_of_matched_landmarks]; it has at most one correspondence
    per matched landmark, and each correspondence joins the two landmarks of
    one of the matches, with as many votes as there are matches between
    these two landmarks, more than [minimum_matches_per_correspondence]. *)
Theorem detectClosures_closures_accounted_for
    (local_map_query : LocalMap) (r r' : Relocalizer) (trace : list Event) :
  detectClosures (Some local_map_query) r = Returned (r', trace) ->
  exists new,
    _closures r' = _closures r ++ new
    /\ Forall
         (fun c =>
            Closure.local_map_query c = local_map_query
            /\ exists index reference,
                _place_database r !! index = Some reference
                /\ (_added_local_maps r ++ [local_map_query]) !! index
                   = Some (Closure.local_map_reference c)
                /\ let multiple_matches :=
                     hbst_match reference (appearances local_map_query)
                       (maximum_descriptor_distance (_parameters r)) in
                   Closure.relative_number_of_matches c
                   = count_quotient (N.of_nat (length multiple_matches))
                       (N.of_nat (length (appearances local_map_query)))
                   /\ quotient_ltb (Closure.relative_number_of_matches c)
                        (preliminary_minimum_matching_ratio (_parameters r)) = false
                   /\ (appearances local_map_query <> [] ->
                       Closure.relative_number_of_matches c
                       = Finite (match_ratio multiple_matches local_map_query)
                       /\ (preliminary_minimum_matching_ratio (_parameters r)
                           <= match_ratio multiple_matches local_map_query)%Q)
                   /\ Closure.absolute_number_of_matches c
                      = matched_landmarks multiple_matches
                   /\ (minimum_number_of_matched_landmarks (_parameters r)
                       <= Closure.absolute_number_of_matches c)%N
                   /\ (N.of_nat (length (Closure.correspondences c))
                       <= Closure.absolute_number_of_matches c)%N
                   /\ Forall (backed_by_matches (_parameters r) multiple_matches)
                        (Closure.correspondences c))
         new.
Proof.
  unfold detectClosures.
  destruct (_ <? _)%N.
  - intros Hrun. inversion Hrun; subst. exists []. cbn. rewrite app_nil_r.
    split; [reflexivity|constructor].
  - unfold tree_matchAndAdd. intros Hrun.
    apply evaluate_references_accounted_for in Hrun.
    destruct Hrun as (new & Hclosures & Hall).
    cbn [with_place_database with_added_local_maps _closures _parameters
         _added_local_maps] in Hclosures, Hall.
    exists new. split; [exact Hclosures|].
    eapply Forall_impl; [exact Hall|].
    intros c (Hq & index & multiple_matches & Hm & Hrest).
    split; [exact Hq|].
    rewrite list_lookup_fmap in Hm.
    cbn [with_added_local_maps _place_database] in Hm.
    destruct (_place_database r !! index) as [reference|] eqn:Hreference;
      simpl in Hm; [|discriminate].
    inversion Hm; subst multiple_matches.
    exists index, reference. split; [exact Hreference|].
    destruct Hrest as (Hl & Hquotient & Hratio & Hfinite & Hrest).
    split; [exact Hl|]. split; [exact Hquotient|]. split; [exact Hratio|].
    split; [|exact Hrest].
    intros Hquery. apply Hfinite.
    destruct (appearances local_map_query); [congruence|]. simpl. lia.
Qed.

End BackedClosures.

Lemma detectClosures_closures_accounted_for_witness :
  @detectClosures exhaustive_matcher (Some place_c) two_places
  = Returned
      (three_places,
       [DatabaseMatchAndAdd (appearances place_c); StdinGetChar; StdinGetChar])
  /\ exists new,
      _closures three_places = _closures two_places ++ new
      /\ Forall
           (fun c =>
              Closure.local_map_query c = place_c
              /\ exists index reference,
                  _place_database two_places !! index = Some reference
                  /\ (_added_local_maps two_places ++ [place_c]) !! index
                     = Some (Closure.local_map_reference c)
                  /\ let multiple_matches :=
                       @hbst_match exhaustive_matcher reference (appearances place_c)
                         (maximum_descriptor_distance (_parameters two_places)) in
                     Closure.relative_number_of_matches c
                     = count_quotient (N.of_nat (length multiple_matches))
                         (N.of_nat (length (appearances place_c)))
                     /\ quotient_ltb (Closure.relative_number_of_matches c)
                          (preliminary_minimum_matching_ratio (_parameters two_places))
                        = false
                     /\ (appearances place_c <> [] ->
                         Closure.relative_number_of_matches c
                         = Finite (match_ratio multiple_matches place_c)
                         /\ (preliminary_minimum_matching_ratio (_parameters two_places)
                             <= match_ratio multiple_matches place_c)%Q)
                     /\ Closure.absolute_number_of_matches c
                        = matched_landmarks multiple_matches
                     /\ (minimum_number_of_matched_landmarks (_parameters two_places)
                         <= Closure.absolute_number_of_matches c)%N
                     /\ (N.of_nat (length (Closure.correspondences c))
                         <= Closure.absolute_number_of_matches c)%N
                     /\ Forall (backed_by_matches (_parameters two_places)
                                  multiple_matches)
                          (Closure.correspondences c))
           new.
Proof.
  assert (Hrun :
    @detectClosures exhaustive_matcher (Some place_c) two_places
    = Returned
        (three_places,
         [DatabaseMatchAndAdd (appearances place_c); StdinGetChar; StdinGetChar]))
    by (vm_compute; reflexivity).
  split; [exact Hrun|].
  exact (@detectClosures_closures_accounted_for exhaustive_matcher _ _ _ _ Hrun).
Defined.

(** ** Events, pending closures and [clear] *)

Section Events.

Context `{matcher : PlaceMatcher}.

(** X7. What a returning call of [detectClosures] asks of its environment:
    nothing for a null local map; in the warm-up phase one [add] to the
    place database; in the query phase one [matchAndAdd] and then one
    character from standard input for each closure the call appended
    (line 119), and nothing else. *)
Theorem detectClosures_events
    (local_map_query_ : option LocalMap) (r r' : Relocalizer) (trace : list Event) :
  detectClosures local_map_query_ r = Returned (r', trace) ->
  trace
  = match local_map_query_ with
    | None => []
    | Some local_map_query =>
        if (tree_size (_place_database r)
            <? preliminary_minimum_interspace_queries (_parameters r))%N
        then [DatabaseAdd (appearances local_map_query)]
        else DatabaseMatchAndAdd (appearances local_map_query)
             :: replicate (length (_closures r') - length (_closures r)) StdinGetChar
    end.
Proof.
  destruct local_map_query_ as [local_map_query|]; simpl.
  - destruct (_ <? _)%N.
    + intros Hrun. inversion Hrun; subst. reflexivity.
    + unfold tree_matchAndAdd. intros Hrun.
      apply evaluate_references_returned in Hrun.
      destruct Hrun as (new & Hr' & _ & Htrace).
      rewrite Htrace, Hr'. cbn. rewrite length_app.
      replace (length (_closures r) + length new - length (_closures r))%nat
        with (length new) by lia.
      reflexivity.
  - intros Hrun. inversion Hrun; subst. reflexivity.
Qed.

End Events.

Lemma detectClosures_events_witness :
  @detectClosures exhaustive_matcher (Some place_c) two_places
  = Returned
      (three_places,
       [DatabaseMatchAndAdd (appearances place_c); StdinGetChar; StdinGetChar])
  /\ [DatabaseMatchAndAdd (appearances place_c); StdinGetChar; StdinGetChar]
     = DatabaseMatchAndAdd (appearances place_c)
       :: replicate (length (_closures three_places) - length (_closures two_places))
            StdinGetChar.
Proof.
  split; [exact three_places_reached|].
  exact (@detectClosures_events exhaustive_matcher (Some place_c) two_places
           three_places _ three_places_reached).
Defined.

Section Pending.

Implicit Types (r : Relocalizer) (trace : list Event).

Lemma resolve_correspondences_cleared (multiple_matches : list Match.t) r
    (closures_ : list Closure.t) (mask_ : gset N) :
  exists correspondences,
    resolve_correspondences (group_matches multiple_matches) [] (with_mask ∅ r)
    = (correspondences,
       with_mask (list_to_set (reference_identifiers correspondences)) r)
    /\ resolve_correspondences (group_matches multiple_matches) []
         (with_mask ∅ (with_mask mask_ (with_closures closures_ r)))
       = (correspondences,
          with_mask (list_to_set (reference_identifiers correspondences))
            (with_closures closures_ r)).
Proof.
  destruct (resolve_correspondences_one_to_one multiple_matches r)
    as (cs1 & Hres1 & _).
  destruct (resolve_correspondences_one_to_one multiple_matches
              (with_mask mask_ (with_closures closures_ r))) as (cs2 & Hres2 & _).
  set (r1 := with_mask ∅ r) in *.
  set (r2 := with_mask ∅ (with_mask mask_ (with_closures closures_ r))) in *.
  pose proof (resolve_correspondences_reads (group_matches multiple_matches) []
                r1 r2 eq_refl eq_refl) as Hsame.
  rewrite Hres1, Hres2 in Hsame. simpl in Hsame. subst cs2.
  exists cs1. split; [exact Hres1|]. rewrite Hres2. reflexivity.
Qed.

Lemma evaluate_references_pending local_map_query_ number_of_query_matchables
    matches_per_reference_image indices :
  forall r trace closures_ mask_,
    evaluate_references local_map_query_ number_of_query_matchables
      matches_per_reference_image indices
      (with_mask mask_ (with_closures closures_ r)) trace
    = match evaluate_references local_map_query_ number_of_query_matchables
              matches_per_reference_image indices r trace with
      | Returned (r', trace') =>
          Returned
            (with_mask (mask_after mask_ (appended_closures r r'))
               (with_closures (closures_ ++ appended_closures r r') r'),
             trace')
      | ThrownOutOfRange => ThrownOutOfRange
      | UndefinedBehaviour => UndefinedBehaviour
      end.
Proof.
  induction indices as [|index indices IH]; intros r trace closures_ mask_;
    cbn [evaluate_references].
  - unfold appended_closures. rewrite drop_all, app_nil_r. reflexivity.
  - destruct (matches_per_reference_image !! index) as [multiple_matches_mixed|];
      [|reflexivity].
    cbn [with_mask with_closures _parameters _added_local_maps].
    destruct (quotient_ltb _ _); [apply IH|].
    destruct (_added_local_maps r !! index) as [local_map_reference|]; [|reflexivity].
    destruct (_ <? _)%N; [apply IH|].
    cbv zeta.
    destruct (resolve_correspondences_cleared multiple_matches_mixed r closures_ mask_)
      as (correspondences & Hres & Hres').
    change (with_mask ∅
              {| _parameters := _parameters r;
                 _added_local_maps := _added_local_maps r;
                 _place_database := _place_database r;
                 _closures := closures_;
                 _mask_id_references_for_correspondences := mask_ |})
      with (with_mask ∅ (with_mask mask_ (with_closures closures_ r))).
    rewrite Hres, Hres'.
    cbn [with_mask with_closures _closures].
    match goal with
    | |- _ = match evaluate_references _ _ _ _ ?next ?trace_next with _ => _ end =>
        set (r_next := next); set (t_next := trace_next)
    end.
    match goal with
    | |- evaluate_references _ _ _ _ ?left _ = _ =>
        replace left
          with (with_mask (list_to_set (reference_identifiers correspondences))
                  (with_closures
                     (closures_
                      ++ [ {| Closure.local_map_query := local_map_query_;
                              Closure.local_map_reference := local_map_reference;
                              Closure.absolute_number_of_matches :=
                                N.of_nat (length (group_matches multiple_matches_mixed));
                              Closure.relative_number_of_matches :=
                                count_quotient
                                  (N.of_nat (length multiple_matches_mixed))
                                  number_of_query_matchables;
                              Closure.correspondences := correspondences |} ])
                     r_next))
          by reflexivity
    end.
    rewrite IH.
    destruct (evaluate_references local_map_query_ number_of_query_matchables
                matches_per_reference_image indices r_next t_next)
      as [[r' trace']| |] eqn:Hrun; try reflexivity.
    apply evaluate_references_returned in Hrun.
    destruct Hrun as (new & Hr' & _).
    assert (Hnext : appended_closures r_next r' = new).
    { unfold appended_closures. rewrite Hr'. cbn. apply drop_app_length. }
    assert (Hall : appended_closures r r'
                   = {| Closure.local_map_query := local_map_query_;
                        Closure.local_map_reference := local_map_reference;
                        Closure.absolute_number_of_matches :=
                          N.of_nat (length (group_matches multiple_matches_mixed));
                        Closure.relative_number_of_matches :=
                          count_quotient (N.of_nat (length multiple_matches_mixed))
                            number_of_query_matchables;
                        Closure.correspondences := correspondences |} :: new).
    { unfold appended_closures. rewrite Hr'. cbn.
      rewrite <- app_assoc. apply drop_app_length. }
    rewrite Hnext, Hall, mask_after_cons. cbn [Closure.correspondences].
    rewrite <- app_assoc. reflexivity.
Qed.

End Pending.

Section Clear.

Context `{matcher : PlaceMatcher}.

(** X8. What a call of [detectClosures] detects depends on neither the
    pending closures nor the used-reference mask: after [clear] the call
    ends the same way, with the same events, the same local maps and place
    database and the same new closures, which then are all that is
    pending. *)
Theorem detectClosures_after_clear (local_map_query_ : option LocalMap) (r : Relocalizer) :
  detectClosures local_map_query_ (Relocalizer_clear r)
  = match detectClosures local_map_query_ r with
    | Returned (r', trace) =>
        Returned
          (with_mask (mask_after ∅ (appended_closures r r'))
             (with_closures (appended_closures r r') r'),
           trace)
    | ThrownOutOfRange => ThrownOutOfRange
    | UndefinedBehaviour => UndefinedBehaviour
    end.
Proof.
  destruct local_map_query_ as [local_map_query|]; cbn [detectClosures].
  - unfold Relocalizer_clear.
    cbn [with_mask with_closures with_added_local_maps _parameters _place_database
         _added_local_maps].
    destruct (_ <? _)%N.
    + unfold appended_closures. cbn. rewrite drop_all. reflexivity.
    + unfold tree_matchAndAdd.
      match goal with
      | |- _ = match evaluate_references _ _ _ _ ?next _ with _ => _ end =>
          set (r_next := next)
      end.
      match goal with
      | |- evaluate_references _ _ _ _ ?left _ = _ =>
          replace left with (with_mask ∅ (with_closures [] r_next)) by reflexivity
      end.
      rewrite evaluate_references_pending.
      destruct (evaluate_references _ _ _ _ r_next _) as [[r' trace']| |];
        reflexivity.
  - unfold appended_closures, Relocalizer_clear. cbn. rewrite drop_all. reflexivity.
Qed.

End Clear.

(** ** [configure] *)

Section Configure.

Context `{matcher : PlaceMatcher}.

(** X9. [configure] forgets the local maps added so far but leaves the
    place database as it is (lines 13-14), so on a relocalizer that has
    been used the two are out of step afterwards: the descriptor sets are
    all still stored, and in the call that follows a stored set is paired
    with the local map at its index among the maps added since.  Every
    closure that call appends is therefore a closure of the query local map
    with itself. *)
Theorem configure_keeps_the_place_database
    (local_map_query : LocalMap) (r r' : Relocalizer) (trace : list Event) :
  _place_database (Relocalizer_configure r) = _place_database r
  /\ _added_local_maps (Relocalizer_configure r) = []
  /\ _closures (Relocalizer_configure r) = []
  /\ (detectClosures (Some local_map_query) (Relocalizer_configure r)
      = Returned (r', trace) ->
      Forall (fun c => Closure.local_map_query c = local_map_query
                       /\ Closure.local_map_reference c = local_map_query)
        (_closures r')).
Proof.
  split; [reflexivity|]. split; [reflexivity|]. split; [reflexivity|].
  unfold detectClosures.
  destruct (_ <? _)%N.
  - intros Hrun. inversion Hrun; subst. constructor.
  - unfold tree_matchAndAdd. intros Hrun.
    apply evaluate_references_accounted_for in Hrun.
    destruct Hrun as (new & Hclosures & Hall).
    rewrite Hclosures. cbn [app _closures with_place_database with_added_local_maps
                            Relocalizer_configure Relocalizer_clear with_mask
                            with_closures].
    eapply Forall_impl; [exact Hall|].
    intros c (Hq & index & multiple_matches & _ & Hreference & _).
    split; [exact Hq|].
    cbn [app _added_local_maps with_place_database with_added_local_maps
         Relocalizer_configure Relocalizer_clear with_mask with_closures]
      in Hreference.
    destruct index as [|index]; cbn in Hreference.
    + inversion Hreference. reflexivity.
    + destruct index; discriminate Hreference.
Qed.

End Configure.

(** After [place_a] has been added, [configure], and a call for [place_c]:
    the descriptors of [place_a] are still matched, and the closure that
    results pairs [place_c] with itself. *)
Example configure_pairs_the_query_with_itself :
  exists r1 trace1 r' trace c,
    @detectClosures_all exhaustive_matcher [Some place_a] (Relocalizer_new run_parameters)
    = Returned (r1, trace1)
    /\ @detectClosures exhaustive_matcher (Some place_c) (Relocalizer_configure r1)
       = Returned (r', trace)
    /\ _closures r' = [c]
    /\ Closure.local_map_query c = place_c
    /\ Closure.local_map_reference c = place_c.
Proof.
  do 5 eexists. split; [vm_compute; reflexivity|].
  split; [vm_compute; reflexivity|]. repeat split.
Qed.

(** ** The interspace *)

Section Interspace.

Implicit Types (r : Relocalizer) (trace : list Event).

(** A closure is of the query local map, and its reference local map is
    read at one of the indices the loop visits, for which a match vector is
    stored. *)
Lemma evaluate_references_within local_map_query_ number_of_query_matchables
    matches_per_reference_image indices :
  forall r trace r' trace',
    evaluate_references local_map_query_ number_of_query_matchables
      matches_per_reference_image indices r trace = Returned (r', trace') ->
    Forall (fun c =>
              Closure.local_map_query c = local_map_query_
              /\ exists index,
                  index ∈ indices
                  /\ (index < length matches_per_reference_image)%nat
                  /\ _added_local_maps r !! index
                     = Some (Closure.local_map_reference c))
      (appended_closures r r').
Proof.
  induction indices as [|index indices IH]; intros r trace r' trace' Hrun;
    cbn [evaluate_references] in Hrun.
  - inversion Hrun; subst. unfold appended_closures. rewrite drop_all. constructor.
  - assert (Hlater : forall r1 trace1,
              _added_local_maps r1 = _added_local_maps r ->
              _closures r1 = _closures r ->
              evaluate_references local_map_query_ number_of_query_matchables
                matches_per_reference_image indices r1 trace1 = Returned (r', trace') ->
              Forall (fun c =>
                        Closure.local_map_query c = local_map_query_
                        /\ exists index0,
                            index0 ∈ index :: indices
                            /\ (index0 < length matches_per_reference_image)%nat
                            /\ _added_local_maps r !! index0
                               = Some (Closure.local_map_reference c))
                (appended_closures r r')).
    { intros r1 trace1 Hmaps Hclosures Hrest. apply IH in Hrest.
      unfold appended_closures in *. rewrite Hclosures, Hmaps in Hrest.
      eapply Forall_impl; [exact Hrest|].
      intros c (Hq & index0 & Hin & Hrest'). split; [exact Hq|]. exists index0.
      split; [apply elem_of_cons; right; exact Hin|exact Hrest']. }
    destruct (matches_per_reference_image !! index) as [multiple_matches_mixed|] eqn:Hm;
      [|discriminate].
    destruct (quotient_ltb _ _); [exact (Hlater r trace eq_refl eq_refl Hrun)|].
    destruct (_added_local_maps r !! index) as [local_map_reference|] eqn:Hl;
      [|discriminate].
    destruct (_ <? _)%N; [exact (Hlater r trace eq_refl eq_refl Hrun)|].
    cbv zeta in Hrun.
    destruct (resolve_correspondences_one_to_one multiple_matches_mixed r)
      as (correspondences & Hres & _).
    rewrite Hres in Hrun.
    cbn [with_closures with_mask _closures] in Hrun.
    pose proof Hrun as Hnew. apply evaluate_references_returned in Hnew.
    destruct Hnew as (new & Hr' & _).
    apply IH in Hrun.
    unfold appended_closures in *. rewrite Hr' in Hrun |- *.
    cbn [with_closures with_mask _closures _added_local_maps] in Hrun |- *.
    rewrite drop_app_length in Hrun.
    rewrite <- app_assoc, drop_app_length. cbn [app].
    constructor.
    + split; [reflexivity|].
      exists index. split; [apply elem_of_cons; left; reflexivity|].
      split; [apply lookup_lt_is_Some; eauto|exact Hl].
    + eapply Forall_impl; [exact Hrun|].
      intros c (Hq & index0 & Hin & Hrest'). split; [exact Hq|]. exists index0.
      split; [apply elem_of_cons; right; exact Hin|exact Hrest'].
Qed.

End Interspace.

Section InterspaceClaim.

Context `{matcher : PlaceMatcher}.

(** X10. The interspace is a distance between positions in
    [_added_local_maps].  On a relocalizer whose local maps and descriptor
    sets are in step, a returning call appends the query local map at the
    end of [_added_local_maps], and every closure it appends is of that
    query and has as its reference the local map read at a position
    [index] among the maps added before the call, with [index] plus
    [preliminary_minimum_interspace_queries] at most the number of those
    maps, which is the position of the query (lines 57-58).  So the
    position of the reference precedes that of the query by at least the
    interspace.  Nothing is said of the local maps themselves: the
    predecessor at exactly that distance is eligible, and a local map that
    is passed again can be joined with its earlier entry. *)
Theorem closures_honour_the_interspace
    (local_map_query : LocalMap) (r r' : Relocalizer) (trace : list Event) :
  length (_added_local_maps r) = length (_place_database r) ->
  detectClosures (Some local_map_query) r = Returned (r', trace) ->
  _added_local_maps r' = _added_local_maps r ++ [local_map_query]
  /\ _added_local_maps r' !! length (_added_local_maps r) = Some local_map_query
  /\ Forall (fun c =>
               Closure.local_map_query c = local_map_query
               /\ exists index,
                   _added_local_maps r !! index = Some (Closure.local_map_reference c)
                   /\ _added_local_maps r' !! index
                      = Some (Closure.local_map_reference c)
                   /\ (N.of_nat index
                       + preliminary_minimum_interspace_queries (_parameters r)
                       <= N.of_nat (length (_added_local_maps r)))%N)
       (appended_closures r r').
Proof.
  intros Hstep Hrun.
  assert (Hmaps : _added_local_maps r' = _added_local_maps r ++ [local_map_query]).
  { revert Hrun. unfold detectClosures.
    destruct (_ <? _)%N.
    - intros Hrun. inversion Hrun; subst. reflexivity.
    - unfold tree_matchAndAdd. intros Hrun.
      apply evaluate_references_returned in Hrun.
      destruct Hrun as (new & Hr' & _). rewrite Hr'. reflexivity. }
  split; [exact Hmaps|].
  split; [rewrite Hmaps; apply list_lookup_middle; reflexivity|].
  rewrite Hmaps. revert Hrun. unfold detectClosures.
  cbn [with_added_local_maps _place_database _parameters].
  destruct (N.ltb_spec (tree_size (_place_database r))
              (preliminary_minimum_interspace_queries (_parameters r))) as [Hwarm|Hphase].
  - intros Hrun. inversion Hrun; subst. unfold appended_closures. cbn.
    rewrite drop_all. constructor.
  - unfold tree_matchAndAdd. intros Hrun.
    apply evaluate_references_within in Hrun.
    unfold appended_closures in *.
    cbn [with_place_database with_added_local_maps _closures _parameters
         _added_local_maps _place_database] in Hrun.
    eapply Forall_impl; [exact Hrun|].
    intros c (Hq & index & Hin & Hbound & Hreference).
    split; [exact Hq|].
    apply elem_of_seq in Hin. rewrite length_map in Hbound.
    unfold tree_size in *. rewrite length_app in Hin. simpl in Hin.
    exists index. split; [|split].
    + rewrite lookup_app_l in Hreference by lia. exact Hreference.
    + exact Hreference.
    + lia.
Qed.

End InterspaceClaim.

Lemma closures_honour_the_interspace_witness :
  length (_added_local_maps two_places) = length (_place_database two_places)
  /\ @detectClosures exhaustive_matcher (Some place_c) two_places
     = Returned
         (three_places,
          [DatabaseMatchAndAdd (appearances place_c); StdinGetChar; StdinGetChar])
  /\ _added_local_maps three_places = _added_local_maps two_places ++ [place_c]
  /\ _added_local_maps three_places !! length (_added_local_maps two_places)
     = Some place_c
  /\ Forall (fun c =>
               Closure.local_map_query c = place_c
               /\ exists index,
                   _added_local_maps two_places !! index
                   = Some (Closure.local_map_reference c)
                   /\ _added_local_maps three_places !! index
                      = Some (Closure.local_map_reference c)
                   /\ (N.of_nat index
                       + preliminary_minimum_interspace_queries (_parameters two_places)
                       <= N.of_nat (length (_added_local_maps two_places)))%N)
       (appended_closures two_places three_places).
Proof.
  assert (Hstep : length (_added_local_maps two_places)
                  = length (_place_database two_places)) by reflexivity.
  split; [exact Hstep|]. split; [exact three_places_reached|].
  exact (@closures_honour_the_interspace exhaustive_matcher place_c two_places
           three_places _ Hstep three_places_reached).
Defined.

(** With an interspace of 1 the local map passed just before the query is
    eligible, and when that is the query local map itself the closure joins
    the local map with itself. *)
Example local_map_passed_twice :
  exists r' trace c,
    @detectClosures_all exhaustive_matcher [Some place_c; Some place_c]
      (Relocalizer_new run_parameters)
    = Returned (r', trace)
    /\ _added_local_maps r' = [place_c; place_c]
    /\ _closures r' = [c]
    /\ Closure.local_map_query c = place_c
    /\ Closure.local_map_reference c = place_c.
Proof.
  do 3 eexists. split; [vm_compute; reflexivity|]. repeat split.
Qed.

(** ** The order of the resolution *)

Section Greedy.

Implicit Types (r : Relocalizer) (entries : CandidateMap).

Lemma StronglySorted_sublist {A} (R : A -> A -> Prop) (l1 l2 : list A) :
  sublist l1 l2 -> StronglySorted R l2 -> StronglySorted R l1.
Proof.
  induction 1 as [|x l1 l2 Hsub IH|x l1 l2 Hsub IH]; intros Hsorted.
  - constructor.
  - inversion Hsorted as [|? ? Hrest Hall]; subst. constructor; [apply IH; exact Hrest|].
    rewrite Forall_forall in Hall |- *. intros y Hy. apply Hall.
    eapply elem_of_sublist; eassumption.
  - inversion Hsorted; subst. apply IH. assumption.
Qed.

Lemma taken_before_none key (cs : list Correspondence.t) :
  Forall (fun c => (key <= identifier (Correspondence.query c))%N) cs ->
  taken_before key cs = ∅.
Proof.
  intros Hall. unfold taken_before.
  induction Hall as [|c cs Hc _ IH]; [reflexivity|].
  rewrite filter_cons, decide_False by lia. exact IH.
Qed.

Lemma taken_before_cons key c (cs : list Correspondence.t) :
  (identifier (Correspondence.query c) < key)%N ->
  taken_before key (c :: cs)
  = {[ identifier (Correspondence.reference c) ]} ∪ taken_before key cs.
Proof.
  intros Hc. unfold taken_before.
  rewrite filter_cons, decide_True by exact Hc. reflexivity.
Qed.

(** The pass in the order of the keys: each query landmark is resolved
    against the references the landmarks before it have left. *)
Lemma resolve_correspondences_greedy entries :
  forall correspondences r,
    StronglySorted N.lt (map fst entries) ->
    grouped_by_query entries ->
    exists new,
      (resolve_correspondences entries correspondences r).1 = correspondences ++ new
      /\ Forall (fun c => identifier (Correspondence.query c) ∈ map fst entries) new
      /\ Forall (fun entry =>
                   greedy_choice (_parameters r)
                     (_mask_id_references_for_correspondences r) new entry.1 entry.2)
           entries.
Proof.
  induction entries as [|[key candidates] entries IH];
    intros correspondences r Hsorted Hgrouped.
  - exists []. simpl. rewrite app_nil_r. repeat split; constructor.
  - cbn [map fst] in Hsorted. inversion Hsorted as [|? ? Hrest Hkeys]; subst.
    apply Forall_cons in Hgrouped. destruct Hgrouped as [Hkey Hgrouped].
    cbn [fst snd] in Hkey.
    assert (Hlater : forall new,
              Forall (fun c => identifier (Correspondence.query c) ∈ map fst entries)
                new ->
              Forall (fun c => (key < identifier (Correspondence.query c))%N) new).
    { intros new Hnew. eapply Forall_impl; [exact Hnew|].
      intros c Hc. rewrite Forall_forall in Hkeys. apply Hkeys. exact Hc. }
    cbn [resolve_correspondences].
    pose proof (getCorrespondenceNN_cases candidates r) as Hcases. cbv zeta in Hcases.
    destruct (N.ltb_spec (minimum_matches_per_correspondence (_parameters r))
                (highest_count (_mask_id_references_for_correspondences r) candidates))
      as [Hlt|Hge].
    + destruct Hcases as (winner & Hin & Hnm & Hv & Hcall). rewrite Hcall.
      set (c0 := {| Correspondence.query := Candidate.query winner;
                    Correspondence.reference := Candidate.reference winner;
                    Correspondence.matching_count :=
                      highest_count (_mask_id_references_for_correspondences r)
                        candidates;
                    Correspondence.matching_ratio :=
                      (real_of_count
                         (highest_count (_mask_id_references_for_correspondences r)
                            candidates)
                       / real_of_count (N.of_nat (length candidates)))%Q |}) in *.
      assert (Hq0 : identifier (Correspondence.query c0) = key).
      { rewrite Forall_forall in Hkey. exact (Hkey winner Hin). }
      destruct (IH (correspondences ++ [c0])
                  (with_mask ({[ identifier (Candidate.reference winner) ]}
                              ∪ _mask_id_references_for_correspondences r) r)
                  Hrest Hgrouped) as (new & Hres & Hnew & Hall).
      cbn [with_mask _parameters _mask_id_references_for_correspondences] in Hall.
      exists (c0 :: new). split; [rewrite Hres, <- app_assoc; reflexivity|].
      split.
      { constructor.
        - rewrite Hq0. apply elem_of_cons. left. reflexivity.
        - eapply Forall_impl; [exact Hnew|]. intros c Hc.
          apply elem_of_cons. right. exact Hc. }
      constructor.
      * unfold greedy_choice. cbn [fst snd].
        rewrite taken_before_none, (right_id_L ∅ (∪)).
        -- rewrite (proj2 (N.ltb_lt _ _) Hlt).
           exists c0. split; [apply elem_of_cons; left; reflexivity|].
           split; [exact Hq0|]. split; [exact Hnm|]. split; [reflexivity|exact Hv].
        -- constructor; [lia|].
           eapply Forall_impl; [exact (Hlater new Hnew)|]. intros c Hc. simpl in Hc. lia.
      * rewrite Forall_forall in Hall. rewrite Forall_forall in Hkeys.
        apply Forall_forall.
        intros [key' candidates'] Hentry. specialize (Hall _ Hentry).
        assert (Hkey' : (key < key')%N).
        { apply Hkeys. apply (list_elem_of_fmap_2 fst _ _ Hentry). }
        unfold greedy_choice in *. cbn [fst snd] in *.
        rewrite taken_before_cons by (rewrite Hq0; exact Hkey').
        replace (_mask_id_references_for_correspondences r
                 ∪ ({[ identifier (Correspondence.reference c0) ]}
                    ∪ taken_before key' new))
          with ({[ identifier (Candidate.reference winner) ]}
                ∪ _mask_id_references_for_correspondences r ∪ taken_before key' new).
        2:{ rewrite (comm_L (∪) {[ identifier (Candidate.reference winner) ]}),
              <- (assoc_L (∪)). reflexivity. }
        destruct (_ <? _)%N.
        -- destruct Hall as (c & Hc & Hrest'). exists c.
           split; [apply elem_of_cons; right; exact Hc|exact Hrest'].
        -- intros c Hc. apply elem_of_cons in Hc. destruct Hc as [->|Hc].
           ++ rewrite Hq0. lia.
           ++ apply Hall. exact Hc.
    + rewrite Hcases.
      destruct (IH correspondences r Hrest Hgrouped) as (new & Hres & Hnew & Hall).
      exists new. split; [exact Hres|]. split.
      { eapply Forall_impl; [exact Hnew|]. intros c Hc.
        apply elem_of_cons. right. exact Hc. }
      constructor; [|exact Hall].
      unfold greedy_choice. cbn [fst snd].
      rewrite taken_before_none, (right_id_L ∅ (∪)).
      * rewrite (proj2 (N.ltb_ge _ _) Hge).
        intros c Hc. pose proof (Hlater new Hnew) as Hgt.
        rewrite Forall_forall in Hgt. specialize (Hgt c Hc). lia.
      * eapply Forall_impl; [exact (Hlater new Hnew)|]. intros c Hc. simpl in Hc. lia.
Qed.

Lemma candidate_map_at_elem entries key (candidates : list Candidate.t) :
  candidate_map_at key entries = Some candidates -> (key, candidates) ∈ entries.
Proof.
  induction entries as [|[k cs] entries IH]; simpl; [discriminate|].
  destruct (N.eqb_spec key k) as [->|Hne].
  - intros Hfound. inversion Hfound; subst. apply elem_of_cons. left. reflexivity.
  - intros Hfound. apply elem_of_cons. right. apply IH. exact Hfound.
Qed.

Lemma candidate_map_at_None_keys entries key :
  candidate_map_at key entries = None -> key ∉ map fst entries.
Proof.
  induction entries as [|[k cs] entries IH]; simpl; [intros _ Hin; inversion Hin|].
  destruct (N.eqb_spec key k) as [->|Hne]; [discriminate|].
  intros Hnone Hin. apply elem_of_cons in Hin. destruct Hin as [Heq|Hin];
    [congruence|]. exact (IH Hnone Hin).
Qed.

End Greedy.

(** X11. The pass that resolves the matches of one reference local map
    (lines 101-111) is greedy in the order of the query landmark
    identifiers: the correspondences come out by ascending query
    identifier, and a query landmark gets a correspondence exactly when,
    among the references not taken by the correspondences of the landmarks
    with a smaller identifier, the highest vote count of its candidates
    exceeds [minimum_matches_per_correspondence]; the correspondence then
    carries that count and a reference that attains it. *)
Theorem resolution_is_greedy (multiple_matches : list Match.t) (r : Relocalizer) :
  let cs :=
    (resolve_correspondences (group_matches multiple_matches) [] (with_mask ∅ r)).1 in
  StronglySorted N.lt (query_identifiers cs)
  /\ forall key,
       greedy_choice (_parameters r) ∅ cs key
         (map candidate_of_match (matches_of_landmark key multiple_matches)).
Proof.
  intros cs.
  destruct (resolve_correspondences_greedy (group_matches multiple_matches) []
              (with_mask ∅ r) (group_matches_sorted multiple_matches)
              (group_matches_grouped multiple_matches)) as (new & Hres & Hnew & Hall).
  destruct (resolve_correspondences_facts (group_matches multiple_matches) []
              (with_mask ∅ r) (group_matches_grouped multiple_matches))
    as (new' & Hres' & Hsub & _).
  rewrite Hres' in Hres. cbn [fst app] in Hres. subst new'.
  subst cs. rewrite Hres'. cbn [fst app].
  cbn [with_mask _parameters _mask_id_references_for_correspondences] in Hall.
  split.
  - eapply StronglySorted_sublist; [exact Hsub|].
    apply group_matches_sorted.
  - intros key.
    pose proof (group_matches_at multiple_matches key) as Hat.
    destruct (matches_of_landmark key multiple_matches) as [|first found] eqn:Hmatches.
    + unfold greedy_choice. cbn [map highest_count foldr].
      rewrite (proj2 (N.ltb_ge _ 0%N)) by lia.
      intros c Hc Hkey.
      apply candidate_map_at_None_keys in Hat. apply Hat.
      rewrite Forall_forall in Hnew. rewrite <- Hkey. apply Hnew. exact Hc.
    + apply candidate_map_at_elem in Hat.
      rewrite Forall_forall in Hall. exact (Hall _ Hat).
Qed.

(** The reference goes to the query landmark with the smaller identifier,
    although its matches arrive last; the other landmark is left without. *)
Example smaller_identifier_wins_the_reference :
  (resolve_correspondences (group_matches contested_matches) []
     (with_mask ∅ (Relocalizer_new (example_parameters 1 50 1 1)))).1
  = [ {| Correspondence.query := example_landmark 1;
         Correspondence.reference := example_landmark 11;
         Correspondence.matching_count := 2;
         Correspondence.matching_ratio := (2 # 2)%Q |} ].
Proof. vm_compute. reflexivity. Qed.

(** * Further properties of the aligner *)

(** ** Errors and weights *)

Lemma dot_self_nonnegative (v : list Q) : (0 <= dot v v)%Q.
Proof.
  unfold dot. induction v as [|e v IH]; simpl; [apply Qle_refl|].
  apply (Qplus_le_compat 0 (e * e) 0); [|exact IH].
  unfold Qle, Qmult. simpl. nia.
Qed.

Lemma chi_nonnegative (a : UVDAligner) (frame_point : FramePoint) :
  (0 <= chi a frame_point)%Q.
Proof. apply dot_self_nonnegative. Qed.

(** X12. After [linearize] the error buffer tells the skipped points from the
    processed ones: the entry of a point is -1 exactly when the depth test
    or the image-bounds test skipped it (line 36), and the squared residual
    recorded for a processed point (line 94) is never negative. *)
Theorem linearize_error_marks_skipped_points
    (ignore_outliers_ : bool) (a : UVDAligner) (index : nat) (frame_point : FramePoint) :
  length (_errors a) = length (activePoints (_frame a)) ->
  length (_inliers a) = length (activePoints (_frame a)) ->
  activePoints (_frame a) !! index = Some frame_point ->
  exists e,
    _errors (linearize ignore_outliers_ a) !! index = Some e
    /\ (e = (-1)%Q <-> processed a frame_point = false)
    /\ ((0 <= e)%Q <-> processed a frame_point = true).
Proof.
  intros Herrors Hinliers Hpoint.
  pose proof (linearized_linearize ignore_outliers_ a Herrors Hinliers) as Hlin.
  assert (Hindex : (index < length (activePoints (_frame a)))%nat)
    by (apply lookup_lt_is_Some; eauto).
  rewrite (lin_errors _ _ _ _ Hlin index frame_point Hindex Hpoint).
  pose proof (chi_nonnegative a frame_point) as Hchi.
  destruct (processed a frame_point); eexists; (split; [reflexivity|]).
  - split; split; try congruence; try (intros _; exact Hchi).
    intros He. rewrite He in Hchi. exfalso. revert Hchi. apply Qlt_not_le. reflexivity.
  - split; split; try congruence.
    intros Hle. exfalso. revert Hle. apply Qlt_not_le. reflexivity.
Qed.

Lemma linearize_error_marks_skipped_points_witness :
  let a := example_aligner 10 1000 false in
  let frame_point := example_point 40 50 [0; 0; 2]%Q in
  length (_errors a) = length (activePoints (_frame a))
  /\ length (_inliers a) = length (activePoints (_frame a))
  /\ activePoints (_frame a) !! 1%nat = Some frame_point
  /\ exists e,
      _errors (linearize false a) !! 1%nat = Some e
      /\ (e = (-1)%Q <-> processed a frame_point = false)
      /\ ((0 <= e)%Q <-> processed a frame_point = true).
Proof.
  destruct (@initialize_buffers still_kernels example_frame identity_transform
              (blank_aligner 10 1000 false)) as [Herrors Hinliers].
  fold (example_aligner 10 1000 false) in Herrors, Hinliers.
  assert (Hpoint : activePoints (_frame (example_aligner 10 1000 false)) !! 1%nat
                   = Some (example_point 40 50 [0; 0; 2]%Q)) by reflexivity.
  split; [exact Herrors|]. split; [exact Hinliers|]. split; [exact Hpoint|].
  exact (linearize_error_marks_skipped_points false (example_aligner 10 1000 false) 1
           (example_point 40 50 [0; 0; 2]%Q) Herrors Hinliers Hpoint).
Defined.

Section ErrorBounds.

Variable a : UVDAligner.

Lemma accumulated_error_snoc ignore_outliers_ (points : list FramePoint) frame_point :
  accumulated_error ignore_outliers_ a (points ++ [frame_point])
  = if contributes ignore_outliers_ a frame_point
    then (accumulated_error ignore_outliers_ a points + chi a frame_point)%Q
    else accumulated_error ignore_outliers_ a points.
Proof. unfold accumulated_error. rewrite fold_left_app. reflexivity. Qed.

Lemma accumulated_error_nonnegative ignore_outliers_ (points : list FramePoint) :
  (0 <= accumulated_error ignore_outliers_ a points)%Q.
Proof.
  induction points as [|frame_point points IH] using rev_ind; [apply Qle_refl|].
  rewrite accumulated_error_snoc.
  destruct (contributes ignore_outliers_ a frame_point); [|exact IH].
  apply (Qplus_le_compat 0 _ 0); [exact IH|apply chi_nonnegative].
Qed.

Lemma contributes_ignoring_outliers frame_point :
  contributes true a frame_point = is_inlier a frame_point.
Proof.
  unfold contributes, is_inlier. rewrite Qle_bool_real_ltb, orb_false_r. reflexivity.
Qed.

Lemma contributes_keeping_outliers frame_point :
  contributes false a frame_point = processed a frame_point.
Proof.
  unfold contributes. rewrite orb_true_r, andb_true_r. reflexivity.
Qed.

Lemma accumulated_error_inliers (points : list FramePoint) :
  (accumulated_error true a points
   <= _maximum_error_kernel (parameters a)
      * real_of_count (N.of_nat (length (List.filter (is_inlier a) points))))%Q.
Proof.
  induction points as [|frame_point points IH] using rev_ind.
  - simpl. unfold real_of_count. simpl. rewrite Qmult_0_r. apply Qle_refl.
  - rewrite accumulated_error_snoc, contributes_ignoring_outliers.
    rewrite List.filter_app, length_app. cbn [List.filter].
    destruct (is_inlier a frame_point) eqn:Hinlier; cbn [length].
    + unfold is_inlier in Hinlier. apply andb_true_iff in Hinlier.
      destruct Hinlier as [_ Hchi]. apply Qle_bool_iff in Hchi.
      unfold real_of_count in *.
      replace (Z.of_N (N.of_nat (length (List.filter (is_inlier a) points) + 1)))
        with (Z.of_N (N.of_nat (length (List.filter (is_inlier a) points))) + 1)%Z
        by lia.
      rewrite inject_Z_plus, Qmult_plus_distr_r, Qmult_1_r.
      apply Qplus_le_compat; assumption.
    + rewrite Nat.add_0_r. exact IH.
Qed.

Lemma accumulated_error_monotone (points : list FramePoint) :
  (accumulated_error true a points <= accumulated_error false a points)%Q.
Proof.
  induction points as [|frame_point points IH] using rev_ind; [apply Qle_refl|].
  rewrite !accumulated_error_snoc, contributes_ignoring_outliers,
    contributes_keeping_outliers.
  unfold is_inlier.
  destruct (processed a frame_point); cbn [andb]; [|exact IH].
  destruct (Qle_bool _ _).
  - apply Qplus_le_compat; [exact IH|apply Qle_refl].
  - rewrite <- (Qplus_0_r (accumulated_error true a points)).
    apply Qplus_le_compat; [exact IH|apply chi_nonnegative].
Qed.

End ErrorBounds.

(** X13. The totals [linearize] leaves (lines 97-111): the total error is
    never negative; the inlier and outlier counts together do not exceed
    the number of active points; when outliers are ignored the total error
    is at most [_maximum_error_kernel] times the number of inliers, and it
    is at most the total error of the pass that keeps the outliers. *)
Theorem linearize_total_error_bounds (ignore_outliers_ : bool) (a : UVDAligner) :
  length (_errors a) = length (activePoints (_frame a)) ->
  length (_inliers a) = length (activePoints (_frame a)) ->
  (0 <= _total_error (linearize ignore_outliers_ a))%Q
  /\ (_number_of_inliers (linearize ignore_outliers_ a)
      + _number_of_outliers (linearize ignore_outliers_ a)
      <= N.of_nat (length (activePoints (_frame a))))%N
  /\ (_total_error (linearize true a)
      <= _maximum_error_kernel (parameters a)
         * real_of_count (_number_of_inliers (linearize true a)))%Q
  /\ (_total_error (linearize true a) <= _total_error (linearize false a))%Q.
Proof.
  intros Herrors Hinliers.
  assert (Hall : take (length (activePoints (_frame a))) (activePoints (_frame a))
                 = activePoints (_frame a)) by (apply take_ge; lia).
  assert (Hfacts : forall ignore,
            _total_error (linearize ignore a)
            = accumulated_error ignore a (activePoints (_frame a))
            /\ _number_of_inliers (linearize ignore a)
               = N.of_nat (length (List.filter (is_inlier a) (activePoints (_frame a))))
            /\ _number_of_outliers (linearize ignore a)
               = N.of_nat (length (List.filter (is_outlier a) (activePoints (_frame a))))).
  { intros ignore.
    pose proof (linearized_linearize ignore a Herrors Hinliers) as Hlin.
    pose proof (lin_total_error _ _ _ _ Hlin) as He.
    pose proof (lin_number_of_inliers _ _ _ _ Hlin) as Hni.
    pose proof (lin_number_of_outliers _ _ _ _ Hlin) as Hno.
    rewrite Hall in He, Hni, Hno. repeat split; assumption. }
  destruct (Hfacts ignore_outliers_) as (He & Hni & Hno).
  destruct (Hfacts true) as (He_true & Hni_true & _).
  destruct (Hfacts false) as (He_false & _ & _).
  split; [rewrite He; apply accumulated_error_nonnegative|].
  split.
  - rewrite Hni, Hno.
    pose proof (inliers_outliers_partition a (activePoints (_frame a))) as Hpartition.
    pose proof (List.filter_length_le (processed a) (activePoints (_frame a))) as Hle.
    lia.
  - split.
    + rewrite He_true, Hni_true. apply accumulated_error_inliers.
    + rewrite He_true, He_false. apply accumulated_error_monotone.
Qed.

Lemma linearize_total_error_bounds_witness :
  let a := example_aligner 10 1000 false in
  length (_errors a) = length (activePoints (_frame a))
  /\ length (_inliers a) = length (activePoints (_frame a))
  /\ (0 <= _total_error (linearize false a))%Q
  /\ (_number_of_inliers (linearize false a) + _number_of_outliers (linearize false a)
      <= N.of_nat (length (activePoints (_frame a))))%N
  /\ (_total_error (linearize true a)
      <= _maximum_error_kernel (parameters a)
         * real_of_count (_number_of_inliers (linearize true a)))%Q
  /\ (_total_error (linearize true a) <= _total_error (linearize false a))%Q.
Proof.
  destruct (@initialize_buffers still_kernels example_frame identity_transform
              (blank_aligner 10 1000 false)) as [Herrors Hinliers].
  fold (example_aligner 10 1000 false) in Herrors, Hinliers.
  split; [exact Herrors|]. split; [exact Hinliers|].
  exact (linearize_total_error_bounds false (example_aligner 10 1000 false)
           Herrors Hinliers).
Defined.

Lemma Qdiv_attenuates (part whole : Q) :
  (0 < whole)%Q -> (0 <= part)%Q -> (part < whole)%Q ->
  (0 <= part / whole)%Q /\ (part / whole < 1)%Q.
Proof.
  intros Hwhole Hpart Hlt. split.
  - apply Qle_shift_div_l; [exact Hwhole|]. rewrite Qmult_0_l. exact Hpart.
  - apply Qlt_shift_div_r; [exact Hwhole|]. rewrite Qmult_1_l. exact Hlt.
Qed.

Lemma depth_ratio_range (depth limit : Q) :
  (0 < depth)%Q -> (depth <= limit)%Q ->
  (0 < limit)%Q
  /\ (0 <= (limit - depth) / limit)%Q
  /\ ((limit - depth) / limit < 1)%Q
  /\ (((limit - depth) / limit == 0)%Q <-> (depth == limit)%Q)
  /\ ((depth < limit)%Q -> (0 < (limit - depth) / limit)%Q).
Proof.
  intros Hdepth Hlimit.
  assert (Hpositive : (0 < limit)%Q) by exact (Qlt_le_trans _ _ _ Hdepth Hlimit).
  assert (Hnonzero : ~ (limit == 0)%Q).
  { intros H0. rewrite H0 in Hpositive. exact (Qlt_irrefl 0 Hpositive). }
  split; [exact Hpositive|]. split; [|split; [|split]].
  - apply Qle_shift_div_l; [exact Hpositive|]. lra.
  - apply Qlt_shift_div_r; [exact Hpositive|]. lra.
  - split.
    + intros Hzero.
      assert (Hmul : (limit * ((limit - depth) / limit) == limit * 0)%Q)
        by (rewrite Hzero; reflexivity).
      rewrite Qmult_div_r in Hmul by exact Hnonzero. lra.
    + intros Heq. rewrite Heq. unfold Qminus. rewrite Qplus_opp_r.
      unfold Qdiv. apply Qmult_0_l.
  - intros Hlt. apply Qlt_shift_div_l; [exact Hpositive|]. lra.
Qed.

(** X14. The factors of lines 104 and 138-142 only attenuate.  For a point
    that [linearize] processes, the depth factor lies in [0, 1): it is
    positive below the near limit and, from the near limit on, vanishes
    exactly at the far limit.  For an outlier, with a kernel threshold that
    is not negative, the kernel factor threshold / chi lies in [0, 1).
    None of the divisions is by zero. *)
Theorem weight_factors_attenuate (a : UVDAligner) (frame_point : FramePoint) :
  processed a frame_point = true ->
  let near := _maximum_depth_near_meters (parameters a) in
  let far := _maximum_depth_far_meters (parameters a) in
  let threshold := _maximum_error_kernel (parameters a) in
  (0 <= depth_weight a frame_point)%Q
  /\ (depth_weight a frame_point < 1)%Q
  /\ ((depth_meters a frame_point < near)%Q ->
      (0 < near)%Q /\ (0 < depth_weight a frame_point)%Q)
  /\ ((near <= depth_meters a frame_point)%Q ->
      (0 < far)%Q
      /\ ((depth_weight a frame_point == 0)%Q <-> (depth_meters a frame_point == far)%Q))
  /\ (is_outlier a frame_point = true -> (0 <= threshold)%Q ->
      (0 < chi a frame_point)%Q
      /\ (0 <= threshold / chi a frame_point)%Q
      /\ (threshold / chi a frame_point < 1)%Q).
Proof.
  intros Hprocessed near far threshold.
  assert (Houtlier :
    is_outlier a frame_point = true -> (0 <= threshold)%Q ->
    (0 < chi a frame_point)%Q
    /\ (0 <= threshold / chi a frame_point)%Q
    /\ (threshold / chi a frame_point < 1)%Q).
  { intros Hout Hthreshold. unfold is_outlier in Hout.
    apply andb_true_iff in Hout. destruct Hout as [_ Hexceeds].
    apply real_ltb_lt in Hexceeds. fold threshold in Hexceeds.
    assert (Hchi : (0 < chi a frame_point)%Q)
      by exact (Qle_lt_trans _ _ _ Hthreshold Hexceeds).
    split; [exact Hchi|]. split.
    - apply Qle_shift_div_l; [exact Hchi|]. rewrite Qmult_0_l. exact Hthreshold.
    - apply Qlt_shift_div_r; [exact Hchi|]. rewrite Qmult_1_l. exact Hexceeds. }
  apply processed_iff in Hprocessed.
  destruct Hprocessed as (Hpositive & Hfar & _).
  fold far in Hfar.
  unfold depth_weight. fold near far.
  destruct (real_ltb (depth_meters a frame_point) near) eqn:Hnear.
  - apply real_ltb_lt in Hnear.
    destruct (depth_ratio_range (depth_meters a frame_point) near Hpositive
                (Qlt_le_weak _ _ Hnear)) as (Hlimit & H0 & H1 & _ & Hstrict).
    split; [exact H0|]. split; [exact H1|].
    split; [intros _; split; [exact Hlimit|exact (Hstrict Hnear)]|].
    split; [|exact Houtlier].
    intros Hge. exfalso. exact (Qlt_not_le _ _ Hnear Hge).
  - apply real_ltb_ge in Hnear.
    destruct (depth_ratio_range (depth_meters a frame_point) far Hpositive Hfar)
      as (Hlimit & H0 & H1 & Hzero & _).
    split; [exact H0|]. split; [exact H1|].
    split; [intros Hlt; exfalso; exact (Qlt_not_le _ _ Hlt Hnear)|].
    split; [|exact Houtlier].
    intros _. split; [exact Hlimit|exact Hzero].
Qed.

Lemma weight_factors_attenuate_witness :
  let a := example_aligner 10 1000 false in
  let frame_point := example_point 40 50 [0; 0; 2]%Q in
  processed a frame_point = true
  /\ (0 <= depth_weight a frame_point)%Q
  /\ (depth_weight a frame_point < 1)%Q.
Proof.
  assert (Hprocessed : processed (example_aligner 10 1000 false)
                         (example_point 40 50 [0; 0; 2]%Q) = true)
    by (vm_compute; reflexivity).
  split; [exact Hprocessed|].
  destruct (weight_factors_attenuate (example_aligner 10 1000 false)
              (example_point 40 50 [0; 0; 2]%Q) Hprocessed) as (H0 & H1 & _).
  split; [exact H0|exact H1].
Defined.

(** ** What a pass writes *)

Section FrameEffect.

Variables (ignore_outliers_ : bool) (a : UVDAligner).

Lemma same_configuration_refl s : same_configuration s s.
Proof. repeat split. Qed.

Lemma same_configuration_trans s1 s2 s3 :
  same_configuration s1 s2 -> same_configuration s2 s3 -> same_configuration s1 s3.
Proof. unfold same_configuration. intuition congruence. Qed.

Lemma linearize_point_configuration index_point s :
  same_configuration (linearize_point ignore_outliers_ index_point s) s
  /\ _world_to_camera (linearize_point ignore_outliers_ index_point s)
     = _world_to_camera s.
Proof.
  unfold linearize_point.
  destruct (activePoints (_frame s) !! index_point) as [frame_point|];
    [|split; [apply same_configuration_refl|reflexivity]].
  cbv zeta.
  repeat match goal with
         | |- context [if ?c then _ else _] => destruct c
         end; repeat split.
Qed.

Lemma same_view_prediction s frame_point :
  same_view s a ->
  predicted_point_in_image s frame_point = predicted_point_in_image a frame_point.
Proof.
  intros (Hpose & Hcamera & _).
  unfold predicted_point_in_image, predicted_uvd_in_camera, depth_meters,
    predicted_point_in_camera.
  rewrite Hpose, Hcamera. reflexivity.
Qed.

Lemma linearize_fold_points k :
  forall s,
    same_view s a ->
    activePoints (_frame s) = activePoints (_frame a) ->
    (k <= length (activePoints (_frame a)))%nat ->
    let s' :=
      fold_left (fun s index_point => linearize_point ignore_outliers_ index_point s)
        (seq 0 k) s in
    same_view s' a
    /\ same_configuration s' s
    /\ activePoints (_frame s')
       = map (reprojected a) (take k (activePoints (_frame a)))
         ++ drop k (activePoints (_frame a)).
Proof.
  induction k as [|k IH]; intros s Hview Hpoints Hk.
  - simpl. rewrite drop_0. split; [exact Hview|].
    split; [apply same_configuration_refl|exact Hpoints].
  - cbv zeta. rewrite seq_S, fold_left_app. cbn [fold_left Nat.add].
    destruct (IH s Hview Hpoints ltac:(lia)) as (Hview' & Hconfiguration & Hdone).
    cbv zeta in Hview', Hconfiguration, Hdone.
    set (s' := fold_left
                 (fun s index_point => linearize_point ignore_outliers_ index_point s)
                 (seq 0 k) s) in *.
    destruct (lookup_lt_is_Some_2 (activePoints (_frame a)) k ltac:(lia))
      as [frame_point Hpoint].
    assert (Hlength : length (map (reprojected a) (take k (activePoints (_frame a))))
                      = k)
      by (rewrite length_map, length_take; lia).
    assert (Hpoint' : activePoints (_frame s') !! k = Some frame_point).
    { rewrite Hdone, lookup_app_r by lia.
      rewrite Hlength, Nat.sub_diag, lookup_drop, Nat.add_0_r. exact Hpoint. }
    pose proof (linearize_point_view ignore_outliers_ k s' frame_point Hpoint')
      as Hstep.
    destruct (linearize_point_configuration k s') as [Hstep' _].
    split; [|split].
    + unfold same_view in *. intuition congruence.
    + eapply same_configuration_trans; eassumption.
    + rewrite (linearize_point_activePoints _ _ _ _ Hpoint').
      destruct (same_view_locals ignore_outliers_ a s' frame_point Hview')
        as (Hprocessed & _).
      rewrite (take_S_r _ _ _ Hpoint), map_app, <- app_assoc.
      rewrite (drop_S _ _ _ Hpoint) in Hdone.
      cbn [map app]. unfold reprojected at 2.
      rewrite <- Hprocessed.
      destruct (processed s' frame_point).
      * rewrite Hdone.
        rewrite insert_app_r_alt by lia.
        rewrite Hlength, Nat.sub_diag. cbn [insert list_insert].
        rewrite (same_view_prediction s' frame_point Hview'). reflexivity.
      * exact Hdone.
Qed.

End FrameEffect.

(** What a whole pass does to the frame and to the configuration. *)
Lemma linearize_frame (ignore_outliers_ : bool) (a : UVDAligner) :
  same_configuration (linearize ignore_outliers_ a) a
  /\ same_view (linearize ignore_outliers_ a) a
  /\ activePoints (_frame (linearize ignore_outliers_ a))
     = map (reprojected a) (activePoints (_frame a)).
Proof.
  set (s := set_total_error 0
              (set_number_of_outliers 0
                 (set_number_of_inliers 0
                    (set_b (replicate 6 0%Q) (set_H (mzero 6 6) a))))).
  assert (Hview : same_view s a) by (repeat split).
  destruct (linearize_fold_points ignore_outliers_ a
              (length (activePoints (_frame a))) s Hview eq_refl (Nat.le_refl _))
    as (Hview' & Hconfiguration & Hpoints).
  cbv zeta in Hview', Hconfiguration, Hpoints.
  change (fold_left
            (fun s index_point => linearize_point ignore_outliers_ index_point s)
            (seq 0 (length (activePoints (_frame a)))) s)
    with (linearize ignore_outliers_ a) in *.
  rewrite take_ge, drop_ge, app_nil_r in Hpoints by lia.
  split; [|split; [exact Hview'|exact Hpoints]].
  eapply same_configuration_trans; [exact Hconfiguration|]. repeat split.
Qed.

Lemma reprojected_keeps {B} (field : FramePoint -> B) (a : UVDAligner)
    (points : list FramePoint) :
  (forall v p, field (setReprojectionCoordinatesLeft v p) = field p) ->
  map field (map (reprojected a) points) = map field points.
Proof.
  intros Hfield. rewrite map_map. apply map_ext.
  intros p. unfold reprojected. destruct (processed a p); [apply Hfield|reflexivity].
Qed.

(** X15. [linearize] writes to the error and inlier buffers, to the
    accumulators ([_H], [_b], the two counts and the total error), to the
    working matrices [_omega] (lines 38-39, 55, 104, 139-141) and
    [_jacobian] (line 133), and to the reprojections of the points.  Every
    other member is as it was: the parameters, the camera intrinsics and
    image size, the pose estimate and the wrapped transforms, the
    information matrix and the converged flag; of the frame only the
    reprojection of each processed point is set (line 83), so the camera,
    the number and order of the points, their measurements and their
    landmarks are untouched. *)
Theorem linearize_sets_reprojections_only (ignore_outliers_ : bool) (a : UVDAligner) :
  let a' := linearize ignore_outliers_ a in
  same_configuration a' a
  /\ _world_to_camera a' = _world_to_camera a
  /\ activePoints (_frame a') = map (reprojected a) (activePoints (_frame a))
  /\ map landmark (activePoints (_frame a')) = map landmark (activePoints (_frame a))
  /\ map imageCoordinatesLeft (activePoints (_frame a'))
     = map imageCoordinatesLeft (activePoints (_frame a))
  /\ map cameraCoordinatesLeft (activePoints (_frame a'))
     = map cameraCoordinatesLeft (activePoints (_frame a))
  /\ map previous_worldCoordinates (activePoints (_frame a'))
     = map previous_worldCoordinates (activePoints (_frame a)).
Proof.
  intros a'. subst a'.
  destruct (linearize_frame ignore_outliers_ a) as (Hconfiguration & Hview & Hpoints).
  split; [exact Hconfiguration|]. split; [apply Hview|]. split; [exact Hpoints|].
  rewrite Hpoints.
  repeat split; apply reprojected_keeps; reflexivity.
Qed.

Section Repeat.

Variables (ignore_outliers_ : bool) (a : UVDAligner).

(** The reprojection of a point is read by none of the locals. *)
Lemma reprojected_locals s frame_point :
  same_view s a ->
  processed s (reprojected a frame_point) = processed a frame_point
  /\ chi s (reprojected a frame_point) = chi a frame_point
  /\ is_inlier s (reprojected a frame_point) = is_inlier a frame_point
  /\ is_outlier s (reprojected a frame_point) = is_outlier a frame_point
  /\ contributes ignore_outliers_ s (reprojected a frame_point)
     = contributes ignore_outliers_ a frame_point
  /\ H_contribution ignore_outliers_ s (reprojected a frame_point)
     = H_contribution ignore_outliers_ a frame_point
  /\ b_contribution ignore_outliers_ s (reprojected a frame_point)
     = b_contribution ignore_outliers_ a frame_point
  /\ reprojected s (reprojected a frame_point) = reprojected a frame_point.
Proof.
  intros Hview.
  destruct (same_view_locals ignore_outliers_ a s (reprojected a frame_point) Hview)
    as (Hp & Hc & Hi & Ho & Hk & HH & Hb).
  rewrite Hp, Hc, Hi, Ho, Hk, HH, Hb.
  unfold reprojected at 8.
  rewrite Hp, (same_view_prediction a s _ Hview).
  unfold reprojected. destruct (processed a frame_point) eqn:Hprocessed.
  - change (processed a (setReprojectionCoordinatesLeft
                           (predicted_point_in_image a frame_point) frame_point))
      with (processed a frame_point).
    rewrite Hprocessed. repeat split.
  - rewrite Hprocessed. repeat split.
Qed.

Lemma fold_left_reprojected {B} (f g : B -> FramePoint -> B) (points : list FramePoint) :
  (forall acc frame_point, f acc (reprojected a frame_point) = g acc frame_point) ->
  forall start,
    fold_left f (map (reprojected a) points) start = fold_left g points start.
Proof.
  intros Hfg. induction points as [|p points IH]; intros start; [reflexivity|].
  cbn [map fold_left]. rewrite Hfg. apply IH.
Qed.

Lemma filter_length_reprojected (f g : FramePoint -> bool) (points : list FramePoint) :
  (forall frame_point, f (reprojected a frame_point) = g frame_point) ->
  length (List.filter f (map (reprojected a) points)) = length (List.filter g points).
Proof.
  intros Hfg. induction points as [|p points IH]; [reflexivity|].
  cbn [map List.filter]. rewrite Hfg. destruct (g p); cbn [length]; rewrite IH; reflexivity.
Qed.

End Repeat.

(** X16. [linearize] starts from scratch each time (lines 28-32 and 36-39):
    a second pass at the same pose leaves [H], [b], the total error, the two
    counts, the error and inlier buffers and the points of the frame exactly
    as the first pass left them; nothing accumulates from pass to pass. *)
Theorem linearize_again_changes_nothing (ignore_outliers_ : bool) (a : UVDAligner) :
  length (_errors a) = length (activePoints (_frame a)) ->
  length (_inliers a) = length (activePoints (_frame a)) ->
  let a1 := linearize ignore_outliers_ a in
  let a2 := linearize ignore_outliers_ a1 in
  _H a2 = _H a1
  /\ _b a2 = _b a1
  /\ _total_error a2 = _total_error a1
  /\ _number_of_inliers a2 = _number_of_inliers a1
  /\ _number_of_outliers a2 = _number_of_outliers a1
  /\ _errors a2 = _errors a1
  /\ _inliers a2 = _inliers a1
  /\ activePoints (_frame a2) = activePoints (_frame a1).
Proof.
  intros Herrors Hinliers a1 a2.
  pose proof (linearized_linearize ignore_outliers_ a Herrors Hinliers) as Hlin1.
  fold a1 in Hlin1.
  destruct (linearize_frame ignore_outliers_ a) as (_ & _ & Hpoints1).
  fold a1 in Hpoints1.
  assert (Hview : same_view a1 a) by exact (lin_view _ _ _ _ Hlin1).
  assert (Hlength : length (activePoints (_frame a1))
                    = length (activePoints (_frame a)))
    by exact (lin_points_length _ _ _ _ Hlin1).
  assert (Herrors1 : length (_errors a1) = length (activePoints (_frame a1)))
    by (rewrite Hlength; exact (lin_errors_length _ _ _ _ Hlin1)).
  assert (Hinliers1 : length (_inliers a1) = length (activePoints (_frame a1)))
    by (rewrite Hlength; exact (lin_inliers_length _ _ _ _ Hlin1)).
  pose proof (linearized_linearize ignore_outliers_ a1 Herrors1 Hinliers1) as Hlin2.
  fold a2 in Hlin2.
  destruct (linearize_frame ignore_outliers_ a1) as (_ & _ & Hpoints2).
  fold a2 in Hpoints2.
  assert (Hall : take (length (activePoints (_frame a))) (activePoints (_frame a))
                 = activePoints (_frame a)) by (apply take_ge; lia).
  assert (Hall1 : take (length (activePoints (_frame a1))) (activePoints (_frame a1))
                  = activePoints (_frame a1)) by (apply take_ge; lia).
  assert (Hlocals := fun p => reprojected_locals ignore_outliers_ a a1 p Hview).
  split; [|split; [|split; [|split; [|split; [|split; [|split]]]]]].
  - rewrite (lin_H _ _ _ _ Hlin2), (lin_H _ _ _ _ Hlin1), Hall1, Hall, Hpoints1.
    unfold accumulated_H. apply fold_left_reprojected.
    intros acc p. destruct (Hlocals p) as (_ & _ & _ & _ & -> & -> & _). reflexivity.
  - rewrite (lin_b _ _ _ _ Hlin2), (lin_b _ _ _ _ Hlin1), Hall1, Hall, Hpoints1.
    unfold accumulated_b. apply fold_left_reprojected.
    intros acc p. destruct (Hlocals p) as (_ & _ & _ & _ & -> & _ & -> & _). reflexivity.
  - rewrite (lin_total_error _ _ _ _ Hlin2), (lin_total_error _ _ _ _ Hlin1),
      Hall1, Hall, Hpoints1.
    unfold accumulated_error. apply fold_left_reprojected.
    intros acc p. destruct (Hlocals p) as (_ & -> & _ & _ & -> & _). reflexivity.
  - rewrite (lin_number_of_inliers _ _ _ _ Hlin2), (lin_number_of_inliers _ _ _ _ Hlin1),
      Hall1, Hall, Hpoints1.
    f_equal. apply filter_length_reprojected.
    intros p. destruct (Hlocals p) as (_ & _ & -> & _). reflexivity.
  - rewrite (lin_number_of_outliers _ _ _ _ Hlin2),
      (lin_number_of_outliers _ _ _ _ Hlin1), Hall1, Hall, Hpoints1.
    f_equal. apply filter_length_reprojected.
    intros p. destruct (Hlocals p) as (_ & _ & _ & -> & _). reflexivity.
  - apply list_eq. intros i.
    destruct (decide (i < length (activePoints (_frame a)))%nat) as [Hi|Hi].
    + destruct (lookup_lt_is_Some_2 (activePoints (_frame a)) i Hi) as [p Hp].
      assert (Hp1 : activePoints (_frame a1) !! i = Some (reprojected a p))
        by (rewrite Hpoints1, list_lookup_fmap, Hp; reflexivity).
      rewrite (lin_errors _ _ _ _ Hlin2 i _ ltac:(lia) Hp1).
      rewrite (lin_errors _ _ _ _ Hlin1 i _ Hi Hp).
      destruct (Hlocals p) as (-> & -> & _). reflexivity.
    + rewrite !lookup_ge_None_2; [reflexivity| |].
      * rewrite (lin_errors_length _ _ _ _ Hlin1). lia.
      * rewrite (lin_errors_length _ _ _ _ Hlin2). lia.
  - apply list_eq. intros i.
    destruct (decide (i < length (activePoints (_frame a)))%nat) as [Hi|Hi].
    + destruct (lookup_lt_is_Some_2 (activePoints (_frame a)) i Hi) as [p Hp].
      assert (Hp1 : activePoints (_frame a1) !! i = Some (reprojected a p))
        by (rewrite Hpoints1, list_lookup_fmap, Hp; reflexivity).
      rewrite (lin_inliers _ _ _ _ Hlin2 i _ ltac:(lia) Hp1).
      rewrite (lin_inliers _ _ _ _ Hlin1 i _ Hi Hp).
      destruct (Hlocals p) as (_ & _ & -> & _). reflexivity.
    + rewrite !lookup_ge_None_2; [reflexivity| |].
      * rewrite (lin_inliers_length _ _ _ _ Hlin1). lia.
      * rewrite (lin_inliers_length _ _ _ _ Hlin2). lia.
  - rewrite Hpoints2, Hpoints1, map_map. apply map_ext.
    intros p. destruct (Hlocals p) as (_ & _ & _ & _ & _ & _ & _ & ->). reflexivity.
Qed.

Lemma linearize_again_changes_nothing_witness :
  let a := example_aligner 10 1000 false in
  length (_errors a) = length (activePoints (_frame a))
  /\ length (_inliers a) = length (activePoints (_frame a))
  /\ _H (linearize false (linearize false a)) = _H (linearize false a)
  /\ _errors (linearize false (linearize false a)) = _errors (linearize false a).
Proof.
  destruct (@initialize_buffers still_kernels example_frame identity_transform
              (blank_aligner 10 1000 false)) as [Herrors Hinliers].
  fold (example_aligner 10 1000 false) in Herrors, Hinliers.
  split; [exact Herrors|]. split; [exact Hinliers|].
  destruct (linearize_again_changes_nothing false (example_aligner 10 1000 false)
              Herrors Hinliers) as (HH & _ & _ & _ & _ & He & _).
  split; [exact HH|exact He].
Defined.

Lemma lookup_resize {A} (n : nat) (fill : A) (l : list A) (i : nat) :
  resize n fill l !! i
  = if decide (i < n)%nat
    then Some (default fill (l !! i))
    else None.
Proof.
  unfold resize.
  destruct (decide (i < n)%nat) as [Hi|Hi].
  - destruct (decide (i < length l)%nat) as [Hl|Hl].
    + rewrite lookup_app_l by (rewrite length_take; lia).
      rewrite lookup_take_lt by exact Hi.
      destruct (lookup_lt_is_Some_2 l i Hl) as [x ->]. reflexivity.
    + rewrite lookup_app_r by (rewrite length_take; lia).
      rewrite (lookup_ge_None_2 l i) by lia.
      rewrite lookup_replicate_2; [reflexivity|].
      rewrite length_take. lia.
  - apply lookup_ge_None_2.
    rewrite length_app, length_take, length_replicate. lia.
Qed.

Section InitializeThenLinearize.

Context `{kernels : Kernels}.

(** X17. [initialize] resizes the error and inlier buffers to the active
    points of the new frame without resetting them (lines 11-12): an entry
    the buffer had is kept, a new entry is 0 or false.  The pass of
    [linearize] that follows overwrites every entry, so after
    [initialize] and [linearize] each entry is that of the point of the new
    frame at its index, whatever the aligner held before. *)
Theorem initialize_then_linearize
    (frame_ : Frame) (robot_to_world_ : TransformMatrix3D) (a : UVDAligner)
    (ignore_outliers_ : bool) :
  let a0 := initialize frame_ robot_to_world_ a in
  let a' := linearize ignore_outliers_ a0 in
  let n := length (activePoints frame_) in
  (forall i, (i < n)%nat ->
     _errors a0 !! i = Some (default 0%Q (_errors a !! i))
     /\ _inliers a0 !! i = Some (default false (_inliers a !! i)))
  /\ length (_errors a0) = n /\ length (_inliers a0) = n
  /\ length (_errors a') = n /\ length (_inliers a') = n
  /\ forall i frame_point,
       activePoints frame_ !! i = Some frame_point ->
       _errors a' !! i
       = Some (if processed a0 frame_point then chi a0 frame_point else (-1)%Q)
       /\ _inliers a' !! i = Some (is_inlier a0 frame_point).
Proof.
  intros a0 a' n.
  destruct (initialize_buffers frame_ robot_to_world_ a) as [Herrors Hinliers].
  fold a0 in Herrors, Hinliers.
  pose proof (linearized_linearize ignore_outliers_ a0 Herrors Hinliers) as Hlin.
  fold a' in Hlin.
  change (activePoints (_frame a0)) with (activePoints frame_) in *.
  fold n in Herrors, Hinliers, Hlin.
  split.
  { intros i Hi. subst a0. cbn [initialize _errors _inliers]. fold n.
    rewrite !lookup_resize, !decide_True by exact Hi. split; reflexivity. }
  split; [exact Herrors|]. split; [exact Hinliers|].
  split; [exact (lin_errors_length _ _ _ _ Hlin)|].
  split; [exact (lin_inliers_length _ _ _ _ Hlin)|].
  intros i frame_point Hpoint.
  assert (Hi : (i < n)%nat) by (apply lookup_lt_is_Some; eauto).
  split.
  - exact (lin_errors _ _ _ _ Hlin i frame_point Hi Hpoint).
  - exact (lin_inliers _ _ _ _ Hlin i frame_point Hi Hpoint).
Qed.

End InitializeThenLinearize.

(** ** Points beyond the near limit *)

Section ZeroColumns.

Lemma dot_zero_r (u v : list Q) : zero_vector v -> (dot u v == 0)%Q.
Proof.
  intros Hv. revert u. unfold dot.
  induction Hv as [|e v He _ IH]; intros [|x u]; simpl; try reflexivity.
  rewrite He, IH. ring.
Qed.

Lemma dot_zero_l (u v : list Q) : zero_vector u -> (dot u v == 0)%Q.
Proof.
  intros Hu. revert v. unfold dot.
  induction Hu as [|e u He _ IH]; intros [|x v]; simpl; try reflexivity.
  rewrite He, IH. ring.
Qed.

Lemma nth_zero_vector (v : list Q) (i : nat) : zero_vector v -> (nth i v 0 == 0)%Q.
Proof.
  intros Hv. revert i. induction Hv as [|e v He _ IH]; intros [|i]; simpl;
    try reflexivity; [exact He|apply IH].
Qed.

(** A row of a product, entry by entry. *)
Lemma mmul_row (a b : list (list Q)) (i : nat) (row : list Q) :
  a !! i = Some row ->
  mmul a b !! i
  = Some (map (fun j => dot row (mcolumn j b)) (seq 0 (length (nth 0 b [])))).
Proof. intros Hrow. unfold mmul. rewrite list_lookup_fmap, Hrow. reflexivity. Qed.

Lemma mmul_rows_zero_l (a b : list (list Q)) (i : nat) (row : list Q) :
  (forall r, a !! i = Some r -> zero_vector r) ->
  mmul a b !! i = Some row -> zero_vector row.
Proof.
  intros Ha Hrow. unfold mmul in Hrow. rewrite list_lookup_fmap in Hrow.
  destruct (a !! i) as [r|] eqn:Hr; [|discriminate].
  inversion Hrow; subst row.
  apply Forall_forall. intros e He.
  apply list_elem_of_fmap in He. destruct He as (j & -> & _).
  apply dot_zero_l. apply Ha. reflexivity.
Qed.

Lemma mmul_entry_zero_r (a b : list (list Q)) (i j : nat) :
  zero_vector (mcolumn j b) -> (mget i j (mmul a b) == 0)%Q.
Proof.
  intros Hcolumn. unfold mget. rewrite (nth_lookup (mmul a b)).
  unfold mmul. rewrite list_lookup_fmap.
  destruct (a !! i) as [row|]; simpl; [|destruct j; reflexivity].
  rewrite nth_lookup, list_lookup_fmap.
  destruct (seq 0 (length (nth 0 b [])) !! j) as [j'|] eqn:Hj; simpl; [|reflexivity].
  apply lookup_seq in Hj. destruct Hj as [-> _]. simpl.
  apply dot_zero_r. exact Hcolumn.
Qed.

Lemma mget_zero_row (m : list (list Q)) (i j : nat) :
  (forall row, m !! i = Some row -> zero_vector row) -> (mget i j m == 0)%Q.
Proof.
  intros Hrow. unfold mget. rewrite (nth_lookup m).
  destruct (m !! i) as [row|] eqn:Hi; simpl; [|destruct j; reflexivity].
  apply nth_zero_vector. apply Hrow. reflexivity.
Qed.

Lemma mtranspose_row (m : list (list Q)) (i : nat) (row : list Q) :
  mtranspose m !! i = Some row -> row = mcolumn i m.
Proof.
  unfold mtranspose. rewrite list_lookup_fmap.
  destruct (seq 0 (length (nth 0 m [])) !! i) as [j|] eqn:Hj; simpl; [|discriminate].
  apply lookup_seq in Hj. destruct Hj as [-> _]. simpl. congruence.
Qed.

End ZeroColumns.

Section FarPoint.

Variables (a : UVDAligner) (frame_point : FramePoint).
Hypothesis Hfar :
  (_maximum_depth_near_meters (parameters a) <= depth_meters a frame_point)%Q.

Lemma far_jacobian_transform_column (j : nat) :
  (j < 3)%nat -> mcolumn j (jacobian_transform a frame_point) = [0; 0; 0]%Q.
Proof.
  intros Hj. unfold jacobian_transform.
  rewrite (proj2 (real_ltb_ge _ _) Hfar).
  destruct j as [|[|[|j]]]; [reflexivity..|lia].
Qed.

Lemma far_point_jacobian_column (j : nat) :
  (j < 3)%nat -> zero_vector (mcolumn j (point_jacobian a frame_point)).
Proof.
  intros Hj. unfold point_jacobian, mcolumn at 1, mmul at 1.
  rewrite map_map. apply Forall_forall. intros e He.
  apply list_elem_of_fmap in He. destruct He as (row & -> & _).
  cbn [length nth jacobian_transform].
  rewrite nth_lookup, list_lookup_fmap.
  destruct (seq 0 (length (nth 0 (jacobian_transform a frame_point) [])) !! j)
    as [j'|] eqn:Hj'; simpl; [|reflexivity].
  apply lookup_seq in Hj'. destruct Hj' as [-> _]. simpl.
  rewrite far_jacobian_transform_column by exact Hj.
  apply dot_zero_r. repeat constructor.
Qed.

End FarPoint.

(** X18. A point at or beyond the near depth limit constrains the rotation
    only (lines 114-123, 133, 145-146): in the Jacobian the pass assembles
    for it the three translation columns vanish, and so do the translation
    rows and columns of what it adds to [H] and the translation entries of
    what it adds to [b]. *)
Theorem far_point_constrains_rotation_only
    (ignore_outliers_ : bool) (a : UVDAligner) (frame_point : FramePoint) :
  (_maximum_depth_near_meters (parameters a) <= depth_meters a frame_point)%Q ->
  length (point_jacobian a frame_point) = 3%nat
  /\ Forall (fun row => length row = 6%nat) (point_jacobian a frame_point)
  /\ (forall i j, (j < 3)%nat -> (mget i j (point_jacobian a frame_point) == 0)%Q)
  /\ (forall i j, (i < 3)%nat \/ (j < 3)%nat ->
        (mget i j (H_contribution ignore_outliers_ a frame_point) == 0)%Q)
  /\ (forall i, (i < 3)%nat ->
        (nth i (b_contribution ignore_outliers_ a frame_point) 0 == 0)%Q).
Proof.
  intros Hfar.
  pose proof (far_point_jacobian_column a frame_point Hfar) as Hcolumn.
  assert (Hweighted : forall i row, (i < 3)%nat ->
            mmul (mtranspose (point_jacobian a frame_point))
              (point_omega ignore_outliers_ a frame_point) !! i = Some row ->
            zero_vector row).
  { intros i row Hi Hrow. eapply mmul_rows_zero_l; [|exact Hrow].
    intros r Hr. apply mtranspose_row in Hr. subst r. apply Hcolumn. exact Hi. }
  split; [reflexivity|].
  split.
  { unfold point_jacobian, jacobian_transform.
    rewrite (proj2 (real_ltb_ge _ _) Hfar).
    repeat constructor. }
  split.
  { intros i j Hj. unfold mget. rewrite (nth_lookup (point_jacobian a frame_point)).
    destruct (point_jacobian a frame_point !! i) as [row|] eqn:Hrow; simpl;
      [|destruct j; reflexivity].
    pose proof (Hcolumn j Hj) as Hzero. unfold zero_vector, mcolumn in Hzero.
    rewrite Forall_forall in Hzero. apply Hzero.
    apply list_elem_of_fmap. exists row. split; [reflexivity|].
    eapply list_elem_of_lookup_2. exact Hrow. }
  split.
  { intros i j [Hi|Hj]; unfold H_contribution.
    - apply mget_zero_row. intros row Hrow.
      eapply mmul_rows_zero_l; [|exact Hrow].
      intros r Hr. exact (Hweighted i r Hi Hr).
    - apply mmul_entry_zero_r. apply Hcolumn. exact Hj. }
  intros i Hi. unfold b_contribution, mvmul.
  rewrite nth_lookup, list_lookup_fmap.
  destruct (mmul (mtranspose (point_jacobian a frame_point))
              (point_omega ignore_outliers_ a frame_point) !! i) as [row|] eqn:Hrow;
    simpl; [|reflexivity].
  apply dot_zero_l. exact (Hweighted i row Hi Hrow).
Qed.

Lemma far_point_constrains_rotation_only_witness :
  let a := example_aligner 10 1000 false in
  let frame_point := example_point 50 50 [0; 0; 10]%Q in
  (_maximum_depth_near_meters (parameters a) <= depth_meters a frame_point)%Q
  /\ (mget 0 0 (point_jacobian a frame_point) == 0)%Q
  /\ (mget 0 4 (H_contribution false a frame_point) == 0)%Q
  /\ (nth 0 (b_contribution false a frame_point) 0 == 0)%Q.
Proof.
  assert (Hfar :
    (_maximum_depth_near_meters (parameters (example_aligner 10 1000 false))
     <= depth_meters (example_aligner 10 1000 false)
          (example_point 50 50 [0; 0; 10]%Q))%Q)
    by (vm_compute; discriminate).
  split; [exact Hfar|].
  destruct (far_point_constrains_rotation_only false (example_aligner 10 1000 false)
              (example_point 50 50 [0; 0; 10]%Q) Hfar) as (_ & _ & HJ & HH & Hb).
  split; [apply HJ; lia|]. split; [apply HH; left; lia|apply Hb; lia].
Defined.

(** ** The rotation correction of a round *)

Lemma rotation_correction_orthonormal (rotation : list (list Q)) :
  orthonormal rotation -> matrix_eq (rotation_correction rotation) rotation.
Proof.
  intros (Hrows & Hcols & Horthonormal).
  destruct rotation as [|[|r11 [|r12 [|r13 [|]]]] [|[|r21 [|r22 [|r23 [|]]]]
                        [|[|r31 [|r32 [|r33 [|]]]] [|]]]];
    try discriminate Hrows;
    try (exfalso; repeat match goal with
                         | H : Forall _ (_ :: _) |- _ =>
                             apply Forall_cons in H; destruct H
                         end; simpl in *; congruence).
  clear Hrows Hcols.
  unfold matrix_eq in *.
  cbv [mmul mtranspose mcolumn midentity map seq length nth dot zip_with fold_right
       Nat.eqb] in Horthonormal.
  repeat match goal with
         | H : Forall2 _ (_ :: _) (_ :: _) |- _ =>
             apply Forall2_cons in H; destruct H
         | H : Forall2 _ [] [] |- _ => clear H
         end.
  cbv [rotation_correction msub vsub mmul mscale_left mtranspose mcolumn diagonal_minus
       imap map seq length nth dot zip_with fold_right Nat.eqb compose].
  repeat constructor;
    repeat match goal with
           | H : (_ == _)%Q |- _ => rewrite H; clear H
           end; ring.
Qed.

Section ProperRotation.

Context `{kernels : Kernels}.

Lemma oneRound_unfold (ignore_outliers_ : bool) (a : UVDAligner) :
  oneRound ignore_outliers_ a = solve_and_correct (linearize ignore_outliers_ a).
Proof. reflexivity. Qed.

Lemma solve_and_correct_pose (s : UVDAligner) :
  _world_to_camera (solve_and_correct s)
  = set_linear (rotation_correction (linear (stepped_from s))) (stepped_from s).
Proof. reflexivity. Qed.

Lemma oneRound_pose (ignore_outliers_ : bool) (a : UVDAligner) :
  _world_to_camera (oneRound ignore_outliers_ a)
  = set_linear (rotation_correction (linear (stepped_pose ignore_outliers_ a)))
      (stepped_pose ignore_outliers_ a).
Proof. rewrite oneRound_unfold. apply solve_and_correct_pose. Qed.

(** X19. The correction at the end of [oneRound] (lines 164-167) touches
    the rotation block only, and it leaves a proper rotation as it is: the
    translation of the new pose estimate is that of the step applied to the
    old estimate, and when the rotation block after the step has
    orthonormal columns, the corrected block equals it, entry by entry. *)
Theorem oneRound_keeps_a_proper_rotation (ignore_outliers_ : bool) (a : UVDAligner) :
  let stepped := stepped_pose ignore_outliers_ a in
  let corrected := _world_to_camera (oneRound ignore_outliers_ a) in
  translation corrected = translation stepped
  /\ linear corrected = rotation_correction (linear stepped)
  /\ (orthonormal (linear stepped) -> matrix_eq (linear corrected) (linear stepped)).
Proof.
  intros stepped corrected. subst corrected. rewrite oneRound_pose. fold stepped.
  split; [reflexivity|]. split; [reflexivity|].
  intros Horthonormal. cbn [set_linear linear].
  apply rotation_correction_orthonormal. exact Horthonormal.
Qed.

End ProperRotation.

(** With kernels that propose no step the rotation stays the identity,
    which is orthonormal. *)
Lemma oneRound_keeps_a_proper_rotation_witness :
  let a := example_aligner 10 1000 false in
  orthonormal (linear (@stepped_pose still_kernels false a))
  /\ matrix_eq (linear (_world_to_camera (@oneRound still_kernels false a)))
       (linear (@stepped_pose still_kernels false a)).
Proof.
  assert (Horthonormal :
    orthonormal (linear (@stepped_pose still_kernels false
                           (example_aligner 10 1000 false)))).
  { split; [reflexivity|]. split; [repeat constructor|].
    vm_compute. repeat constructor. }
  split; [exact Horthonormal|].
  apply (@oneRound_keeps_a_proper_rotation still_kernels false
           (example_aligner 10 1000 false)).
  exact Horthonormal.
Defined.

(** ** What [converge] keeps, and the empty frame *)

Section Problem.

Context `{kernels : Kernels}.

Lemma same_problem_refl a : same_problem a a.
Proof. repeat split. Qed.

Lemma same_problem_trans s1 s2 s3 :
  same_problem s1 s2 -> same_problem s2 s3 -> same_problem s1 s3.
Proof. unfold same_problem. intuition congruence. Qed.

Lemma linearize_same_problem ignore_outliers_ a :
  same_problem (linearize ignore_outliers_ a) a.
Proof.
  destruct (linearize_frame ignore_outliers_ a)
    as ((Hp & Hc & Hr & Hl & _ & _ & _ & _ & _ & Hcamera) & _ & Hpoints).
  repeat split; try assumption.
  rewrite Hpoints. apply reprojected_keeps. reflexivity.
Qed.

Lemma oneRound_same_problem ignore_outliers_ a :
  same_problem (oneRound ignore_outliers_ a) a.
Proof.
  pose proof (linearize_same_problem ignore_outliers_ a) as Hlinearize.
  unfold oneRound. cbv zeta.
  revert Hlinearize. generalize (linearize ignore_outliers_ a). intros s Hs.
  exact Hs.
Qed.

Lemma converge_loop_same_problem remaining :
  forall iteration total_error_previous a rounds,
    same_problem (converge_loop remaining iteration total_error_previous a rounds).1 a.
Proof.
  induction remaining as [|remaining IH];
    intros iteration total_error_previous a rounds; [apply same_problem_refl|].
  cbn [converge_loop].
  pose proof (oneRound_same_problem false a) as H1.
  revert H1. generalize (oneRound false a). intros a1 H1.
  destruct (real_ltb _ _).
  - pose proof (oneRound_same_problem true a1) as H2.
    revert H2. generalize (oneRound true a1). intros a2 H2.
    pose proof (oneRound_same_problem true a2) as H3.
    revert H3. generalize (oneRound true a2). intros a3 H3.
    pose proof (oneRound_same_problem true a3) as H4.
    revert H4. generalize (oneRound true a3). intros a4 H4.
    cbn [fst].
    apply (same_problem_trans _ a4); [repeat split|].
    apply (same_problem_trans _ a3); [exact H4|].
    apply (same_problem_trans _ a2); [exact H3|].
    apply (same_problem_trans _ a1); [exact H2|exact H1].
  - eapply same_problem_trans; [apply IH|].
    destruct (_ =? _)%N; [|exact H1].
    apply (same_problem_trans _ a1); [repeat split|exact H1].
Qed.

(** X20. [converge] estimates a pose and changes nothing of the problem it
    was given: whatever the number of rounds, the parameters, the camera
    matrix and image size, the camera of the frame, and the number, order,
    measurements, predecessors and landmarks of the active points are as
    before; of the points only the reprojections are written. *)
Theorem converge_keeps_the_problem (a : UVDAligner) :
  same_problem (converge a).1 a
  /\ map landmark (activePoints (_frame (converge a).1))
     = map landmark (activePoints (_frame a))
  /\ length (activePoints (_frame (converge a).1)) = length (activePoints (_frame a)).
Proof.
  assert (Hproblem : same_problem (converge a).1 a).
  { unfold converge.
    pose proof (converge_loop_same_problem
                  (N.to_nat (_maximum_number_of_iterations (parameters a)))
                  0%N 0%Q a []) as Hloop.
    destruct (converge_loop _ _ _ _ _) as [s rounds]. cbn [fst] in *.
    eapply same_problem_trans; [|exact Hloop]. repeat split. }
  split; [exact Hproblem|].
  destruct Hproblem as (_ & _ & _ & _ & _ & Hpoints).
  split.
  - apply (f_equal (map snd)) in Hpoints. rewrite !map_map in Hpoints. exact Hpoints.
  - apply (f_equal length) in Hpoints. rewrite !length_map in Hpoints. exact Hpoints.
Qed.

Lemma linearize_no_points ignore_outliers_ a :
  activePoints (_frame a) = [] ->
  linearize ignore_outliers_ a
  = set_total_error 0
      (set_number_of_outliers 0
         (set_number_of_inliers 0
            (set_b (replicate 6 0%Q) (set_H (mzero 6 6) a)))).
Proof.
  intros Hpoints. unfold linearize.
  cbn [set_total_error set_number_of_outliers set_number_of_inliers set_b set_H _frame].
  rewrite Hpoints. reflexivity.
Qed.

Lemma oneRound_no_points ignore_outliers_ a :
  activePoints (_frame a) = [] ->
  activePoints (_frame (oneRound ignore_outliers_ a)) = []
  /\ parameters (oneRound ignore_outliers_ a) = parameters a
  /\ _total_error (oneRound ignore_outliers_ a) = 0%Q
  /\ _number_of_inliers (oneRound ignore_outliers_ a) = 0%N
  /\ _number_of_outliers (oneRound ignore_outliers_ a) = 0%N
  /\ _b (oneRound ignore_outliers_ a) = replicate 6 0%Q
  /\ _H (oneRound ignore_outliers_ a)
     = madd (mzero 6 6) (mscale_left (_damping (parameters a)) (midentity 6)).
Proof.
  intros Hpoints. unfold oneRound. rewrite (linearize_no_points _ _ Hpoints).
  cbv zeta. repeat split. exact Hpoints.
Qed.

(** X21. A frame without active points converges at once.  With a positive
    [_error_delta_for_convergence] and a cap of at least one iteration,
    [converge] on an empty frame runs one round and the three inlier-only
    rounds, sets the converged flag, and stores as information matrix the
    damping alone: zero plus [_damping] times the identity.  The total
    error and both counts are zero. *)
Theorem converge_without_points (a : UVDAligner) :
  activePoints (_frame a) = [] ->
  (0 < _error_delta_for_convergence (parameters a))%Q ->
  (1 <= _maximum_number_of_iterations (parameters a))%N ->
  (converge a).2 = [false; true; true; true]
  /\ _has_system_converged (converge a).1 = true
  /\ _information_matrix (converge a).1
     = madd (mzero 6 6) (mscale_left (_damping (parameters a)) (midentity 6))
  /\ _total_error (converge a).1 = 0%Q
  /\ _number_of_inliers (converge a).1 = 0%N
  /\ _number_of_outliers (converge a).1 = 0%N.
Proof.
  intros Hpoints Hdelta Hcap.
  destruct (oneRound_no_points false a Hpoints) as (Hp1 & Hq1 & He1 & _).
  assert (Hsettles : settles 0 a 0 = true).
  { unfold settles, previous_error.
    change (kept 1 a) with (oneRound false a).
    rewrite He1. apply real_ltb_lt. exact Hdelta. }
  unfold converge.
  rewrite converge_loop_closed by lia.
  destruct (N.to_nat (_maximum_number_of_iterations (parameters a))) as [|cap] eqn:Hn;
    [lia|].
  cbn [first_settled]. rewrite Hsettles.
  change (kept 1 a) with (oneRound false a).
  unfold polished. cbv zeta.
  destruct (oneRound_no_points true _ Hp1) as (Hp2 & Hq2 & _).
  destruct (oneRound_no_points true _ Hp2) as (Hp3 & Hq3 & _).
  destruct (oneRound_no_points true _ Hp3) as (_ & _ & He4 & Hi4 & Ho4 & _ & HH4).
  rewrite Hq3, Hq2, Hq1 in HH4.
  revert He4 Hi4 Ho4 HH4.
  generalize (oneRound true (oneRound true (oneRound true (oneRound false a)))).
  intros s He Hi Ho HH.
  cbn. repeat split; assumption.
Qed.

End Problem.

Lemma converge_without_points_witness :
  let a := blank_aligner 10 1 false in
  activePoints (_frame a) = []
  /\ (0 < _error_delta_for_convergence (parameters a))%Q
  /\ (1 <= _maximum_number_of_iterations (parameters a))%N
  /\ (@converge still_kernels a).2 = [false; true; true; true]
  /\ _has_system_converged (@converge still_kernels a).1 = true.
Proof.
  assert (Hpoints : activePoints (_frame (blank_aligner 10 1 false)) = [])
    by reflexivity.
  assert (Hdelta : (0 < _error_delta_for_convergence
                         (parameters (blank_aligner 10 1 false)))%Q)
    by reflexivity.
  assert (Hcap : (1 <= _maximum_number_of_iterations
                        (parameters (blank_aligner 10 1 false)))%N)
    by (vm_compute; discriminate).
  split; [exact Hpoints|]. split; [exact Hdelta|]. split; [exact Hcap|].
  destruct (@converge_without_points still_kernels (blank_aligner 10 1 false)
              Hpoints Hdelta Hcap) as (Hrounds & Hflag & _).
  split; [exact Hrounds|exact Hflag].
Defined.

(** ** Buffers, counters and ignored outliers *)

Section Buffers.

Variables (ignore_outliers_ : bool) (a : UVDAligner).
Hypothesis Herrors : length (_errors a) = length (activePoints (_frame a)).
Hypothesis Hinliers : length (_inliers a) = length (activePoints (_frame a)).

Lemma linearize_buffers :
  _errors (linearize ignore_outliers_ a)
  = map (recorded_error a) (activePoints (_frame a))
  /\ _inliers (linearize ignore_outliers_ a)
     = map (is_inlier a) (activePoints (_frame a)).
Proof.
  pose proof (linearized_linearize ignore_outliers_ a Herrors Hinliers) as Hlin.
  split; apply list_eq; intros i; rewrite list_lookup_fmap.
  - destruct (activePoints (_frame a) !! i) as [p|] eqn:Hp; simpl.
    + apply (lin_errors _ _ _ _ Hlin i p); [|exact Hp].
      apply lookup_lt_is_Some. eauto.
    + apply lookup_ge_None_2. rewrite (lin_errors_length _ _ _ _ Hlin).
      apply lookup_ge_None_1. exact Hp.
  - destruct (activePoints (_frame a) !! i) as [p|] eqn:Hp; simpl.
    + apply (lin_inliers _ _ _ _ Hlin i p); [|exact Hp].
      apply lookup_lt_is_Some. eauto.
    + apply lookup_ge_None_2. rewrite (lin_inliers_length _ _ _ _ Hlin).
      apply lookup_ge_None_1. exact Hp.
Qed.

Lemma linearize_counts :
  _number_of_inliers (linearize ignore_outliers_ a)
  = N.of_nat (length (List.filter (is_inlier a) (activePoints (_frame a))))
  /\ _number_of_outliers (linearize ignore_outliers_ a)
     = N.of_nat (length (List.filter (is_outlier a) (activePoints (_frame a))))
  /\ _H (linearize ignore_outliers_ a)
     = accumulated_H ignore_outliers_ a (activePoints (_frame a))
  /\ _b (linearize ignore_outliers_ a)
     = accumulated_b ignore_outliers_ a (activePoints (_frame a))
  /\ _total_error (linearize ignore_outliers_ a)
     = accumulated_error ignore_outliers_ a (activePoints (_frame a)).
Proof.
  pose proof (linearized_linearize ignore_outliers_ a Herrors Hinliers) as Hlin.
  assert (Hall : take (length (activePoints (_frame a))) (activePoints (_frame a))
                 = activePoints (_frame a)) by (apply take_ge; lia).
  pose proof (lin_number_of_inliers _ _ _ _ Hlin) as Hni.
  pose proof (lin_number_of_outliers _ _ _ _ Hlin) as Hno.
  pose proof (lin_H _ _ _ _ Hlin) as HH.
  pose proof (lin_b _ _ _ _ Hlin) as Hb.
  pose proof (lin_total_error _ _ _ _ Hlin) as He.
  rewrite Hall in Hni, Hno, HH, Hb, He. repeat split; assumption.
Qed.

End Buffers.

Lemma filter_map_length {A B} (f : A -> B) (p : B -> bool) (l : list A) :
  length (List.filter p (map f l)) = length (List.filter (fun x => p (f x)) l).
Proof.
  induction l as [|x l IH]; [reflexivity|].
  cbn [map List.filter]. destruct (p (f x)); cbn [length]; rewrite IH; reflexivity.
Qed.

Lemma filter_ext_length {A} (p q : A -> bool) (l : list A) :
  (forall x, p x = q x) ->
  length (List.filter p l) = length (List.filter q l).
Proof. intros Hpq. rewrite (List.filter_ext p q Hpq). reflexivity. Qed.

Lemma recorded_outlier (a : UVDAligner) (frame_point : FramePoint) :
  marks_outlier (recorded_error a frame_point, is_inlier a frame_point)
  = is_outlier a frame_point.
Proof.
  unfold marks_outlier, recorded_error, is_outlier, is_inlier. cbn [fst snd].
  destruct (processed a frame_point); cbn [andb]; [|reflexivity].
  pose proof (chi_nonnegative a frame_point) as Hchi.
  apply Qle_bool_iff in Hchi. rewrite Hchi. reflexivity.
Qed.

(** X22. The buffers and the counters [linearize] leaves agree: entry by
    entry the error buffer holds the squared residual of a processed point
    and -1 for a skipped one, the inlier buffer holds whether the point is
    an inlier; [_number_of_inliers] is the number of set flags in the
    inlier buffer, and [_number_of_outliers] is the number of entries with
    a recorded error whose flag is not set. *)
Theorem linearize_counts_agree_with_buffers
    (ignore_outliers_ : bool) (a : UVDAligner) :
  length (_errors a) = length (activePoints (_frame a)) ->
  length (_inliers a) = length (activePoints (_frame a)) ->
  let a' := linearize ignore_outliers_ a in
  _errors a' = map (recorded_error a) (activePoints (_frame a))
  /\ _inliers a' = map (is_inlier a) (activePoints (_frame a))
  /\ _number_of_inliers a' = N.of_nat (length (List.filter id (_inliers a')))
  /\ _number_of_outliers a'
     = N.of_nat (length (List.filter marks_outlier (zip (_errors a') (_inliers a')))).
Proof.
  intros Herrors Hinliers a'. subst a'.
  destruct (linearize_buffers ignore_outliers_ a Herrors Hinliers) as [He Hi].
  destruct (linearize_counts ignore_outliers_ a Herrors Hinliers)
    as (Hni & Hno & _).
  split; [exact He|]. split; [exact Hi|]. split.
  - rewrite Hni, Hi, filter_map_length. reflexivity.
  - rewrite Hno, He, Hi. f_equal.
    generalize (activePoints (_frame a)). intros points.
    induction points as [|p points IH]; [reflexivity|].
    cbn [map zip zip_with List.filter].
    change (zip_with pair (map (recorded_error a) points) (map (is_inlier a) points))
      with (zip (map (recorded_error a) points) (map (is_inlier a) points)).
    rewrite recorded_outlier.
    destruct (is_outlier a p); cbn [length]; rewrite IH; reflexivity.
Qed.

Lemma linearize_counts_agree_with_buffers_witness :
  let a := example_aligner 10 1000 false in
  let a' := linearize false a in
  length (_errors a) = length (activePoints (_frame a))
  /\ length (_inliers a) = length (activePoints (_frame a))
  /\ _inliers a' = map (is_inlier a) (activePoints (_frame a))
  /\ _number_of_inliers a' = N.of_nat (length (List.filter id (_inliers a')))
  /\ _number_of_outliers a'
     = N.of_nat (length (List.filter marks_outlier (zip (_errors a') (_inliers a')))).
Proof.
  destruct (@initialize_buffers still_kernels example_frame identity_transform
              (blank_aligner 10 1000 false)) as [Herrors Hinliers].
  fold (example_aligner 10 1000 false) in Herrors, Hinliers.
  split; [exact Herrors|]. split; [exact Hinliers|].
  destruct (linearize_counts_agree_with_buffers false (example_aligner 10 1000 false)
              Herrors Hinliers) as (_ & Hi & Hni & Hno).
  split; [exact Hi|]. split; [exact Hni|exact Hno].
Defined.

Section IgnoringOutliers.

Variable a : UVDAligner.

Lemma no_outlier_contributions (frame_point : FramePoint) :
  is_outlier a frame_point = false ->
  contributes true a frame_point = contributes false a frame_point
  /\ H_contribution true a frame_point = H_contribution false a frame_point
  /\ b_contribution true a frame_point = b_contribution false a frame_point.
Proof.
  intros Hout.
  assert (Hc : contributes true a frame_point = contributes false a frame_point).
  { unfold contributes, is_outlier in *.
    destruct (processed a frame_point); [|reflexivity].
    cbn [andb] in *. rewrite Hout. reflexivity. }
  split; [exact Hc|].
  unfold H_contribution, b_contribution, point_omega, weight_scalings.
  rewrite Hc. split; reflexivity.
Qed.

Lemma no_outliers_accumulated (points : list FramePoint) :
  List.filter (is_outlier a) points = [] ->
  accumulated_H true a points = accumulated_H false a points
  /\ accumulated_b true a points = accumulated_b false a points
  /\ accumulated_error true a points = accumulated_error false a points.
Proof.
  intros Hnone.
  assert (Hall : Forall (fun p => is_outlier a p = false) points).
  { induction points as [|p points IH]; [constructor|].
    cbn [List.filter] in Hnone.
    destruct (is_outlier a p) eqn:Hp; [discriminate|].
    constructor; [exact Hp|apply IH; exact Hnone]. }
  clear Hnone. unfold accumulated_H, accumulated_b, accumulated_error.
  split; [|split].
  - generalize (mzero 6 6).
    induction Hall as [|p points Hp _ IH]; intros start; [reflexivity|].
    cbn [fold_left]. destruct (no_outlier_contributions p Hp) as (-> & -> & _).
    apply IH.
  - generalize (replicate 6 0%Q).
    induction Hall as [|p points Hp _ IH]; intros start; [reflexivity|].
    cbn [fold_left]. destruct (no_outlier_contributions p Hp) as (-> & _ & ->).
    apply IH.
  - generalize 0%Q.
    induction Hall as [|p points Hp _ IH]; intros start; [reflexivity|].
    cbn [fold_left]. destruct (no_outlier_contributions p Hp) as (-> & _ & _).
    apply IH.
Qed.

End IgnoringOutliers.

(** X23. Ignoring outliers changes what is accumulated, never what is
    classified: [linearize(true)] and [linearize(false)] leave the same error
    and inlier buffers and the same inlier and outlier counts (lines
    97-108); and when the pass counts no outlier they also leave the same
    [H], [b] and total error. *)
Theorem ignoring_outliers_keeps_the_classification (a : UVDAligner) :
  length (_errors a) = length (activePoints (_frame a)) ->
  length (_inliers a) = length (activePoints (_frame a)) ->
  _errors (linearize true a) = _errors (linearize false a)
  /\ _inliers (linearize true a) = _inliers (linearize false a)
  /\ _number_of_inliers (linearize true a) = _number_of_inliers (linearize false a)
  /\ _number_of_outliers (linearize true a) = _number_of_outliers (linearize false a)
  /\ (_number_of_outliers (linearize false a) = 0%N ->
      _H (linearize true a) = _H (linearize false a)
      /\ _b (linearize true a) = _b (linearize false a)
      /\ _total_error (linearize true a) = _total_error (linearize false a)).
Proof.
  intros Herrors Hinliers.
  destruct (linearize_buffers true a Herrors Hinliers) as [He1 Hi1].
  destruct (linearize_buffers false a Herrors Hinliers) as [He2 Hi2].
  destruct (linearize_counts true a Herrors Hinliers) as (Hni1 & Hno1 & HH1 & Hb1 & Ht1).
  destruct (linearize_counts false a Herrors Hinliers) as (Hni2 & Hno2 & HH2 & Hb2 & Ht2).
  split; [congruence|]. split; [congruence|]. split; [congruence|].
  split; [congruence|].
  intros Hnone. rewrite Hno2 in Hnone.
  assert (Hempty : List.filter (is_outlier a) (activePoints (_frame a)) = []).
  { destruct (List.filter (is_outlier a) (activePoints (_frame a)));
      [reflexivity|simpl in Hnone; lia]. }
  destruct (no_outliers_accumulated a _ Hempty) as (HH & Hb & Ht).
  rewrite HH1, HH2, Hb1, Hb2, Ht1, Ht2. repeat split; assumption.
Qed.

Lemma ignoring_outliers_keeps_the_classification_witness :
  let a := example_aligner 10 1000 false in
  length (_errors a) = length (activePoints (_frame a))
  /\ length (_inliers a) = length (activePoints (_frame a))
  /\ _errors (linearize true a) = _errors (linearize false a)
  /\ _inliers (linearize true a) = _inliers (linearize false a)
  /\ _number_of_outliers (linearize true a) = _number_of_outliers (linearize false a).
Proof.
  destruct (@initialize_buffers still_kernels example_frame identity_transform
              (blank_aligner 10 1000 false)) as [Herrors Hinliers].
  fold (example_aligner 10 1000 false) in Herrors, Hinliers.
  split; [exact Herrors|]. split; [exact Hinliers|].
  destruct (ignoring_outliers_keeps_the_classification (example_aligner 10 1000 false)
              Herrors Hinliers) as (He & Hi & _ & Hno & _).
  split; [exact He|]. split; [exact Hi|exact Hno].
Defined.

(** ** The information matrix *)

Section InformationMatrix.

Context `{kernels : Kernels}.

Lemma solve_and_correct_fields (s : UVDAligner) :
  _H (solve_and_correct s)
  = madd (_H s) (mscale_left (_damping (parameters s)) (midentity 6))
  /\ _errors (solve_and_correct s) = _errors s
  /\ _inliers (solve_and_correct s) = _inliers s
  /\ _frame (solve_and_correct s) = _frame s
  /\ parameters (solve_and_correct s) = parameters s.
Proof. repeat split. Qed.

Lemma oneRound_H (ignore_outliers_ : bool) (a : UVDAligner) :
  buffers_sized a ->
  _H (oneRound ignore_outliers_ a)
  = madd (accumulated_H ignore_outliers_ a (activePoints (_frame a)))
      (mscale_left (_damping (parameters a)) (midentity 6))
  /\ buffers_sized (oneRound ignore_outliers_ a).
Proof.
  intros [Herrors Hinliers].
  pose proof (linearized_linearize ignore_outliers_ a Herrors Hinliers) as Hlin.
  rewrite oneRound_unfold.
  destruct (solve_and_correct_fields (linearize ignore_outliers_ a))
    as (HH & He & Hi & Hf & Hp).
  unfold buffers_sized. rewrite HH, He, Hi, Hf, (lin_H _ _ _ _ Hlin).
  rewrite take_ge by lia.
  destruct (lin_view _ _ _ _ Hlin) as (_ & _ & -> & _).
  split; [reflexivity|].
  rewrite (lin_points_length _ _ _ _ Hlin).
  split; [exact (lin_errors_length _ _ _ _ Hlin)|exact (lin_inliers_length _ _ _ _ Hlin)].
Qed.

Lemma kept_buffers_sized (k : nat) (a : UVDAligner) :
  buffers_sized a -> buffers_sized (kept k a).
Proof.
  intros Hsized. induction k as [|k IH]; [exact Hsized|].
  change (kept (S k) a) with (oneRound false (kept k a)).
  apply oneRound_H. exact IH.
Qed.

Lemma wrapped_polished_fields (x : UVDAligner) :
  _has_system_converged (wrapped (polished x)) = true
  /\ _information_matrix (wrapped (polished x))
     = _H (oneRound true (oneRound true (oneRound true x)))
  /\ _world_to_camera (wrapped (polished x))
     = _world_to_camera (oneRound true (oneRound true (oneRound true x))).
Proof.
  unfold polished. cbv zeta.
  generalize (oneRound true (oneRound true (oneRound true x))). intros s.
  repeat split.
Qed.

Lemma converge_settled (a : UVDAligner) (k : nat) :
  first_settled 0 a 0 (N.to_nat (_maximum_number_of_iterations (parameters a)))
  = Some k ->
  converge a
  = (wrapped (polished (kept (S k) a)), replicate (S k) false ++ [true; true; true]).
Proof.
  intros Hfirst. unfold converge.
  rewrite converge_loop_closed by lia.
  rewrite Hfirst. reflexivity.
Qed.

(** X24. When [converge] reports convergence, the information matrix it
    stores (line 189) is the [H] of the last of the three inlier-only
    rounds with the damping added (line 157): the sum of the contributions
    of the inliers, linearised at the pose before the last step, plus
    [_damping] times the identity.  It is not recomputed at the final
    pose. *)
Theorem information_matrix_is_damped (a : UVDAligner) (k : nat) :
  buffers_sized a ->
  first_settled 0 a 0 (N.to_nat (_maximum_number_of_iterations (parameters a)))
  = Some k ->
  let before_last := oneRound true (oneRound true (kept (S k) a)) in
  _has_system_converged (converge a).1 = true
  /\ _information_matrix (converge a).1
     = madd (accumulated_H true before_last (activePoints (_frame before_last)))
         (mscale_left (_damping (parameters a)) (midentity 6))
  /\ _world_to_camera (converge a).1 = _world_to_camera (oneRound true before_last).
Proof.
  intros Hsized Hfirst before_last.
  rewrite (converge_settled a k Hfirst). cbn [fst].
  destruct (wrapped_polished_fields (kept (S k) a)) as (Hflag & Hinformation & Hpose).
  fold before_last in Hinformation, Hpose.
  split; [exact Hflag|]. split; [|exact Hpose].
  rewrite Hinformation.
  pose proof (kept_buffers_sized (S k) a Hsized) as H0.
  destruct (oneRound_H true _ H0) as [_ H1].
  destruct (oneRound_H true _ H1) as [_ H2].
  fold before_last in H2.
  destruct (oneRound_H true _ H2) as [HH _].
  rewrite HH. do 2 f_equal.
  subst before_last.
  rewrite (proj1 (oneRound_parameters true _)), (proj1 (oneRound_parameters true _)).
  rewrite (proj1 (kept_parameters _ _)). reflexivity.
Qed.

End InformationMatrix.

Lemma information_matrix_is_damped_witness :
  let a := example_aligner 10 1000 false in
  let before_last :=
    @oneRound still_kernels true
      (@oneRound still_kernels true (@kept still_kernels 1 a)) in
  buffers_sized a
  /\ @first_settled still_kernels 0 a 0
       (N.to_nat (_maximum_number_of_iterations (parameters a))) = Some 0%nat
  /\ _information_matrix (@converge still_kernels a).1
     = madd (accumulated_H true before_last (activePoints (_frame before_last)))
         (mscale_left (_damping (parameters a)) (midentity 6)).
Proof.
  assert (Hsized : buffers_sized (example_aligner 10 1000 false)).
  { exact (@initialize_buffers still_kernels example_frame identity_transform
             (blank_aligner 10 1000 false)). }
  assert (Hfirst :
            @first_settled still_kernels 0 (example_aligner 10 1000 false) 0
              (N.to_nat (_maximum_number_of_iterations
                           (parameters (example_aligner 10 1000 false))))
            = Some 0%nat) by (vm_compute; reflexivity).
  split; [exact Hsized|]. split; [exact Hfirst|].
  exact (proj1 (proj2 (@information_matrix_is_damped still_kernels
                         (example_aligner 10 1000 false) 0 Hsized Hfirst))).
Defined.

(** ** Symmetry of the normal equations *)

Section Symmetry.

Lemma mget_madd (n : nat) (m1 m2 : list (list Q)) (i j : nat) :
  square n m1 -> square n m2 ->
  (mget i j (madd m1 m2) == mget i j m1 + mget i j m2)%Q.
Proof.
  intros [Hrows1 Hcols1] [Hrows2 Hcols2]. unfold mget, madd.
  rewrite !(nth_lookup _ i []), lookup_zip_with.
  destruct (m1 !! i) as [row1|] eqn:H1; destruct (m2 !! i) as [row2|] eqn:H2; simpl.
  - unfold vadd. rewrite !(nth_lookup _ j 0%Q), lookup_zip_with.
    assert (Hl1 : length row1 = n).
    { rewrite Forall_forall in Hcols1. apply Hcols1.
      eapply list_elem_of_lookup_2. exact H1. }
    assert (Hl2 : length row2 = n).
    { rewrite Forall_forall in Hcols2. apply Hcols2.
      eapply list_elem_of_lookup_2. exact H2. }
    destruct (row1 !! j) as [x|] eqn:Hx; destruct (row2 !! j) as [y|] eqn:Hy; simpl;
      try reflexivity.
    + apply lookup_ge_None_1 in Hy. apply lookup_lt_Some in Hx. lia.
    + apply lookup_ge_None_1 in Hx. apply lookup_lt_Some in Hy. lia.
  - apply lookup_ge_None_1 in H2. apply lookup_lt_Some in H1. lia.
  - apply lookup_ge_None_1 in H1. apply lookup_lt_Some in H2. lia.
  - destruct j; reflexivity.
Qed.

Lemma madd_square (n : nat) (m1 m2 : list (list Q)) :
  square n m1 -> square n m2 -> square n (madd m1 m2).
Proof.
  intros [Hrows1 Hcols1] [Hrows2 Hcols2]. unfold madd. split.
  - rewrite length_zip_with. lia.
  - apply Forall_forall. intros row Hrow.
    apply elem_of_lookup_zip_with in Hrow.
    destruct Hrow as (i & row1 & row2 & -> & H1 & H2).
    unfold vadd. rewrite length_zip_with.
    rewrite Forall_forall in Hcols1, Hcols2.
    rewrite (Hcols1 row1), (Hcols2 row2); [lia| |];
      eapply list_elem_of_lookup_2; eassumption.
Qed.

Lemma madd_symmetric (n : nat) (m1 m2 : list (list Q)) :
  square n m1 -> square n m2 -> symmetric m1 -> symmetric m2 ->
  symmetric (madd m1 m2).
Proof.
  intros Hs1 Hs2 H1 H2 i j.
  rewrite !(mget_madd n) by assumption. rewrite (H1 i j), (H2 i j). reflexivity.
Qed.

Lemma fold_mscale_shape (scalings : list Q) :
  forall w11 w12 w13 w21 w22 w23 w31 w32 w33 : Q,
    (w12 == w21)%Q -> (w13 == w31)%Q -> (w23 == w32)%Q ->
    exists v11 v12 v13 v21 v22 v23 v31 v32 v33 : Q,
      fold_left mscale scalings
        [ [ w11; w12; w13 ]; [ w21; w22; w23 ]; [ w31; w32; w33 ] ]
      = [ [ v11; v12; v13 ]; [ v21; v22; v23 ]; [ v31; v32; v33 ] ]
      /\ (v12 == v21)%Q /\ (v13 == v31)%Q /\ (v23 == v32)%Q.
Proof.
  induction scalings as [|k scalings IH]; intros w11 w12 w13 w21 w22 w23 w31 w32 w33
    H12 H13 H23.
  - exists w11, w12, w13, w21, w22, w23, w31, w32, w33. repeat split; assumption.
  - cbn [fold_left mscale vscale map].
    apply IH; [rewrite H12|rewrite H13|rewrite H23]; reflexivity.
Qed.

Lemma point_omega_shape ignore_outliers_ (a : UVDAligner) (frame_point : FramePoint) :
  exists v11 v12 v13 v21 v22 v23 v31 v32 v33 : Q,
    point_omega ignore_outliers_ a frame_point
    = [ [ v11; v12; v13 ]; [ v21; v22; v23 ]; [ v31; v32; v33 ] ]
    /\ (v12 == v21)%Q /\ (v13 == v31)%Q /\ (v23 == v32)%Q.
Proof.
  unfold point_omega, omega_initial. apply fold_mscale_shape; reflexivity.
Qed.

Lemma point_jacobian_shape (a : UVDAligner) (frame_point : FramePoint) :
  exists j11 j12 j13 j14 j15 j16 j21 j22 j23 j24 j25 j26 j31 j32 j33 j34 j35 j36 : Q,
    point_jacobian a frame_point
    = [ [ j11; j12; j13; j14; j15; j16 ];
        [ j21; j22; j23; j24; j25; j26 ];
        [ j31; j32; j33; j34; j35; j36 ] ].
Proof.
  unfold point_jacobian, jacobian_transform.
  destruct (real_ltb _ _); do 18 eexists; reflexivity.
Qed.

Lemma sandwich_symmetric
    (j11 j12 j13 j14 j15 j16 j21 j22 j23 j24 j25 j26 j31 j32 j33 j34 j35 j36 : Q)
    (v11 v12 v13 v21 v22 v23 v31 v32 v33 : Q) :
  (v12 == v21)%Q -> (v13 == v31)%Q -> (v23 == v32)%Q ->
  let J := [ [ j11; j12; j13; j14; j15; j16 ];
             [ j21; j22; j23; j24; j25; j26 ];
             [ j31; j32; j33; j34; j35; j36 ] ] in
  let W := [ [ v11; v12; v13 ]; [ v21; v22; v23 ]; [ v31; v32; v33 ] ] in
  square 6 (mmul (mmul (mtranspose J) W) J)
  /\ symmetric (mmul (mmul (mtranspose J) W) J).
Proof.
  intros H12 H13 H23 J W. split; [split; [reflexivity|repeat constructor]|].
  intros i j.
  destruct i as [|[|[|[|[|[|i]]]]]]; destruct j as [|[|[|[|[|[|j]]]]]];
    cbv [J W mget mmul mtranspose mcolumn map seq length nth dot zip_with fold_right];
    try reflexivity;
    try (destruct i; reflexivity); try (destruct j; reflexivity);
    try (destruct i; destruct j; reflexivity);
    rewrite H12, H13, H23; ring.
Qed.

End Symmetry.

Section SymmetricH.

Lemma H_contribution_symmetric ignore_outliers_ (a : UVDAligner)
    (frame_point : FramePoint) :
  square 6 (H_contribution ignore_outliers_ a frame_point)
  /\ symmetric (H_contribution ignore_outliers_ a frame_point).
Proof.
  unfold H_contribution.
  destruct (point_jacobian_shape a frame_point)
    as (j11 & j12 & j13 & j14 & j15 & j16 & j21 & j22 & j23 & j24 & j25 & j26
        & j31 & j32 & j33 & j34 & j35 & j36 & ->).
  destruct (point_omega_shape ignore_outliers_ a frame_point)
    as (v11 & v12 & v13 & v21 & v22 & v23 & v31 & v32 & v33 & -> & H12 & H13 & H23).
  apply sandwich_symmetric; assumption.
Qed.

Lemma mzero_symmetric : square 6 (mzero 6 6) /\ symmetric (mzero 6 6).
Proof.
  split; [split; [reflexivity|repeat constructor]|].
  intros i j.
  destruct i as [|[|[|[|[|[|i]]]]]]; destruct j as [|[|[|[|[|[|j]]]]]];
    try reflexivity; try (destruct i; reflexivity); try (destruct j; reflexivity);
    destruct i; destruct j; reflexivity.
Qed.

Lemma damping_symmetric (k : Q) :
  square 6 (mscale_left k (midentity 6)) /\ symmetric (mscale_left k (midentity 6)).
Proof.
  split; [split; [reflexivity|repeat constructor]|].
  intros i j.
  destruct i as [|[|[|[|[|[|i]]]]]]; destruct j as [|[|[|[|[|[|j]]]]]];
    try reflexivity; try (destruct i; reflexivity); try (destruct j; reflexivity);
    destruct i; destruct j; reflexivity.
Qed.

Lemma accumulated_H_symmetric ignore_outliers_ (a : UVDAligner)
    (points : list FramePoint) :
  square 6 (accumulated_H ignore_outliers_ a points)
  /\ symmetric (accumulated_H ignore_outliers_ a points).
Proof.
  unfold accumulated_H.
  pose proof mzero_symmetric as Hstart. revert Hstart.
  generalize (mzero 6 6).
  induction points as [|p points IH]; intros start Hstart; [exact Hstart|].
  cbn [fold_left]. apply IH.
  destruct (contributes ignore_outliers_ a p); [|exact Hstart].
  destruct Hstart as [Hsquare Hsymmetric].
  destruct (H_contribution_symmetric ignore_outliers_ a p) as [Hsquare' Hsymmetric'].
  split; [apply madd_square; assumption|].
  apply (madd_symmetric 6); assumption.
Qed.

End SymmetricH.

Section SymmetricSystem.

Context `{kernels : Kernels}.

(** X25. The matrix of the normal equations is symmetric, as the LDLT
    solve of line 160 takes it to be: the [H] that [linearize] accumulates
    (line 145) is a 6x6 matrix equal to its transpose entry by entry, and
    so is the damped [H] that [oneRound] solves with and leaves (line
    157). *)
Theorem normal_matrix_is_symmetric (ignore_outliers_ : bool) (a : UVDAligner) :
  buffers_sized a ->
  square 6 (_H (linearize ignore_outliers_ a))
  /\ symmetric (_H (linearize ignore_outliers_ a))
  /\ square 6 (_H (oneRound ignore_outliers_ a))
  /\ symmetric (_H (oneRound ignore_outliers_ a)).
Proof.
  intros Hsized.
  destruct (accumulated_H_symmetric ignore_outliers_ a (activePoints (_frame a)))
    as [Hsquare Hsymmetric].
  destruct (damping_symmetric (_damping (parameters a))) as [Hsquare' Hsymmetric'].
  destruct (linearize_counts ignore_outliers_ a (proj1 Hsized) (proj2 Hsized))
    as (_ & _ & -> & _).
  destruct (oneRound_H ignore_outliers_ a Hsized) as [-> _].
  split; [exact Hsquare|]. split; [exact Hsymmetric|].
  split; [apply madd_square; assumption|].
  apply (madd_symmetric 6); assumption.
Qed.

End SymmetricSystem.

Lemma normal_matrix_is_symmetric_witness :
  let a := example_aligner 10 1000 false in
  buffers_sized a
  /\ symmetric (_H (linearize false a))
  /\ symmetric (_H (@oneRound still_kernels false a)).
Proof.
  assert (Hsized : buffers_sized (example_aligner 10 1000 false)).
  { exact (@initialize_buffers still_kernels example_frame identity_transform
             (blank_aligner 10 1000 false)). }
  split; [exact Hsized|].
  destruct (@normal_matrix_is_symmetric still_kernels false
              (example_aligner 10 1000 false) Hsized) as (_ & H1 & _ & H2).
  split; [exact H1|exact H2].
Defined.
